(** * Synotra language support: structural parser, type registry and
      lightweight type inference, embedded in Rocq.

    The development follows the TypeScript sources:
    - [core/parser.ts]  (two revisions of [Parser], and [TypeRegistry]),
    - [inference/engine/regexPatterns.ts] (the pattern library),
    - [inference/builtinDefinition.ts] (the builtin catalog),
    - [inlay.ts] (the [InferenceEngine] with [typeToString]),
    - the hints provider of [inlay.ts] and the shared
      [DocumentInferenceService],
    - the [ExpressionInference] class.

    Strings are sequences of code units below 256 ([ascii]); regular
    expressions are a small abstract syntax interpreted by a backtracking
    matcher with the ECMAScript priorities (leftmost start, greedy or lazy
    quantifiers, ordered alternation). *)

From Stdlib Require Import String Ascii List Bool Arith ZArith Lia DecimalString.
From stdpp Require Import base option gmap strings.
Import ListNotations.

Local Open Scope string_scope.
Local Open Scope nat_scope.

(** ** Characters and strings *)

Definition chars := list ascii.

Definition str (s : string) : chars := list_ascii_of_string s.
Definition unstr (l : chars) : string := string_of_list_ascii l.

Definition code (c : ascii) : nat := nat_of_ascii c.

Definition in_range (lo hi : nat) (c : ascii) : bool :=
  (lo <=? code c) && (code c <=? hi).

Definition is_char (a : ascii) (c : ascii) : bool := Ascii.eqb a c.

(** [\d], [\w], [\s] and [.] of ECMAScript, on code units below 256. *)
Definition is_digit (c : ascii) : bool := in_range 48 57 c.
Definition is_upper (c : ascii) : bool := in_range 65 90 c.
Definition is_lower (c : ascii) : bool := in_range 97 122 c.
Definition is_alpha_ (c : ascii) : bool :=
  is_lower c || is_upper c || is_char "_" c.
Definition is_word (c : ascii) : bool := is_alpha_ c || is_digit c.
Definition is_space (c : ascii) : bool :=
  in_range 9 13 c || (code c =? 32) || (code c =? 160).
Definition is_line_terminator (c : ascii) : bool :=
  (code c =? 10) || (code c =? 13).
Definition is_dot (c : ascii) : bool := negb (is_line_terminator c).
Definition one_of (s : string) (c : ascii) : bool :=
  existsb (Ascii.eqb c) (str s).

Definition LF : ascii := ascii_of_nat 10.
Definition CR : ascii := ascii_of_nat 13.

(** ** Regular expressions *)

Inductive regex : Type :=
| Eps                                   (* empty pattern *)
| Class (p : ascii -> bool)             (* one character satisfying [p] *)
| Seq (r1 r2 : regex)                   (* r1 r2 *)
| Alt (r1 r2 : regex)                   (* r1 | r2, left first *)
| Star (greedy : bool) (r : regex)      (* r* and r*? *)
| Group (n : nat) (r : regex)           (* n-th capturing group *)
| Bol                                   (* ^ *)
| Eol                                   (* $ *)
| WordB                                 (* \b *)
| Ahead (r : regex)                     (* (?=r) *)
| Behind (r : regex).                   (* (?<=r) *)

Definition Plus (g : bool) (r : regex) : regex := Seq r (Star g r).
Definition Opt (r : regex) : regex := Alt r Eps.

Fixpoint Lit_chars (l : chars) : regex :=
  match l with
  | [] => Eps
  | [c] => Class (is_char c)
  | c :: l' => Seq (Class (is_char c)) (Lit_chars l')
  end.
Definition Lit (s : string) : regex := Lit_chars (str s).

Fixpoint seqs (rs : list regex) : regex :=
  match rs with
  | [] => Eps
  | [r] => r
  | r :: rs' => Seq r (seqs rs')
  end.

(** A position in the subject: the characters before it (nearest first)
    and the characters after it. *)
Record input : Type := Input { before : chars; after : chars }.

Definition captures := list (nat * string).

Fixpoint capture (n : nat) (c : captures) : option string :=
  match c with
  | [] => None
  | (k, s) :: c' => if Nat.eqb k n then Some s else capture n c'
  end.

Definition at_start (s : chars) : input := Input [] s.

(** Forward matching consumes from [after], backward matching (inside a
    lookbehind) from [before]. *)
Definition step (fwd : bool) (i : input) : option (ascii * input) :=
  if fwd then
    match after i with
    | [] => None
    | a :: s => Some (a, Input (a :: before i) s)
    end
  else
    match before i with
    | [] => None
    | a :: s => Some (a, Input s (a :: after i))
    end.

Definition remaining (fwd : bool) (i : input) : nat :=
  if fwd then length (after i) else length (before i).

(** The text between two positions of the same subject. *)
Definition between (i j : input) : string :=
  let li := length (after i) in
  let lj := length (after j) in
  if lj <=? li then unstr (firstn (li - lj) (after i))
  else unstr (firstn (lj - li) (after j)).

Definition is_word_opt (o : option ascii) : bool :=
  match o with Some c => is_word c | None => false end.

Definition at_word_boundary (i : input) : bool :=
  xorb (is_word_opt (hd_error (before i))) (is_word_opt (hd_error (after i))).

Definition is_nil {A} (l : list A) : bool :=
  match l with [] => true | _ => false end.

Definition orelse {R} (x y : option R) : option R :=
  match x with Some _ => x | None => y end.

(** The iteration of a quantified pattern: [body] matches the pattern
    once, [k] is what follows the quantifier, [n] bounds the number of
    iterations left.  An iteration that consumes nothing is rejected, as
    in ECMAScript; a greedy quantifier tries one more iteration first, a
    lazy one tries the rest of the pattern first. *)
Definition star_loop {R : Type} (greedy : bool) (left_ : input -> nat)
    (body : input -> captures -> (input -> captures -> option R) -> option R)
    (k : input -> captures -> option R)
    : nat -> input -> captures -> option R :=
  fix loop (n : nat) (i : input) (c : captures) {struct n} : option R :=
    match n with
    | 0 => k i c
    | S n' =>
        let more :=
          body i c (fun i' c' =>
            if left_ i' <? left_ i then loop n' i' c' else None) in
        if greedy then orelse more (k i c) else orelse (k i c) more
    end.

(** Backtracking matcher in continuation-passing style: [k] is what must
    still match after [r].  Lookarounds run the matcher in the required
    direction and keep only the captures. *)
Fixpoint rmatch {R : Type} (fwd : bool) (r : regex) (i : input) (c : captures)
    (k : input -> captures -> option R) {struct r} : option R :=
  match r with
  | Eps => k i c
  | Class p =>
      match step fwd i with
      | Some (a, i') => if p a then k i' c else None
      | None => None
      end
  | Seq r1 r2 =>
      if fwd then rmatch fwd r1 i c (fun i' c' => rmatch fwd r2 i' c' k)
      else rmatch fwd r2 i c (fun i' c' => rmatch fwd r1 i' c' k)
  | Alt r1 r2 => orelse (rmatch fwd r1 i c k) (rmatch fwd r2 i c k)
  | Star greedy r1 =>
      star_loop greedy (remaining fwd) (rmatch fwd r1) k (remaining fwd i) i c
  | Group n r1 =>
      rmatch fwd r1 i c (fun i' c' => k i' ((n, between i i') :: c'))
  | Bol => if is_nil (before i) then k i c else None
  | Eol => if is_nil (after i) then k i c else None
  | WordB => if at_word_boundary i then k i c else None
  | Ahead r1 =>
      match rmatch true r1 i c (fun _ c' => Some c') with
      | Some c' => k i c'
      | None => None
      end
  | Behind r1 =>
      match rmatch false r1 i c (fun _ c' => Some c') with
      | Some c' => k i c'
      | None => None
      end
  end.

(** The result of a successful match: where it starts and ends, and the
    captured groups. *)
Record rmatched : Type :=
  Matched { m_start : input; m_end : input; m_groups : captures }.

Definition whole (m : rmatched) : string := between (m_start m) (m_end m).
Definition group (n : nat) (m : rmatched) : option string :=
  capture n (m_groups m).

(** One attempt at a fixed position (a sticky match). *)
Definition match_at (r : regex) (i : input) : option rmatched :=
  rmatch true r i [] (fun j c => Some (Matched i j c)).

(** [RegExp.prototype.exec] without flags: the leftmost position, from
    [i] on, at which the pattern matches. *)
Fixpoint exec_from (r : regex) (n : nat) (i : input) : option rmatched :=
  match match_at r i with
  | Some m => Some m
  | None =>
      match n with
      | 0 => None
      | S n' =>
          match step true i with
          | Some (_, i') => exec_from r n' i'
          | None => None
          end
      end
  end.

Definition exec (r : regex) (s : string) : option rmatched :=
  let i := at_start (str s) in exec_from r (length (after i)) i.

Definition matches (r : regex) (s : string) : bool :=
  match exec r s with Some _ => true | None => false end.

(** [String.prototype.match] with the [g] flag: every match, left to
    right; after an empty match the search resumes one character on. *)
Fixpoint match_all_from (r : regex) (n : nat) (i : input) : list string :=
  match n with
  | 0 => []
  | S n' =>
      match exec_from r (length (after i)) i with
      | None => []
      | Some m =>
          let j := m_end m in
          if length (after j) <? length (after i) then
            whole m :: match_all_from r n' j
          else
            whole m ::
              match step true j with
              | Some (_, j') => match_all_from r n' j'
              | None => []
              end
      end
  end.

Definition match_all (r : regex) (s : string) : option (list string) :=
  match match_all_from r (S (String.length s)) (at_start (str s)) with
  | [] => None
  | l => Some l
  end.

(** [String.prototype.replace] with a pattern without flags: the first
    match is replaced. *)
Definition replace_first (r : regex) (by_ : string) (s : string) : string :=
  match exec r s with
  | None => s
  | Some m =>
      unstr (rev (before (m_start m))) ++ by_ ++ unstr (after (m_end m))
  end.

(** [String.prototype.trim]. *)
Fixpoint trim_start (l : chars) : chars :=
  match l with
  | a :: l' => if is_space a then trim_start l' else l
  | [] => []
  end.
Definition trim (s : string) : string :=
  unstr (rev (trim_start (rev (trim_start (str s))))).

(** [String.prototype.includes]. *)
Fixpoint is_prefix (p l : chars) : bool :=
  match p, l with
  | [], _ => true
  | a :: p', b :: l' => Ascii.eqb a b && is_prefix p' l'
  | _ :: _, [] => false
  end.
Fixpoint includes_chars (l p : chars) : bool :=
  is_prefix p l ||
  match l with
  | [] => false
  | _ :: l' => includes_chars l' p
  end.
Definition includes (s p : string) : bool := includes_chars (str s) (str p).

(** [String.prototype.split] with a one-character separator. *)
Fixpoint split_chars (sep : ascii) (cur : chars) (l : chars) : list string :=
  match l with
  | [] => [unstr (rev cur)]
  | a :: l' =>
      if Ascii.eqb a sep then unstr (rev cur) :: split_chars sep [] l'
      else split_chars sep (a :: cur) l'
  end.
Definition split (sep : ascii) (s : string) : list string :=
  split_chars sep [] (str s).

(** [String.prototype.split] with a pattern: [cur] holds the characters
    of the current piece (nearest first), [q] is the position tried next.
    A match that ends where the current piece starts is skipped. *)
Fixpoint split_regex_from (r : regex) (n : nat) (cur : chars) (q : input)
    : list string :=
  match n with
  | 0 => [unstr (rev cur)]
  | S n' =>
      match after q with
      | [] => [unstr (rev cur)]
      | a :: rest =>
          let skip :=
            split_regex_from r n' (a :: cur) (Input (a :: before q) rest) in
          match match_at r q with
          | None => skip
          | Some m =>
              let e := m_end m in
              if (length (after e) =? length (after q)) && is_nil cur then skip
              else unstr (rev cur) :: split_regex_from r n' [] e
          end
      end
  end.

Definition split_regex (r : regex) (s : string) : list string :=
  match s with
  | EmptyString =>
      match match_at r (at_start []) with Some _ => [] | None => [""] end
  | _ => split_regex_from r (2 * String.length s) [] (at_start (str s))
  end.

(** ** The pattern library ([RegexPatterns])

    Each pattern is given with its source text, in which IDENT abbreviates
    the identifier pattern [a-zA-Z_][a-zA-Z0-9_]* and DQ the double quote
    character. *)

Definition DQ : ascii := ascii_of_nat 34.
Definition SQ : ascii := ascii_of_nat 39.

Definition identifier : regex :=
  Seq (Class is_alpha_) (Star true (Class is_word)).
Definition spaces : regex := Star true (Class is_space).     (* \s* *)
Definition spaces1 : regex := Plus true (Class is_space).    (* \s+ *)
Definition digits1 : regex := Plus true (Class is_digit).    (* \d+ *)
Definition var_or_val : regex := Alt (Lit "var") (Lit "val").
Definition any_star : regex := Star true (Class is_dot).     (* .* *)
Definition any_plus : regex := Plus true (Class is_dot).     (* .+ *)
Definition any_plus_lazy : regex := Plus false (Class is_dot). (* .+? *)
Definition chr (a : ascii) : regex := Class (is_char a).

Definition not_char (a : ascii) (c : ascii) : bool := negb (Ascii.eqb a c).

Module RegexPatterns.

Module DECLARATION.
(* /\b(?:var|val)\s+(IDENT)\s*=\s*(.+)/ *)
Definition NAME_AND_VALUE_ONLY : regex :=
  seqs [WordB; var_or_val; spaces1; Group 1 identifier; spaces; Lit "=";
        spaces; Group 2 any_plus].
(* /\b(?:var|val)\s+(IDENT)\s*:\s*([^=]+)$/ *)
Definition NAME_AND_TYPE_WITHOUT_VALUE : regex :=
  seqs [WordB; var_or_val; spaces1; Group 1 identifier; spaces; Lit ":";
        spaces; Group 2 (Plus true (Class (not_char "="))); Eol].
(* /\b(?:var|val)\s+(IDENT)\s*(?::\s*(.+?))?\s*=\s*(.+)$/ *)
Definition NAME_VALUE_AND_OPTIONAL_TYPE : regex :=
  seqs [WordB; var_or_val; spaces1; Group 1 identifier; spaces;
        Opt (seqs [Lit ":"; spaces; Group 2 any_plus_lazy]);
        spaces; Lit "="; spaces; Group 3 any_plus; Eol].
(* /\b(var|val)\s+(IDENT)/ *)
Definition KEYWORD_AND_NAME : regex :=
  seqs [WordB; Group 1 var_or_val; spaces1; Group 2 identifier].
(* /\b(var|val)\s+(IDENT)(?:\s*:\s*([^=]+))?/ *)
Definition KEYWORD_NAME_AND_OPTIONAL_TYPE : regex :=
  seqs [WordB; Group 1 var_or_val; spaces1; Group 2 identifier;
        Opt (seqs [spaces; Lit ":"; spaces;
                   Group 3 (Plus true (Class (not_char "=")))])].
(* /^\s*(?:var|val)\s+(IDENT)\s*(?:=|:)/ *)
Definition NAME_WITH_ASSIGN_OR_TYPE_AT_LINE_START : regex :=
  seqs [Bol; spaces; var_or_val; spaces1; Group 1 identifier; spaces;
        Alt (Lit "=") (Lit ":")].
End DECLARATION.

Module FUNCTION.
(* /fun\s+IDENT\s*\([^)]*\)\s*:\s*(.+?)\s*\{?$/ *)
Definition RETURN_TYPE : regex :=
  seqs [Lit "fun"; spaces1; identifier; spaces; Lit "(";
        Star true (Class (not_char ")")); Lit ")"; spaces; Lit ":"; spaces;
        Group 1 any_plus_lazy; spaces; Opt (Lit "{"); Eol].
(* /^(IDENT)\s*\(/ *)
Definition NAME : regex :=
  seqs [Bol; Group 1 identifier; spaces; Lit "("].
(* /(?:io\s+)?fun\s+(IDENT)/ *)
Definition NAME_WITH_OPTIONAL_IO : regex :=
  seqs [Opt (Seq (Lit "io") spaces1); Lit "fun"; spaces1; Group 1 identifier].
(* /(?:io\s+)?fun\s+(IDENT)\s*\(([^)]* )\)(?:\s*->\s*(.+))?/ *)
Definition NAME_PARAMS_AND_OPTIONAL_RETURN : regex :=
  seqs [Opt (Seq (Lit "io") spaces1); Lit "fun"; spaces1; Group 1 identifier;
        spaces; Lit "("; Group 2 (Star true (Class (not_char ")"))); Lit ")";
        Opt (seqs [spaces; Lit "->"; spaces; Group 3 any_plus])].
(* /^IDENT(\(.*\))?$/ *)
Definition ARGUMENTS_WITH_EOL : regex :=
  seqs [Bol; identifier; Opt (Group 1 (seqs [Lit "("; any_star; Lit ")"]));
        Eol].
End FUNCTION.

Module METHOD.
(* /(IDENT)\.(IDENT)\s*\(/ *)
Definition OBJECT_AND_METHOD_NAME : regex :=
  seqs [Group 1 identifier; Lit "."; Group 2 identifier; spaces; Lit "("].
End METHOD.

Module PARAMETER.
(* /(?<=[(,]\s* )IDENT(?=\s*:)/g *)
Definition ARGUMENT_NAME_IN_SIGNATURE : regex :=
  seqs [Behind (Seq (Class (one_of "(,")) spaces); identifier;
        Ahead (Seq spaces (Lit ":"))].
(* /(IDENT)\s*:\s*(.+)/ *)
Definition NAME_AND_TYPE : regex :=
  seqs [Group 1 identifier; spaces; Lit ":"; spaces; Group 2 any_plus].
End PARAMETER.

Module OTHER.
(* <.+> as an optional second group *)
Definition optionalGenerics : regex :=
  Opt (Group 2 (seqs [Lit "<"; any_plus; Lit ">"])).
(* /^\s*([A-Z][a-zA-Z0-9_]* )\s*(<.+>)?\s*\.new\s*\(/ *)
Definition CONSTRUCTOR_NAME_AND_OPTIONAL_TYPE : regex :=
  seqs [Bol; spaces;
        Group 1 (Seq (Class is_upper) (Star true (Class is_word)));
        spaces; optionalGenerics; spaces; Lit ".new"; spaces; Lit "("].
(* /^(IDENT)\s*<(.+)>$/ *)
Definition TYPE_NAME_AND_GENERIC_CONTENT : regex :=
  seqs [Bol; Group 1 identifier; spaces; Lit "<"; Group 2 any_plus; Lit ">";
        Eol].
(* /^\s*(List|MutableMap|MutableSet)\s*(<.+>)?\s*\.new\s*\(/ *)
Definition BUILTIN_COLLECTION_CONSTRUCTOR_NAME_AND_OPTIONAL_TYPE : regex :=
  seqs [Bol; spaces;
        Group 1 (Alt (Lit "List") (Alt (Lit "MutableMap") (Lit "MutableSet")));
        spaces; optionalGenerics; spaces; Lit ".new"; spaces; Lit "("].
End OTHER.

Module BUILTIN_TYPES.
(* /^DQ.*DQ$/ *)
Definition STRING : regex := seqs [Bol; chr DQ; any_star; chr DQ; Eol].
(* /^(true|false)$/ *)
Definition BOOL : regex :=
  seqs [Bol; Group 1 (Alt (Lit "true") (Lit "false")); Eol].
(* /^[+-]?\d+(\.\d+)?$/ *)
Definition INT : regex :=
  seqs [Bol; Opt (Class (one_of "+-")); digits1;
        Opt (Group 1 (Seq (Lit ".") digits1)); Eol].
(* /\bclass\s+(IDENT)/ *)
Definition CLASS_NAME : regex :=
  seqs [WordB; Lit "class"; spaces1; Group 1 identifier].
(* /\bactor\s+(IDENT)/ *)
Definition ACTOR_NAME : regex :=
  seqs [WordB; Lit "actor"; spaces1; Group 1 identifier].
End BUILTIN_TYPES.

End RegexPatterns.

(** The extraction helpers of the pattern library: a match record or
    absence.  An optional group that took no part in the match is
    [None]. *)
Definition extractClassName (line : string) : option string :=
  m ← exec RegexPatterns.BUILTIN_TYPES.CLASS_NAME line; group 1 m.

Definition extractActorName (line : string) : option string :=
  m ← exec RegexPatterns.BUILTIN_TYPES.ACTOR_NAME line; group 1 m.

Definition extractFunctionNameWithOptionalIo (line : string) : option string :=
  m ← exec RegexPatterns.FUNCTION.NAME_WITH_OPTIONAL_IO line; group 1 m.

(* keyword, name *)
Definition extractDeclarationKeywordAndName (line : string)
    : option (string * string) :=
  m ← exec RegexPatterns.DECLARATION.KEYWORD_AND_NAME line;
  kw ← group 1 m; name ← group 2 m; Some (kw, name).

(* keyword, name, typeAnnotation *)
Definition extractDeclarationKeywordNameAndType (line : string)
    : option (string * string * option string) :=
  m ← exec RegexPatterns.DECLARATION.KEYWORD_NAME_AND_OPTIONAL_TYPE line;
  kw ← group 1 m; name ← group 2 m; Some (kw, name, trim <$> group 3 m).

(* name, params, returnType *)
Definition extractFunctionSignature (line : string)
    : option (string * string * option string) :=
  m ← exec RegexPatterns.FUNCTION.NAME_PARAMS_AND_OPTIONAL_RETURN line;
  name ← group 1 m; ps ← group 2 m; Some (name, ps, trim <$> group 3 m).

(* name, type *)
Definition extractParameterNameAndType (param : string)
    : option (string * string) :=
  m ← exec RegexPatterns.PARAMETER.NAME_AND_TYPE param;
  name ← group 1 m; ty ← group 2 m; Some (name, trim ty).

Definition extractFunctionName (expr : string) : option string :=
  m ← exec RegexPatterns.FUNCTION.NAME expr; group 1 m.

(* typeName; the generic content is not used by the callers *)
Definition extractConstructor (expr : string) : option string :=
  m ← exec RegexPatterns.OTHER.CONSTRUCTOR_NAME_AND_OPTIONAL_TYPE expr;
  group 1 m.

(* collectionType *)
Definition extractBuiltinCollectionConstructor (expr : string) : option string :=
  m ← exec
        RegexPatterns.OTHER.BUILTIN_COLLECTION_CONSTRUCTOR_NAME_AND_OPTIONAL_TYPE
        expr;
  group 1 m.

Definition isStringLiteral (expr : string) : bool :=
  matches RegexPatterns.BUILTIN_TYPES.STRING expr.
Definition isBoolLiteral (expr : string) : bool :=
  matches RegexPatterns.BUILTIN_TYPES.BOOL expr.
Definition isIntLiteral (expr : string) : bool :=
  matches RegexPatterns.BUILTIN_TYPES.INT expr.
Definition isFunctionCallOrIdentifier (expr : string) : bool :=
  matches RegexPatterns.FUNCTION.ARGUMENTS_WITH_EOL expr.

(** The other extraction helpers of the pattern library. *)

(* name, value *)
Definition extractDeclarationNameAndValue (line : string)
    : option (string * string) :=
  m ← exec RegexPatterns.DECLARATION.NAME_AND_VALUE_ONLY line;
  name ← group 1 m; value ← group 2 m; Some (name, value).

(* name, typeAnnotation *)
Definition extractDeclarationNameAndType (line : string)
    : option (string * string) :=
  m ← exec RegexPatterns.DECLARATION.NAME_AND_TYPE_WITHOUT_VALUE line;
  name ← group 1 m; ty ← group 2 m; Some (name, trim ty).

(* name, typeAnnotation, value *)
Definition extractDeclarationWithOptionalType (line : string)
    : option (string * option string * string) :=
  m ← exec RegexPatterns.DECLARATION.NAME_VALUE_AND_OPTIONAL_TYPE line;
  name ← group 1 m; value ← group 3 m;
  Some (name, trim <$> group 2 m, trim value).

Definition extractDeclarationNameAtLineStart (line : string) : option string :=
  m ← exec RegexPatterns.DECLARATION.NAME_WITH_ASSIGN_OR_TYPE_AT_LINE_START line;
  group 1 m.

Definition extractFunctionReturnType (line : string) : option string :=
  m ← exec RegexPatterns.FUNCTION.RETURN_TYPE line; trim <$> group 1 m.

(* objectName, methodName *)
Definition extractMethodCall (line : string) : option (string * string) :=
  m ← exec RegexPatterns.METHOD.OBJECT_AND_METHOD_NAME line;
  objectName ← group 1 m; methodName ← group 2 m;
  Some (objectName, methodName).

(* baseName, genericContent *)
Definition extractGenericType (typeStr : string) : option (string * string) :=
  m ← exec RegexPatterns.OTHER.TYPE_NAME_AND_GENERIC_CONTENT typeStr;
  baseName ← group 1 m; genericContent ← group 2 m;
  Some (baseName, genericContent).

(** ** The syntax tree ([core/ast.ts])

    The [parent] field of the source is a back-reference to the node that
    owns this one in its [children]; it is determined by the position in
    the tree and is not stored here. *)

Module AST.

Inductive NodeKind : Type :=
| program | class | actor | function | variable | block.

Local Unset Elimination Schemes.
Inductive ASTNode : Type :=
  Node (kind : NodeKind) (name : string) (line startLine endLine : nat)
       (children : list ASTNode).
Local Set Elimination Schemes.

Definition kind (n : ASTNode) : NodeKind :=
  match n with Node k _ _ _ _ _ => k end.
Definition name (n : ASTNode) : string :=
  match n with Node _ s _ _ _ _ => s end.
Definition line (n : ASTNode) : nat :=
  match n with Node _ _ l _ _ _ => l end.
Definition startLine (n : ASTNode) : nat :=
  match n with Node _ _ _ s _ _ => s end.
Definition endLine (n : ASTNode) : nat :=
  match n with Node _ _ _ _ e _ => e end.
Definition children (n : ASTNode) : list ASTNode :=
  match n with Node _ _ _ _ _ c => c end.

Definition NodeKind_eqb (a b : NodeKind) : bool :=
  match a, b with
  | program, program | class, class | actor, actor
  | function, function | variable, variable | block, block => true
  | _, _ => false
  end.

End AST.
Import AST.

(** Decimal rendering of a line number, for the template [block_${i}]. *)
Definition decimal (n : nat) : string :=
  DecimalString.NilEmpty.string_of_uint (Nat.to_uint n).

(** ** The structural parser ([core/parser.ts], class [Parser]) *)

Section Parser.

(** [this.lines], set by the constructor. *)
Variable lines : list string.

(** The inner loop of [findBlockEnd] over the characters of one line:
    [None] when the function returns at this line, otherwise the updated
    [braceCount] and [foundStart]. *)
Fixpoint scanBraces (l : chars) (braceCount : Z) (foundStart : bool)
    : option (Z * bool) :=
  match l with
  | [] => Some (braceCount, foundStart)
  | c :: l' =>
      if is_char "{" c then scanBraces l' (braceCount + 1)%Z true
      else if is_char "}" c then
        let braceCount' := (braceCount - 1)%Z in
        if foundStart && (braceCount' =? 0)%Z then None
        else scanBraces l' braceCount' foundStart
      else scanBraces l' braceCount foundStart
  end.

(** The outer loop of [findBlockEnd], on the lines from index [i] on. *)
Fixpoint findBlockEnd_loop (ls : list string) (i : nat) (braceCount : Z)
    (foundStart : bool) : nat :=
  match ls with
  | [] => length lines - 1
  | l :: ls' =>
      match scanBraces (str l) braceCount foundStart with
      | None => i
      | Some (braceCount', foundStart') =>
          findBlockEnd_loop ls' (S i) braceCount' foundStart'
      end
  end.

Definition findBlockEnd (startLine : nat) : nat :=
  findBlockEnd_loop (drop startLine lines) startLine 0%Z false.

(** [parseArguments] differs between the two revisions of the file; it
    yields the nodes pushed onto the header node. *)
Variable parseArguments : string -> nat -> list ASTNode.

Definition isControlLine (line : string) : bool :=
  includes line "while" || includes line "if" ||
  includes line "else" || includes line "for".

(** [parseBlockContent(parent, startLine, endLine)]: the nodes pushed
    onto [parent.children], for the loop variable starting at [i].  The
    result is [None] when [fuel] runs out or when [this.lines[i]] is
    undefined (the source would throw on [line.match]). *)
Fixpoint parseBlockContent (fuel : nat) (i endLine : nat)
    : option (list ASTNode) :=
  match fuel with
  | 0 => None
  | S fuel' =>
      if endLine <? i then Some []
      else
        line ← lines !! i;
        match extractFunctionNameWithOptionalIo line with
        | Some funName =>
            let blockEnd := findBlockEnd i in
            body ← parseBlockContent fuel' (i + 1) blockEnd;
            rest ← parseBlockContent fuel' (blockEnd + 1) endLine;
            Some (Node function funName i i blockEnd
                    (body ++ parseArguments line i) :: rest)
        | None =>
            match extractDeclarationKeywordAndName line with
            | Some (_, varName) =>
                rest ← parseBlockContent fuel' (i + 1) endLine;
                Some (Node variable varName i i i [] :: rest)
            | None =>
                if isControlLine line then
                  let blockEnd := findBlockEnd i in
                  body ← parseBlockContent fuel' (i + 1) blockEnd;
                  rest ← parseBlockContent fuel' (blockEnd + 1) endLine;
                  Some (Node block ("block_" ++ decimal i) i i blockEnd body
                          :: rest)
                else parseBlockContent fuel' (i + 1) endLine
            end
        end
  end.

(** [parseTopLevel(parent, startLine, endLine)], likewise. *)
Fixpoint parseTopLevel (fuel : nat) (i endLine : nat)
    : option (list ASTNode) :=
  match fuel with
  | 0 => None
  | S fuel' =>
      if endLine <? i then Some []
      else
        line ← lines !! i;
        match extractClassName line with
        | Some className =>
            let blockEnd := findBlockEnd i in
            body ← parseBlockContent fuel' (i + 1) blockEnd;
            rest ← parseTopLevel fuel' (blockEnd + 1) endLine;
            Some (Node class className i i blockEnd
                    (body ++ parseArguments line i) :: rest)
        | None =>
            match extractActorName line with
            | Some actorName =>
                let blockEnd := findBlockEnd i in
                body ← parseBlockContent fuel' (i + 1) blockEnd;
                rest ← parseTopLevel fuel' (blockEnd + 1) endLine;
                Some (Node actor actorName i i blockEnd
                        (body ++ parseArguments line i) :: rest)
            | None => parseTopLevel fuel' (i + 1) endLine
            end
        end
  end.

(** [parse()]: every call of the two loops moves to a larger line index,
    so [length lines + 2] units of fuel are enough (lemma
    [parseTopLevel_total]). *)
Definition parse_lines : option ASTNode :=
  tops ← parseTopLevel (length lines + 2) 0 (length lines - 1);
  Some (Node program "root" 0 0 (length lines - 1) tops).

End Parser.

Definition argNode (lineNumber : nat) (argName : string) : ASTNode :=
  Node variable (trim argName) lineNumber lineNumber lineNumber [].

(** First revision of [Parser]: the patterns are used directly, and
    [parseArguments] splits the first match at commas. *)
Module Rev1.

Definition parseArguments (line : string) (lineNumber : nat) : list ASTNode :=
  match match_all RegexPatterns.PARAMETER.ARGUMENT_NAME_IN_SIGNATURE line with
  | Some argumentsMatch =>
      match argumentsMatch with
      | first :: _ => map (argNode lineNumber) (split "," first)
      | [] => []
      end
  | None => []
  end.

Definition parse (text : string) : option ASTNode :=
  parse_lines (split LF text) parseArguments.

End Rev1.

(** Second revision of [Parser]: the extraction helpers are used, and
    [parseArguments] visits every match. *)
Module Rev2.

Definition parseArguments (line : string) (lineNumber : nat) : list ASTNode :=
  match match_all RegexPatterns.PARAMETER.ARGUMENT_NAME_IN_SIGNATURE line with
  | Some argumentsMatch => map (argNode lineNumber) argumentsMatch
  | None => []
  end.

Definition parse (text : string) : option ASTNode :=
  parse_lines (split LF text) parseArguments.

End Rev2.

(** ** Lightweight inference ([inlay.ts]: [TypeInfo], [typeToString],
       class [InferenceEngine]) *)

Module Inlay.

Inductive TypeKind : Type :=
| KInt | KString | KBool | KList | KMap | KSet | KFunction | KCustom
| KRandomAny.

(** The string a kind is at run time. *)
Definition kindName (k : TypeKind) : string :=
  match k with
  | KInt => "Int" | KString => "String" | KBool => "Bool" | KList => "List"
  | KMap => "Map" | KSet => "Set" | KFunction => "Function"
  | KCustom => "Custom" | KRandomAny => "RandomAny"
  end.

Definition TypeKind_eqb (a b : TypeKind) : bool :=
  match a, b with
  | KInt, KInt | KString, KString | KBool, KBool | KList, KList
  | KMap, KMap | KSet, KSet | KFunction, KFunction | KCustom, KCustom
  | KRandomAny, KRandomAny => true
  | _, _ => false
  end.

(** [generics] and [readonlyName] are optional fields. *)
Local Unset Elimination Schemes.
Inductive TypeInfo : Type :=
  make (kind : TypeKind) (generics : option (list TypeInfo))
       (readonlyName : option string).
Local Set Elimination Schemes.

Definition kind (t : TypeInfo) : TypeKind :=
  match t with make k _ _ => k end.
Definition generics (t : TypeInfo) : option (list TypeInfo) :=
  match t with make _ g _ => g end.
Definition readonlyName (t : TypeInfo) : option string :=
  match t with make _ _ n => n end.

(** [make(kind)] with the optional arguments left out. *)
Definition make0 (k : TypeKind) : TypeInfo := make k None None.

(** [l.join(sep)]. *)
Fixpoint join (sep : string) (l : list string) : string :=
  match l with
  | [] => ""
  | [x] => x
  | x :: l' => x ++ sep ++ join sep l'
  end.

Fixpoint typeToString_ (t : TypeInfo) : string :=
  match t with
  | make k g n =>
      let shown := default (kindName k) n in
      match g with
      | None | Some [] => shown
      | Some gs => shown ++ "<" ++ join ", " (map typeToString_ gs) ++ ">"
      end
  end.

Definition typeToString (t : option TypeInfo) : string :=
  match t with
  | None => "RandomAny"
  | Some t => typeToString_ t
  end.

(** [this.types]. *)
Abbreviation TypeMap := (gmap string TypeInfo).

(** [collectDeclarationsFromAST]: the explicit stack of the source visits
    a node, then its children from the last to the first, each with its
    own subtree. *)
Definition declare (n : ASTNode) (types : TypeMap) : TypeMap :=
  if NodeKind_eqb (AST.kind n) variable then
    match types !! name n with
    | Some _ => types
    | None => <[name n := make0 KRandomAny]> types
    end
  else types.

Fixpoint collectDeclarationsFromAST (ast : ASTNode) (types : TypeMap) : TypeMap :=
  match ast with
  | Node _ _ _ _ _ cs =>
      (fix visit (l : list ASTNode) (acc : TypeMap) : TypeMap :=
         match l with
         | [] => acc
         | c :: l' => collectDeclarationsFromAST c (visit l' acc)
         end) cs (declare ast types)
  end.

(* /\b(?:var|val)\s+(IDENT)\s*=\s*(.+)$/ *)
Definition initRegex : regex :=
  seqs [WordB; var_or_val; spaces1; Group 1 identifier; spaces; Lit "=";
        spaces; Group 2 any_plus; Eol].

(* /;$/ *)
Definition trailingSemicolon : regex := Seq (Lit ";") Eol.

(* /^DQ.*DQ$/ and /^SQ.*SQ$/ *)
Definition stringDQ : regex := seqs [Bol; chr DQ; any_star; chr DQ; Eol].
Definition stringSQ : regex := seqs [Bol; chr SQ; any_star; chr SQ; Eol].
(* /^(true|false)$/ *)
Definition boolLiteral : regex :=
  seqs [Bol; Group 1 (Alt (Lit "true") (Lit "false")); Eol].
(* /^\d+(\.\d+)?$/ *)
Definition numericLiteral : regex :=
  seqs [Bol; digits1; Opt (Group 1 (Seq (Lit ".") digits1)); Eol].
(* /^\s*NAME(\s*<.*>)?\.new\s*\(/ *)
Definition constructionWithGenerics (typeName : string) : regex :=
  seqs [Bol; spaces; Lit typeName;
        Opt (Group 1 (seqs [spaces; Lit "<"; any_star; Lit ">"]));
        Lit ".new"; spaces; Lit "("].
(* /^\s*NAME\.new\s*\(/ *)
Definition construction (typeName : string) : regex :=
  seqs [Bol; spaces; Lit typeName; Lit ".new"; spaces; Lit "("].
(* /^IDENT\(.*\)$/ *)
Definition callSyntax : regex :=
  seqs [Bol; identifier; Lit "("; any_star; Lit ")"; Eol].

Definition isConstruction (typeName expr : string) : bool :=
  matches (constructionWithGenerics typeName) expr ||
  matches (construction typeName) expr.

Definition inferExpressionType (expr : string) : TypeInfo :=
  (* String literal *)
  if matches stringDQ expr || matches stringSQ expr then make0 KString
  (* Boolean literal *)
  else if matches boolLiteral expr then make0 KBool
  (* Numeric literal (integer or float) -> Int for simplicity *)
  else if matches numericLiteral expr then make0 KInt
  (* List/Map/Set construction *)
  else if isConstruction "List" expr then
    make KList (Some [make0 KRandomAny]) None
  else if isConstruction "MutableMap" expr then
    make KMap (Some [make0 KRandomAny; make0 KRandomAny]) None
  else if isConstruction "MutableSet" expr then
    make KSet (Some [make0 KRandomAny]) None
  (* Function call or identifier -> unknown/custom *)
  else if matches callSyntax expr then make0 KRandomAny
  (* Fallback: RandomAny *)
  else make0 KRandomAny.

(** One iteration of the loop of [scanInitializers]. *)
Definition scanInitializer (types : TypeMap) (raw : string) : TypeMap :=
  let line := trim raw in
  match exec initRegex line with
  | None => types
  | Some m =>
      match group 1 m, group 2 m with
      | Some name, Some m2 =>
          let rhs := trim m2 in
          let rhs := replace_first trailingSemicolon "" rhs in
          let inferred := inferExpressionType rhs in
          <[name := inferred]> types
      | _, _ => types
      end
  end.

Definition scanInitializers (lines : list string) (types : TypeMap) : TypeMap :=
  fold_left scanInitializer lines types.

Fixpoint mergeTypes (a b : TypeInfo) {struct a} : TypeInfo :=
  match a with
  | make ka ga na =>
      if TypeKind_eqb ka (kind b) then
        (* Merge generics recursively if present *)
        match ga, generics b with
        | Some gs, Some hs =>
            if length gs =? length hs then
              make ka
                (Some ((fix gens (gs hs : list TypeInfo) : list TypeInfo :=
                          match gs, hs with
                          | g :: gs', h :: hs' => mergeTypes g h :: gens gs' hs'
                          | _, _ => []
                          end) gs hs)) None
            else a
        | _, _ => a
        end
      (* If one is RandomAny return the other *)
      else if TypeKind_eqb ka KRandomAny then b
      else if TypeKind_eqb (kind b) KRandomAny then a
      (* Otherwise fallback to Custom with combined name *)
      else make KCustom None (Some (kindName ka ++ "|" ++ kindName (kind b)))
  end.

(** [existing.generics && existing.generics[i] ? existing.generics[i]
    : make("RandomAny")]. *)
Definition genericAt (existing : TypeInfo) (i : nat) : TypeInfo :=
  match generics existing with
  | Some gs => default (make0 KRandomAny) (gs !! i)
  | None => make0 KRandomAny
  end.

Definition mergeListElementType (listName : string) (elemType : TypeInfo)
    (types : TypeMap) : TypeMap :=
  match types !! listName with
  | None => <[listName := make KList (Some [elemType]) None]> types
  | Some existing =>
      if TypeKind_eqb (kind existing) KRandomAny then
        <[listName := make KList (Some [elemType]) None]> types
      else if TypeKind_eqb (kind existing) KList then
        let cur := genericAt existing 0 in
        let merged := mergeTypes cur elemType in
        <[listName := make KList (Some [merged]) None]> types
      else types (* If existing is not a List, leave it unchanged *)
  end.

Definition mergeMapTypes (mapName : string) (keyType valType : TypeInfo)
    (types : TypeMap) : TypeMap :=
  match types !! mapName with
  | None => <[mapName := make KMap (Some [keyType; valType]) None]> types
  | Some existing =>
      if TypeKind_eqb (kind existing) KRandomAny then
        <[mapName := make KMap (Some [keyType; valType]) None]> types
      else if TypeKind_eqb (kind existing) KMap then
        let curKey := genericAt existing 0 in
        let curVal := genericAt existing 1 in
        let mergedKey := mergeTypes curKey keyType in
        let mergedVal := mergeTypes curVal valType in
        <[mapName := make KMap (Some [mergedKey; mergedVal]) None]> types
      else types
  end.

(* /(IDENT)\.add\s*\(\s*(.+?)\s*\)/ *)
Definition addRegex : regex :=
  seqs [Group 1 identifier; Lit ".add"; spaces; Lit "("; spaces;
        Group 2 any_plus_lazy; spaces; Lit ")"].

(* /(IDENT)\.put\s*\(\s*(.+?)\s*,\s*(.+?)\s*\)/ *)
Definition putRegex : regex :=
  seqs [Group 1 identifier; Lit ".put"; spaces; Lit "("; spaces;
        Group 2 any_plus_lazy; spaces; Lit ","; spaces;
        Group 3 any_plus_lazy; spaces; Lit ")"].

Definition scanAdd (line : string) (types : TypeMap) : TypeMap :=
  match exec addRegex line with
  | None => types
  | Some m =>
      match group 1 m, group 2 m with
      | Some name, Some arg =>
          let elemType := inferExpressionType arg in
          mergeListElementType name elemType types
      | _, _ => types
      end
  end.

Definition scanPut (line : string) (types : TypeMap) : TypeMap :=
  match exec putRegex line with
  | None => types
  | Some m =>
      match group 1 m, group 2 m, group 3 m with
      | Some name, Some keyExpr, Some valExpr =>
          let keyType := inferExpressionType keyExpr in
          let valType := inferExpressionType valExpr in
          mergeMapTypes name keyType valType types
      | _, _, _ => types
      end
  end.

(** One iteration of the loop of [scanCollectionUsages]. *)
Definition scanCollectionUsage (types : TypeMap) (raw : string) : TypeMap :=
  let line := trim raw in
  scanPut line (scanAdd line types).

Definition scanCollectionUsages (lines : list string) (types : TypeMap) : TypeMap :=
  fold_left scanCollectionUsage lines types.

(* /(IDENT|\d+)\s*([+\-*/])\s*(IDENT|\d+)/ *)
Definition binRegex : regex :=
  seqs [Group 1 (Alt identifier digits1); spaces;
        Group 2 (Class (one_of "+-*/")); spaces;
        Group 3 (Alt identifier digits1)].

(* /^\d+$/ *)
Definition onlyDigits : regex := seqs [Bol; digits1; Eol].

(* /\b(?:var|val)\s+(IDENT)\s*=\s*.+/ *)
Definition assignRegex : regex :=
  seqs [WordB; var_or_val; spaces1; Group 1 identifier; spaces; Lit "=";
        spaces; any_plus].

Definition operandType (types : TypeMap) (operand : string) : TypeInfo :=
  if matches onlyDigits operand then make0 KInt
  else default (make0 KRandomAny) (types !! operand).

(** One iteration of the loop of [scanBinaryOps]. *)
Definition scanBinaryOp (types : TypeMap) (raw : string) : TypeMap :=
  let line := trim raw in
  match exec binRegex line with
  | None => types
  | Some m =>
      match group 1 m, group 3 m with
      | Some lhs, Some rhs =>
          let leftType := operandType types lhs in
          let rightType := operandType types rhs in
          if TypeKind_eqb (kind leftType) KInt &&
             TypeKind_eqb (kind rightType) KInt then
            (* find variable being assigned to, e.g. var x = a + b *)
            match exec assignRegex line with
            | Some am =>
                match group 1 am with
                | Some name => <[name := make0 KInt]> types
                | None => types
                end
            | None => types
            end
          else types
      | _, _ => types
      end
  end.

Definition scanBinaryOps (lines : list string) (types : TypeMap) : TypeMap :=
  fold_left scanBinaryOp lines types.

(* /\r?\n/ *)
Definition lineBreak : regex := Seq (Opt (chr CR)) (chr LF).

Definition inferFromText (text : string) (ast : option ASTNode) : TypeMap :=
  let types : TypeMap := ∅ in
  let lines := split_regex lineBreak text in
  let types :=
    match ast with
    | Some ast => collectDeclarationsFromAST ast types
    | None => types
    end in
  let types := scanInitializers lines types in
  let types := scanCollectionUsages lines types in
  let types := scanBinaryOps lines types in
  types.

End Inlay.

(** ** The inlay hints provider ([inlay.ts], class [SynotraInlayProvider]) *)

(** [String.prototype.indexOf]: the index of the first occurrence, or -1. *)
Fixpoint indexOf_from (l p : chars) (k : nat) : Z :=
  if is_prefix p l then Z.of_nat k
  else
    match l with
    | [] => (-1)%Z
    | _ :: l' => indexOf_from l' p (S k)
    end.
Definition indexOf (s p : string) : Z := indexOf_from (str s) (str p) 0.

Module SynotraInlayProvider.

Inductive InlayHintKind : Type := Type_ | Parameter_.

(** A [vscode.InlayHint] at [new vscode.Position(line, character)]. *)
Record InlayHint : Type := mkInlayHint {
  hintLine : nat;
  hintCharacter : Z;
  label : string;
  hintKind : InlayHintKind;
  paddingLeft : bool }.

(* /^\s*(?:var|val)\s+(IDENT)\s*(?:=|:|\b)/ *)
Definition initRegex : regex :=
  seqs [Bol; spaces; var_or_val; spaces1; Group 1 identifier; spaces;
        Alt (Lit "=") (Alt (Lit ":") WordB)].

(** One iteration of the loop over the lines: the hint pushed, if any. *)
Definition hintAt (types : Inlay.TypeMap) (i : nat) (line : string)
    : option InlayHint :=
  m ← exec initRegex line;
  name ← group 1 m;
  inferred ← types !! name;
  let col := (indexOf line name + Z.of_nat (String.length name))%Z in
  let label := (": " ++ Inlay.typeToString (Some inferred))%string in
  Some (mkInlayHint i col label Type_ true).

Fixpoint hintsFrom (types : Inlay.TypeMap) (i : nat) (lines : list string)
    : list InlayHint :=
  match lines with
  | [] => []
  | line :: rest =>
      match hintAt types i line with
      | Some hint => hint :: hintsFrom types (S i) rest
      | None => hintsFrom types (S i) rest
      end
  end.

Definition provideInlayHints (text : string) : list InlayHint :=
  let lines := split_regex Inlay.lineBreak text in
  let types := Inlay.inferFromText text None in
  hintsFrom types 0 lines.

End SynotraInlayProvider.

(** ** The type catalog ([types.ts] with [builtinDefinition.ts]) and the
       expression rules of the refactored engine ([ExpressionInference]) *)

Module Types.

Inductive TypeKind : Type :=
| KInt | KString | KBool | KList | KMutableMap | KMutableSet | KFunction
| KCustom | KUnknown | KUnit.

(** The string a kind is at run time; the builtin catalog is keyed by it. *)
Definition kindName (k : TypeKind) : string :=
  match k with
  | KInt => "Int" | KString => "String" | KBool => "Bool" | KList => "List"
  | KMutableMap => "MutableMap" | KMutableSet => "MutableSet"
  | KFunction => "Function" | KCustom => "Custom" | KUnknown => "Unknown"
  | KUnit => "Unit"
  end.

Local Unset Elimination Schemes.
Inductive TypeInfo : Type :=
  mkTypeInfo (kind : TypeKind) (generics : option (list TypeInfo))
             (readonlyName : option string) (hasTypeAnnotation : option bool).
Local Set Elimination Schemes.

Definition kind (x : TypeInfo) : TypeKind :=
  match x with mkTypeInfo k _ _ _ => k end.
Definition generics (x : TypeInfo) : option (list TypeInfo) :=
  match x with mkTypeInfo _ g _ _ => g end.
Definition readonlyName (x : TypeInfo) : option string :=
  match x with mkTypeInfo _ _ n _ => n end.
Definition hasTypeAnnotation (x : TypeInfo) : option bool :=
  match x with mkTypeInfo _ _ _ a => a end.

Record ParamInfo : Type := mkParam { p_name : string; p_type : TypeInfo }.

Record MethodInfo : Type := mkMethod {
  m_name : string;
  returnType : TypeInfo;
  params : list ParamInfo;
  documentation : option string }.

Record FieldInfo : Type := mkField {
  f_name : string; f_type : TypeInfo; mutable : bool }.

Record TypeDefinition : Type := mkTypeDefinition {
  d_kind : TypeKind;
  d_name : string;
  genericParams : option (list string);
  methods : list MethodInfo;
  fields : list FieldInfo }.

(** Helper to create TypeInfo: [t(kind, generics?, readonlyName?)]. *)
Definition t (k : TypeKind) (generics : option (list TypeInfo))
    (readonlyName : option string) : TypeInfo :=
  mkTypeInfo k generics readonlyName None.
Definition t0 (k : TypeKind) : TypeInfo := t k None None.

(** Generic type placeholder. *)
Definition generic (name : string) : TypeInfo :=
  mkTypeInfo KUnknown None (Some name) None.

Definition unit_ : TypeInfo := t KUnknown None (Some "Unit").

Definition method (name : string) (ret : TypeInfo) (ps : list ParamInfo)
    (doc : string) : MethodInfo :=
  mkMethod name ret ps (Some doc).

(** [initBuiltinTypes], in the order of the [set] calls. *)
Definition IntDefinition : TypeDefinition :=
  mkTypeDefinition KInt "Int" None
    [ method "toString" (t0 KString) [] "Convert to string";
      method "abs" (t0 KInt) [] "Absolute value" ]
    [].

Definition StringDefinition : TypeDefinition :=
  mkTypeDefinition KString "String" None
    [ method "length" (t0 KInt) [] "Get string length";
      method "substring" (t0 KString)
        [mkParam "start" (t0 KInt); mkParam "end" (t0 KInt)]
        "Get substring from start to end";
      method "toUpperCase" (t0 KString) [] "Convert to uppercase";
      method "toLowerCase" (t0 KString) [] "Convert to lowercase";
      method "contains" (t0 KBool) [mkParam "str" (t0 KString)]
        "Check if string contains substring";
      method "startsWith" (t0 KBool) [mkParam "prefix" (t0 KString)]
        "Check if string starts with prefix";
      method "endsWith" (t0 KBool) [mkParam "suffix" (t0 KString)]
        "Check if string ends with suffix";
      method "trim" (t0 KString) [] "Remove leading and trailing whitespace";
      method "split" (t KList (Some [t0 KString]) None)
        [mkParam "delimiter" (t0 KString)] "Split string by delimiter";
      method "replace" (t0 KString)
        [mkParam "old" (t0 KString); mkParam "new" (t0 KString)]
        "Replace occurrences of old with new";
      method "charAt" (t0 KString) [mkParam "index" (t0 KInt)]
        "Get character at index";
      method "indexOf" (t0 KInt) [mkParam "str" (t0 KString)]
        "Find index of substring" ]
    [].

Definition BoolDefinition : TypeDefinition :=
  mkTypeDefinition KBool "Bool" None
    [ method "toString" (t0 KString) [] "Convert to string" ]
    [].

Definition ListDefinition : TypeDefinition :=
  mkTypeDefinition KList "List" (Some ["T"])
    [ method "add" unit_ [mkParam "element" (generic "T")]
        "Add element to list";
      method "get" (generic "T") [mkParam "index" (t0 KInt)]
        "Get element at index";
      method "set" unit_
        [mkParam "index" (t0 KInt); mkParam "element" (generic "T")]
        "Set element at index";
      method "remove" (t0 KBool) [mkParam "index" (t0 KInt)]
        "Remove element at index";
      method "size" (t0 KInt) [] "Get list size";
      method "isEmpty" (t0 KBool) [] "Check if list is empty";
      method "contains" (t0 KBool) [mkParam "element" (generic "T")]
        "Check if list contains element";
      method "indexOf" (t0 KInt) [mkParam "element" (generic "T")]
        "Find index of element";
      method "clear" unit_ [] "Remove all elements";
      method "first" (generic "T") [] "Get first element";
      method "last" (generic "T") [] "Get last element" ]
    [].

Definition MutableMapDefinition : TypeDefinition :=
  mkTypeDefinition KMutableMap "MutableMap" (Some ["K"; "V"])
    [ method "put" unit_
        [mkParam "key" (generic "K"); mkParam "value" (generic "V")]
        "Put key-value pair";
      method "get" (generic "V") [mkParam "key" (generic "K")]
        "Get value by key";
      method "remove" (t0 KBool) [mkParam "key" (generic "K")]
        "Remove entry by key";
      method "containsKey" (t0 KBool) [mkParam "key" (generic "K")]
        "Check if map contains key";
      method "containsValue" (t0 KBool) [mkParam "value" (generic "V")]
        "Check if map contains value";
      method "keys" (t KList (Some [generic "K"]) None) [] "Get all keys";
      method "values" (t KList (Some [generic "V"]) None) [] "Get all values";
      method "size" (t0 KInt) [] "Get map size";
      method "isEmpty" (t0 KBool) [] "Check if map is empty";
      method "clear" unit_ [] "Remove all entries" ]
    [].

Definition MutableSetDefinition : TypeDefinition :=
  mkTypeDefinition KMutableSet "MutableSet" (Some ["T"])
    [ method "add" (t0 KBool) [mkParam "element" (generic "T")]
        "Add element to set";
      method "remove" (t0 KBool) [mkParam "element" (generic "T")]
        "Remove element from set";
      method "contains" (t0 KBool) [mkParam "element" (generic "T")]
        "Check if set contains element";
      method "size" (t0 KInt) [] "Get set size";
      method "isEmpty" (t0 KBool) [] "Check if set is empty";
      method "clear" unit_ [] "Remove all elements" ]
    [].

Definition initBuiltinTypes : gmap string TypeDefinition :=
  <["MutableSet" := MutableSetDefinition]>
  (<["MutableMap" := MutableMapDefinition]>
  (<["List" := ListDefinition]>
  (<["Bool" := BoolDefinition]>
  (<["String" := StringDefinition]>
  (<["Int" := IntDefinition]> ∅))))).

(** Truthiness of an optional string: absent and empty are falsy. *)
Definition truthy (o : option string) : option string :=
  match o with
  | Some EmptyString => None
  | _ => o
  end.

(** The state of a [TypeRegistry] instance (its [typeParser] has no
    state). *)
Record TypeRegistry : Type := mkRegistry {
  builtinTypes : gmap string TypeDefinition;
  userTypes : gmap string TypeDefinition }.

(** The constructor. *)
Definition newTypeRegistry : TypeRegistry :=
  mkRegistry initBuiltinTypes ∅.

(** Methods of the class run on the instance state: a computation takes
    the state and returns its result with the state it leaves. *)
Definition Method (A : Type) : Type := TypeRegistry -> A * TypeRegistry.

Definition ret {A} (a : A) : Method A := fun s => (a, s).
Definition bind {A B} (m : Method A) (f : A -> Method B) : Method B :=
  fun s => let (a, s') := m s in f a s'.
Definition readBuiltin (key : string) : Method (option TypeDefinition) :=
  fun s => (builtinTypes s !! key, s).
Definition readUser (key : string) : Method (option TypeDefinition) :=
  fun s => (userTypes s !! key, s).
Definition hasUser (key : string) : Method bool :=
  fun s => (bool_decide (is_Some (userTypes s !! key)), s).
Definition clearUser : Method unit :=
  fun s => (tt, mkRegistry (builtinTypes s) ∅).
Definition setUser (key : string) (d : TypeDefinition) : Method unit :=
  fun s => (tt, mkRegistry (builtinTypes s) (<[key := d]> (userTypes s))).

(** *** Collecting the user-defined types

    The registry holds a [TypeParser]; that class is not part of the
    sources at hand, and the two operations used here are parameters. *)

Section CollectUserTypes.

Variable parseTypeString : string -> TypeInfo.
Variable parseCommaSeparated : string -> list string.

(** Process a parameter match into ParamInfo. *)
Definition processParameter (m : string * string) : ParamInfo :=
  mkParam (fst m) (parseTypeString (snd m)).

(** Parse parameter list string. *)
Definition parseParams (paramsStr : string) : list ParamInfo :=
  match trim paramsStr with
  | EmptyString => []
  | _ =>
      omap (fun part => processParameter <$> extractParameterNameAndType part)
           (parseCommaSeparated paramsStr)
  end.

(** Process a function signature match into MethodInfo. *)
Definition processFunctionSignature
    (m : string * string * option string) (nodeName : string) : MethodInfo :=
  let '(_, paramsStr, ret) := m in
  mkMethod nodeName
    (match truthy ret with
     | Some r => parseTypeString r
     | None => unit_
     end)
    (parseParams paramsStr) None.

(** Process a field declaration match into FieldInfo. *)
Definition processFieldDeclaration
    (m : string * string * option string) (nodeName : string) : FieldInfo :=
  let '(keyword, _, typeAnnotation) := m in
  mkField nodeName
    (match truthy typeAnnotation with
     | Some a => parseTypeString a
     | None => t0 KUnknown
     end)
    (String.eqb keyword "var").

(** Parse method signature from source line. *)
Definition parseMethodFromLine (node : ASTNode) (lines : list string)
    : option MethodInfo :=
  match lines !! AST.line node with
  | None => None
  | Some l =>
      match extractFunctionSignature (trim l) with
      | None => Some (mkMethod (AST.name node) unit_ [] None)
      | Some m => Some (processFunctionSignature m (AST.name node))
      end
  end.

(** Parse field from source line. *)
Definition parseFieldFromLine (node : ASTNode) (lines : list string)
    : option FieldInfo :=
  match lines !! AST.line node with
  | None => None
  | Some l =>
      match extractDeclarationKeywordNameAndType (trim l) with
      | None => Some (mkField (AST.name node) (t0 KUnknown) true)
      | Some m => Some (processFieldDeclaration m (AST.name node))
      end
  end.

(** Extract type definition from a class/actor AST node. *)
Definition extractTypeDefinition (node : ASTNode) (lines : list string)
    : TypeDefinition :=
  mkTypeDefinition KCustom (AST.name node) None
    (omap (fun child =>
             match AST.kind child with
             | function => parseMethodFromLine child lines
             | _ => None
             end) (AST.children node))
    (omap (fun child =>
             match AST.kind child with
             | variable => parseFieldFromLine child lines
             | _ => None
             end) (AST.children node)).

Fixpoint collectTypesRecursive (node : ASTNode) (lines : list string)
    {struct node} : Method unit :=
  match node with
  | Node k nm _ _ _ cs =>
      bind (match k with
            | class | actor => setUser nm (extractTypeDefinition node lines)
            | _ => ret tt
            end)
           (fun _ =>
              (fix each (l : list ASTNode) : Method unit :=
                 match l with
                 | [] => ret tt
                 | child :: l' =>
                     bind (collectTypesRecursive child lines) (fun _ => each l')
                 end) cs)
  end.

(** Collect user-defined types (classes, actors) from AST. *)
Definition collectUserTypes (ast : ASTNode) (lines : list string) : Method unit :=
  bind clearUser (fun _ => collectTypesRecursive ast lines).

End CollectUserTypes.

(** Resolve a single generic type using the mapping. *)
Fixpoint resolveGenericType (type : TypeInfo) (genericMap : gmap string TypeInfo)
    {struct type} : TypeInfo :=
  match type with
  | mkTypeInfo k g n a =>
      (* Check if this is a generic placeholder (e.g., T, K, V) *)
      match n' ← truthy n; genericMap !! n' with
      | Some mappedType => mappedType
      | None =>
          (* Recursively resolve generics *)
          match g with
          | Some gs =>
              mkTypeInfo k
                (Some ((fix each (l : list TypeInfo) : list TypeInfo :=
                          match l with
                          | [] => []
                          | x :: l' => resolveGenericType x genericMap :: each l'
                          end) gs)) n a
          | None => type
          end
      end
  end.

(** The loop that creates the mapping T -> Int, K -> String, ...: one
    entry per index below both lengths, later entries overwriting. *)
Fixpoint buildGenericMap (names : list string) (args : list TypeInfo)
    (genericMap : gmap string TypeInfo) : gmap string TypeInfo :=
  match names, args with
  | n :: names', a :: args' => buildGenericMap names' args' (<[n := a]> genericMap)
  | _, _ => genericMap
  end.

Definition resolveParam (genericMap : gmap string TypeInfo) (p : ParamInfo)
    : ParamInfo :=
  mkParam (p_name p) (resolveGenericType (p_type p) genericMap).

Definition resolveMethod (genericMap : gmap string TypeInfo) (m : MethodInfo)
    : MethodInfo :=
  mkMethod (m_name m) (resolveGenericType (returnType m) genericMap)
           (map (resolveParam genericMap) (params m)) (documentation m).

(** Resolve generic type parameters in methods, e.g. [List<Int>.get()]
    returns [Int] instead of [T]. *)
Definition resolveGenericMethods (typeDef : TypeDefinition) (typeInfo : TypeInfo)
    : list MethodInfo :=
  match genericParams typeDef, generics typeInfo with
  | Some names, Some args =>
      let genericMap := buildGenericMap names args ∅ in
      (* Resolve each method's types *)
      map (resolveMethod genericMap) (methods typeDef)
  | _, _ => methods typeDef
  end.

(** [typeInfo.readonlyName ?? typeInfo.kind]. *)
Definition typeName (typeInfo : TypeInfo) : string :=
  default (kindName (kind typeInfo)) (readonlyName typeInfo).

(** Get methods for a given type. *)
Definition getMethodsForType (typeInfo : TypeInfo) : Method (list MethodInfo) :=
  (* Check built-in types first *)
  bind (readBuiltin (kindName (kind typeInfo))) (fun builtinDef =>
  match builtinDef with
  | Some builtinDef =>
      (* Resolve generic types if present *)
      ret (resolveGenericMethods builtinDef typeInfo)
  | None =>
      (* Check user-defined types *)
      bind (readUser (typeName typeInfo)) (fun userDef =>
      match userDef with
      | Some userDef => ret (methods userDef)
      | None => ret []
      end)
  end).

(** Get fields for a given type. *)
Definition getFieldsForType (typeInfo : TypeInfo) : Method (list FieldInfo) :=
  bind (readUser (typeName typeInfo)) (fun userDef =>
  match userDef with
  | Some userDef => ret (fields userDef)
  | None => ret []
  end).

Definition isUserDefinedType (name : string) : Method bool := hasUser name.

Definition getTypeDefinition (name : string) : Method (option TypeDefinition) :=
  bind (readBuiltin name) (fun b =>
  match b with
  | Some d => ret (Some d)
  | None => readUser name
  end).

(** *** [ExpressionInference]

    The [TypeParser] class it holds a reference to is not part of the
    sources at hand; its four operations are parameters here. *)

Section ExpressionInference.

Variable typeNameToKind : string -> TypeKind.
Variable extractGenericContent : string -> option string.
Variable parseCommaSeparated : string -> list string.
Variable parseTypeString : string -> TypeInfo.

Variable functionReturnTypes : gmap string TypeInfo.
Variable types : gmap string TypeInfo.

(** [make(kind, generics?, readonlyName?, hasTypeAnnotation?)]. *)
Definition make (k : TypeKind) (generics : option (list TypeInfo))
    (readonlyName : option string) : TypeInfo :=
  mkTypeInfo k generics readonlyName None.

(** Process a builtin collection constructor match,
    e.g. [List<Int>.new()] gives kind List with generics [Int]. *)
Definition processBuiltinCollectionConstructor (collectionType expr : string)
    : TypeInfo :=
  let kind := typeNameToKind collectionType in
  (* Extract generic content if present *)
  match truthy (extractGenericContent expr) with
  | Some genericContent =>
      let genericParams := parseCommaSeparated genericContent in
      let generics := map parseTypeString genericParams in
      make kind (Some generics) None
  | None =>
      (* No generic parameters specified *)
      match kind with
      | KList | KMutableSet => make kind (Some [make KUnknown None None]) None
      | KMutableMap =>
          make kind (Some [make KUnknown None None; make KUnknown None None])
               None
      | _ => make KUnknown None None
      end
  end.

(** Process a custom type constructor match. *)
Definition processCustomTypeConstructor (typeName expr : string) : TypeInfo :=
  match truthy (extractGenericContent expr) with
  | Some genericContent =>
      let genericParams := parseCommaSeparated genericContent in
      let generics := map parseTypeString genericParams in
      make KCustom (Some generics) (Some typeName)
  | None => make KCustom None (Some typeName)
  end.

(** Process a function call match: the function's return type if known. *)
Definition processFunctionCall (name : string) : option TypeInfo :=
  functionReturnTypes !! name.

Definition inferExpressionType (expr : string) : TypeInfo :=
  if isStringLiteral expr then make KString None None
  else if isBoolLiteral expr then make KBool None None
  else if isIntLiteral expr then make KInt None None
  else
    match extractBuiltinCollectionConstructor expr with
    | Some collectionType =>
        processBuiltinCollectionConstructor collectionType expr
    | None =>
        match extractConstructor expr with
        | Some typeName => processCustomTypeConstructor typeName expr
        | None =>
            match name ← extractFunctionName expr; processFunctionCall name with
            | Some returnType => returnType
            | None =>
                if isFunctionCallOrIdentifier expr then
                  match types !! expr with
                  | Some existingType => existingType
                  | None => make KUnit None None
                  end
                else make KUnknown None None
            end
        end
    end.

(** Infer the type of an operand (literal or variable). *)
Definition inferOperandType (operand : string) : TypeInfo :=
  (* Check if it's a numeric literal *)
  if isIntLiteral operand then make KInt None None
  (* Check if it's a string literal *)
  else if isStringLiteral operand then make KString None None
  (* Check if it's a boolean literal *)
  else if isBoolLiteral operand then make KBool None None
  (* Otherwise, look it up in the types map *)
  else default (make KUnknown None None) (types !! operand).

End ExpressionInference.

End Types.

(** ** The shared inference service (class [DocumentInferenceService])

    The state of an instance is its cache and its type registry (the
    engine keeps nothing between two calls of [inferFromText]); the two
    subscriptions of the constructor are the two event handlers below.
    [parse] stands for [new Parser(text).parse()], and the two operations
    of the absent [TypeParser] are parameters as in [Types]. *)

Module DocumentInferenceService.

(** What the service reads of a [vscode.TextDocument]. *)
Record TextDocument : Type := mkTextDocument {
  uri : string; version : nat; getText : string }.

Record CacheEntry : Type := mkCacheEntry {
  entryVersion : nat;
  entryAst : ASTNode;
  entryTypes : Inlay.TypeMap;
  entryLines : list string }.

Record InferenceResult : Type := mkInferenceResult {
  ast : ASTNode; types : Inlay.TypeMap; lines : list string }.

Record Service : Type := mkService {
  cache : gmap string CacheEntry;
  typeRegistry : Types.TypeRegistry }.

Definition newService : Service := mkService ∅ Types.newTypeRegistry.

Section Service.

Variable parse : string -> option ASTNode.
Variable parseTypeString : string -> Types.TypeInfo.
Variable parseCommaSeparated : string -> list string.

(** Cache miss: parse and infer, collect the user-defined types, and
    store the result. *)
Definition parseAndInfer (document : TextDocument) (s : Service)
    : option (InferenceResult * Service) :=
  let text := getText document in
  let lines := split_regex Inlay.lineBreak text in
  ast ← parse text;
  let types := Inlay.inferFromText text (Some ast) in
  let registry :=
    snd (Types.collectUserTypes parseTypeString parseCommaSeparated ast lines
           (typeRegistry s)) in
  Some (mkInferenceResult ast types lines,
        mkService
          (<[uri document := mkCacheEntry (version document) ast types lines]>
             (cache s))
          registry).

(** Get the AST and inferred type information for a document; results
    are cached by document URI and version. *)
Definition getInferenceResult (document : TextDocument) (s : Service)
    : option (InferenceResult * Service) :=
  match cache s !! uri document with
  | Some cached =>
      if entryVersion cached =? version document then
        Some (mkInferenceResult (entryAst cached) (entryTypes cached)
                (entryLines cached), s)
      else parseAndInfer document s
  | None => parseAndInfer document s
  end.

End Service.

(** Invalidate cache when document changes. *)
Definition onDidChangeTextDocument (document : TextDocument) (s : Service)
    : Service :=
  mkService (delete (uri document) (cache s)) (typeRegistry s).

(** Remove cache entry when document is closed. *)
Definition onDidCloseTextDocument (document : TextDocument) (s : Service)
    : Service :=
  mkService (delete (uri document) (cache s)) (typeRegistry s).

Definition dispose (s : Service) : Service := mkService ∅ (typeRegistry s).

End DocumentInferenceService.

(** ** Notions used to state the properties *)

Local Open Scope list_scope.

Definition nl : string := String LF "".

(** All the nodes of a tree, the root first. *)
Fixpoint nodes (n : ASTNode) : list ASTNode :=
  match n with
  | Node _ _ _ _ _ cs =>
      n :: (fix each (l : list ASTNode) : list ASTNode :=
              match l with
              | [] => []
              | c :: l' => (nodes c ++ each l')%list
              end) cs
  end.

(** The three parts of the span invariant, as checks on one node. *)
Definition line_within_span (n : ASTNode) : bool :=
  (startLine n <=? line n) && (line n <=? endLine n).

Definition children_contained (n : ASTNode) : bool :=
  forallb (fun c => (startLine n <=? startLine c) && (endLine c <=? endLine n))
          (children n).

Definition spans_overlap (a b : ASTNode) : bool :=
  (startLine a <=? endLine b) && (startLine b <=? endLine a).

Fixpoint siblings_ordered (l : list ASTNode) : bool :=
  match l with
  | [] => true
  | a :: l' =>
      forallb (fun b => (startLine a <=? startLine b) && negb (spans_overlap a b)) l'
      && siblings_ordered l'
  end.

(** The span invariant for a whole tree. *)
Definition span_invariant (root : ASTNode) : bool :=
  forallb (fun n => line_within_span n && children_contained n &&
                    siblings_ordered (children n)) (nodes root).

(** Consecutive nodes found by one scan of the lines [lo..hi]: each one
    starts in that range, after the end of the one before. *)
Fixpoint separated (lo hi : nat) (l : list ASTNode) : Prop :=
  match l with
  | [] => True
  | c :: l' => lo <= startLine c <= hi /\ separated (S (endLine c)) hi l'
  end.

(** A parameter node of the header at line [i]. *)
Definition is_param (i : nat) (a : ASTNode) : Prop :=
  exists nm, a = Node variable nm i i i [].

(** What the parser guarantees about one node of its result. *)
Definition node_ok (lines : list string)
    (parseArguments : string -> nat -> list ASTNode) (n : ASTNode) : Prop :=
  startLine n = line n /\ line n <= endLine n /\ endLine n < length lines /\
  match kind n with
  | variable => children n = [] /\ endLine n = line n
  | program =>
      line n = 0 /\ endLine n = length lines - 1 /\
      separated 0 (endLine n) (children n)
  | block =>
      endLine n = findBlockEnd lines (line n) /\
      separated (S (line n)) (endLine n) (children n)
  | _ =>
      endLine n = findBlockEnd lines (line n) /\
      exists l body,
        lines !! line n = Some l /\
        children n = (body ++ parseArguments l (line n))%list /\
        separated (S (line n)) (endLine n) body
  end.

(** The amended span invariant on one node: the children are the nodes of
    the body, each starting after the end of the one before, followed by
    the parameter nodes on the header line. *)
Definition amended_span_invariant (last : nat) (n : ASTNode) : Prop :=
  startLine n = line n /\ line n <= endLine n /\ endLine n <= last /\
  Forall (fun c => startLine n <= startLine c <= endLine n) (children n) /\
  exists body params,
    children n = (body ++ params)%list /\
    (forall i j a b, i < j -> body !! i = Some a -> body !! j = Some b ->
       endLine a < startLine b) /\
    Forall (is_param (line n)) params.

(** The characters of the lines from index [i] on, as [findBlockEnd]
    reads them. *)
Definition braceStream (lines : list string) (i : nat) : chars :=
  concat (map str (drop i lines)).

Fixpoint count_char (a : ascii) (l : chars) : nat :=
  match l with
  | [] => 0
  | c :: l' => (if is_char a c then 1 else 0) + count_char a l'
  end.

(** The header at line [i] is unterminated: no closing brace after the
    first opening brace brings the number of open braces back to zero. *)
Definition unterminated (lines : list string) (i : nat) : Prop :=
  forall p rest,
    braceStream lines i = (p ++ "}"%char :: rest)%list ->
    count_char "{" p = 0 \/ count_char "{" p <> S (count_char "}" p).


(** A statement about both revisions of [Parser.parse]. *)
Definition both_revisions (P : (string -> option ASTNode) -> Prop) : Prop :=
  P Rev1.parse /\ P Rev2.parse.

(** The same text with CR LF line endings. *)
Fixpoint crlf (s : string) : string :=
  match s with
  | EmptyString => EmptyString
  | String a s' =>
      if Ascii.eqb a LF then String CR (String LF (crlf s'))
      else String a (crlf s')
  end.

(** What a scan of the lines [i..e] by one of the two loops yields. *)
Definition scanned_ok (lines : list string)
    (parseArguments : string -> nat -> list ASTNode)
    (i e : nat) (res : list ASTNode) : Prop :=
  separated i e res /\
  forall c, In c res -> forall m, In m (nodes c) -> node_ok lines parseArguments m.

(** [braceCount] and [foundStart] once the characters [p] have been read. *)
Definition braceState (p : chars) : Z * bool :=
  ((Z.of_nat (count_char "{" p) - Z.of_nat (count_char "}" p))%Z,
   negb (count_char "{" p =? 0)).

Definition never_closed (p l : chars) : Prop :=
  forall q rest,
    l = (q ++ "}"%char :: rest)%list ->
    count_char "{" (p ++ q) = 0 \/
    count_char "{" (p ++ q) <> S (count_char "}" (p ++ q)).


Definition has_parameters (k : NodeKind) : bool :=
  match k with class | actor | function => true | _ => false end.

(** The last line index of a document. *)
Definition lastLine (text : string) : nat := length (split LF text) - 1.

(** A class with two parameters, a body-less function declaration inside
    it, and a second class. *)
Definition doc_nested : string :=
  ("class A(x: Int, y: Int) {" ++ nl ++ " fun f(a: Int)" ++ nl ++ "}" ++ nl ++
   "class B {" ++ nl ++ " var z = 1" ++ nl ++ "}" ++ nl)%string.


(** A header with two parameters. *)
Definition doc_params : string :=
  ("class P(a: Int, b: Int) {" ++ nl ++ "}")%string.

(** The matches of the parameter pattern in a header line. *)
Definition parameterNames (l : string) : list string :=
  default [] (match_all RegexPatterns.PARAMETER.ARGUMENT_NAME_IN_SIGNATURE l).

Definition doc_list : string :=
  ("val lst = List<Int>.new()" ++ nl ++ "lst.add(3)" ++ nl)%string.

Definition listOf (x : Inlay.TypeInfo) : Inlay.TypeInfo :=
  Inlay.make Inlay.KList (Some [x]) None.

(** What [scanInitializers] reads on a line: the declared name and the
    initializer, trimmed and without a final semicolon. *)
Definition readInitializer (raw : string) : option (string * string) :=
  m ← exec Inlay.initRegex (trim raw);
  name ← group 1 m;
  m2 ← group 2 m;
  Some (name, replace_first Inlay.trailingSemicolon "" (trim m2)).

Definition starts_with_sign (s : string) : bool :=
  match s with
  | String a _ => one_of "+-" a
  | EmptyString => false
  end.

(** A type mentions the name [nm] when it, or one of its generic
    arguments at any depth, has [nm] as display name. *)
Fixpoint mentions (nm : string) (ty : Types.TypeInfo) : bool :=
  match ty with
  | Types.mkTypeInfo _ g n _ =>
      match n with Some x => String.eqb x nm | None => false end ||
      match g with Some gs => existsb (mentions nm) gs | None => false end
  end.

Definition method_mentions (nm : string) (m : Types.MethodInfo) : bool :=
  mentions nm (Types.returnType m) ||
  existsb (fun p => mentions nm (Types.p_type p)) (Types.params m).

Definition ListOf (g : Types.TypeInfo) : Types.TypeInfo :=
  Types.t Types.KList (Some [g]) None.

Definition MapOf (k v : Types.TypeInfo) : Types.TypeInfo :=
  Types.t Types.KMutableMap (Some [k; v]) None.

Definition methodNamed (nm : string) (ms : list Types.MethodInfo)
    : option Types.MethodInfo :=
  find (fun m => String.eqb (Types.m_name m) nm) ms.

(** A registry as the constructor leaves it, with any user catalog. *)
Definition registryWith (user : gmap string Types.TypeDefinition)
    : Types.TypeRegistry :=
  Types.mkRegistry Types.initBuiltinTypes user.

Definition cr : string := String CR "".

(** The position [i] in the subject extended by a final CR. *)
Definition app_cr (i : input) : input := Input (before i) (after i ++ [CR]).

Definition lift_cr (m : rmatched) : rmatched :=
  Matched (app_cr (m_start m)) (app_cr (m_end m)) (m_groups m).

(** Three ways in which a pattern is insensitive to a final CR. *)
Inductive crmode : Type :=
| Weak (fwd : bool)   (* never consumes it *)
| Strong              (* may consume it, if what follows then fails *)
| Tail.               (* never consumes it and needs a character *)

Fixpoint cr_ok (m : crmode) (r : regex) {struct r} : bool :=
  match r with
  | Eps => match m with Tail => false | _ => true end
  | Class p => match m with Weak true | Tail => negb (p CR) | _ => true end
  | Seq r1 r2 =>
      match m with
      | Tail => (cr_ok Strong r1 && cr_ok Tail r2) ||
                (cr_ok Tail r1 && cr_ok (Weak true) r2)
      | _ => cr_ok m r1 && cr_ok m r2
      end
  | Alt r1 r2 => cr_ok m r1 && cr_ok m r2
  | Star _ r1 => match m with Tail => false | _ => cr_ok m r1 end
  | Group _ r1 => cr_ok m r1
  | Bol | WordB => match m with Tail => false | _ => true end
  | Eol => false
  | Ahead r1 => match m with Tail => false | _ => cr_ok Tail r1 end
  | Behind r1 => match m with Tail => false | _ => cr_ok (Weak false) r1 end
  end.

Definition agree_on_cr {R R'} (f : R -> R')
    (k : input -> captures -> option R) (k' : input -> captures -> option R')
    : Prop :=
  forall j d, k' (app_cr j) d = f <$> k j d.

Definition fails_at_end {R} (k : input -> captures -> option R) : Prop :=
  forall b d, k (Input b []) d = None.

Definition cr_spec (m : crmode) (r : regex) : Prop :=
  match m with
  | Weak fwd =>
      forall R R' (f : R -> R') k k' i c,
        agree_on_cr f k k' ->
        rmatch fwd r (app_cr i) c k' = f <$> rmatch fwd r i c k
  | Strong =>
      forall R R' (f : R -> R') k k' i c,
        agree_on_cr f k k' -> fails_at_end k' ->
        rmatch true r (app_cr i) c k' = f <$> rmatch true r i c k
  | Tail =>
      (forall R R' (f : R -> R') k k' i c,
         agree_on_cr f k k' ->
         rmatch true r (app_cr i) c k' = f <$> rmatch true r i c k) /\
      (forall R (k : input -> captures -> option R) b c,
         rmatch true r (Input b []) c k = None)
  end.

(** The line [l'] is the line [l], possibly with a CR at its end. *)
Definition same_line (l' l : string) : Prop := l' = l \/ l' = (l ++ cr)%string.

Definition no_cr (p : chars) : bool := forallb (fun a => negb (Ascii.eqb a CR)) p.

(** The paths of the matcher: [Reach fwd r i c j c'] when the pattern [r],
    started at the position [i] with the captures [c], can hand over to
    what follows it at the position [j] with the captures [c']. *)
Inductive Reach : bool -> regex -> input -> captures -> input -> captures -> Prop :=
| Reach_Eps fwd i c : Reach fwd Eps i c i c
| Reach_Class fwd p i c a i' :
    step fwd i = Some (a, i') -> p a = true -> Reach fwd (Class p) i c i' c
| Reach_Seq_fwd r1 r2 i c m c1 j c2 :
    Reach true r1 i c m c1 -> Reach true r2 m c1 j c2 ->
    Reach true (Seq r1 r2) i c j c2
| Reach_Seq_bwd r1 r2 i c m c1 j c2 :
    Reach false r2 i c m c1 -> Reach false r1 m c1 j c2 ->
    Reach false (Seq r1 r2) i c j c2
| Reach_Alt_l fwd r1 r2 i c j c' :
    Reach fwd r1 i c j c' -> Reach fwd (Alt r1 r2) i c j c'
| Reach_Alt_r fwd r1 r2 i c j c' :
    Reach fwd r2 i c j c' -> Reach fwd (Alt r1 r2) i c j c'
| Reach_Star_stop fwd g r i c : Reach fwd (Star g r) i c i c
| Reach_Star_more fwd g r i c m c1 j c2 :
    Reach fwd r i c m c1 -> remaining fwd m < remaining fwd i ->
    Reach fwd (Star g r) m c1 j c2 -> Reach fwd (Star g r) i c j c2
| Reach_Group fwd n r i c j c1 :
    Reach fwd r i c j c1 ->
    Reach fwd (Group n r) i c j ((n, between i j) :: c1)
| Reach_Bol fwd i c : is_nil (before i) = true -> Reach fwd Bol i c i c
| Reach_Eol fwd i c : is_nil (after i) = true -> Reach fwd Eol i c i c
| Reach_WordB fwd i c : at_word_boundary i = true -> Reach fwd WordB i c i c
| Reach_Ahead fwd r i c j c' :
    Reach true r i c j c' -> Reach fwd (Ahead r) i c i c'
| Reach_Behind fwd r i c j c' :
    Reach false r i c j c' -> Reach fwd (Behind r) i c i c'.

(** Iteration of a set of words. *)
Inductive starL (L : chars -> Prop) : chars -> Prop :=
| starL_nil : starL L []
| starL_app w1 w2 : L w1 -> starL L w2 -> starL L (w1 ++ w2).

(** The words a pattern can consume, whatever surrounds them. *)
Fixpoint lang (r : regex) (w : chars) : Prop :=
  match r with
  | Eps | Bol | Eol | WordB | Ahead _ | Behind _ => w = []
  | Class p => exists a, w = [a] /\ p a = true
  | Seq r1 r2 => exists w1 w2, w = w1 ++ w2 /\ lang r1 w1 /\ lang r2 w2
  | Alt r1 r2 => lang r1 w \/ lang r2 w
  | Star _ r1 => starL (lang r1) w
  | Group _ r1 => lang r1 w
  end.

(** [w] is the text from the position [i] to the position [j]. *)
Definition span (i j : input) (w : chars) : Prop :=
  after i = w ++ after j /\ before j = rev w ++ before i.

(** The text consumed on a path, in reading order. *)
Definition consumed (fwd : bool) (i j : input) (w : chars) : Prop :=
  if fwd then span i j w else span j i w.

(** The subject a position belongs to. *)
Definition subject (i : input) : chars := rev (before i) ++ after i.

(** [s] occurs in [l]. *)
Definition substring (s : string) (l : chars) : Prop :=
  exists pre post, l = pre ++ str s ++ post.

(** Every group numbered [n] in [r] encloses a pattern whose words are in
    [L]. *)
Fixpoint groups_in (n : nat) (L : chars -> Prop) (r : regex) : Prop :=
  match r with
  | Group m r1 => (m = n -> forall w, lang r1 w -> L w) /\ groups_in n L r1
  | Seq r1 r2 | Alt r1 r2 => groups_in n L r1 /\ groups_in n L r2
  | Star _ r1 | Ahead r1 | Behind r1 => groups_in n L r1
  | _ => True
  end.

(** An identifier: a letter or an underscore, then letters, digits and
    underscores. *)
Definition is_identifier_chars (w : chars) : bool :=
  match w with
  | a :: l => is_alpha_ a && forallb is_word l
  | [] => false
  end.
Definition is_identifier (s : string) : bool := is_identifier_chars (str s).

Definition some_list {A} (o : option A) : list A :=
  match o with Some a => [a] | None => [] end.

(** Every name one of the extraction helpers reads on [line]. *)
Definition extractedNames (line : string) : list string :=
  some_list (extractClassName line) ++
  some_list (extractActorName line) ++
  some_list (extractFunctionNameWithOptionalIo line) ++
  some_list (snd <$> extractDeclarationKeywordAndName line) ++
  some_list ((fun x => snd (fst x)) <$> extractDeclarationKeywordNameAndType line) ++
  some_list ((fun x => fst (fst x)) <$> extractFunctionSignature line) ++
  some_list (fst <$> extractParameterNameAndType line) ++
  some_list (extractFunctionName line) ++
  some_list (extractConstructor line) ++
  some_list (extractBuiltinCollectionConstructor line) ++
  some_list (fst <$> extractDeclarationNameAndValue line) ++
  some_list (fst <$> extractDeclarationNameAndType line) ++
  some_list ((fun x => fst (fst x)) <$> extractDeclarationWithOptionalType line) ++
  some_list (extractDeclarationNameAtLineStart line) ++
  some_list (fst <$> extractMethodCall line) ++
  some_list (snd <$> extractMethodCall line) ++
  some_list (fst <$> extractGenericType line).

(** The position reached in a subject once [pre] is read and [post] is
    left. *)
Definition pos (pre post : chars) : input := Input (rev pre) post.

(** The pattern ends with [$]. *)
Fixpoint ends_with_eol (r : regex) : bool :=
  match r with
  | Eol => true
  | Seq _ r2 => ends_with_eol r2
  | _ => false
  end.

(** The 256 code units. *)
Definition all_ascii : list ascii := map ascii_of_nat (seq 0 256).

(** Every word of [r] has a character that is not [good]. *)
Fixpoint outside (good : ascii -> bool) (r : regex) : bool :=
  match r with
  | Class p => forallb (fun a => implb (p a) (negb (good a))) all_ascii
  | Seq r1 r2 => outside good r1 || outside good r2
  | Alt r1 r2 => outside good r1 && outside good r2
  | Group _ r1 => outside good r1
  | _ => false
  end.

Definition all_digits (s : string) : bool :=
  negb (is_nil (str s)) && forallb is_digit (str s).

(** A run of characters none of which ends a line (what [.*] accepts). *)
Definition one_line (s : string) : bool := forallb is_dot (str s).

(** The expression is a literal for the pattern library. *)
Definition isLiteral (expr : string) : bool :=
  isIntLiteral expr || isStringLiteral expr || isBoolLiteral expr.

(** The kinds the top-level loop and the block loop produce. *)
Definition top_kind (k : NodeKind) : bool :=
  match k with class | actor => true | _ => false end.
Definition inner_kind (k : NodeKind) : bool :=
  match k with function | variable | block => true | _ => false end.

(** Classes and actors stand directly below the root and nowhere else;
    a variable has no children. *)
Definition levels_ok (n : ASTNode) : bool :=
  match kind n with
  | program => forallb (fun c => top_kind (kind c)) (children n)
  | variable => is_nil (children n)
  | _ => forallb (fun c => inner_kind (kind c)) (children n)
  end.

(** The line a node records declares the node: it matches the pattern of
    the node's kind, which captures the node's name; [params l] are the
    parameter names read on the header [l]. *)
Definition declared_on (lines : list string) (params : string -> list string)
    (n : ASTNode) : Prop :=
  match kind n with
  | program => name n = "root"%string
  | class =>
      exists l, lines !! line n = Some l /\ extractClassName l = Some (name n)
  | actor =>
      exists l, lines !! line n = Some l /\ extractActorName l = Some (name n)
  | function =>
      exists l, lines !! line n = Some l /\
                extractFunctionNameWithOptionalIo l = Some (name n)
  | variable =>
      exists l, lines !! line n = Some l /\
                ((exists kw, extractDeclarationKeywordAndName l = Some (kw, name n))
                 \/ In (name n) (params l))
  | block =>
      exists l, lines !! line n = Some l /\ isControlLine l = true /\
                name n = ("block_" ++ decimal (line n))%string
  end.

(** No header of the document has more than one parameter. *)
Definition at_most_one_parameter (text : string) : bool :=
  forallb (fun l => length (parameterNames l) <=? 1) (split LF text).

(** The braces read so far are balanced by one more closing brace. *)
Definition closing (p : chars) : Prop :=
  count_char "{" p = S (count_char "}" p).

(** Line [e] has the first closing brace that balances the braces read
    from line [i] on: [q] is what precedes this brace on line [e]. *)
Definition closes_at (lines : list string) (i e : nat) : Prop :=
  exists l q rest,
    i <= e /\ lines !! e = Some l /\ str l = q ++ "}"%char :: rest /\
    closing (concat (map str (take (e - i) (drop i lines))) ++ q) /\
    never_closed [] (concat (map str (take (e - i) (drop i lines))) ++ q).

(** A function at the top level of a document. *)
Definition doc_top_level_function : string :=
  ("fun main() {" ++ nl ++ "  var x = 1" ++ nl ++ "}")%string.

(** The class and actor nodes named [nm], in the order of the tree (a
    node before its children, the children from the first to the last). *)
Definition declarations (nm : string) (ast : ASTNode) : list ASTNode :=
  List.filter (fun n => top_kind (kind n) && String.eqb (name n) nm) (nodes ast).

(** The registry once [collectUserTypes] has run on a new instance. *)
Definition registryOf (parseTypeString : string -> Types.TypeInfo)
    (parseCommaSeparated : string -> list string)
    (ast : ASTNode) (lines : list string) (r : Types.TypeRegistry)
    : Types.TypeRegistry :=
  snd (Types.collectUserTypes parseTypeString parseCommaSeparated ast lines r).

(** A value of the user-defined type [nm]. *)
Definition customType (nm : string) : Types.TypeInfo :=
  Types.t Types.KCustom None (Some nm).

(** The children of kind [k] whose line is a line of [lines]. *)
Definition readableChildren (k : NodeKind) (lines : list string)
    (node : ASTNode) : list ASTNode :=
  List.filter (fun c => NodeKind_eqb (kind c) k && (line c <? length lines))
              (children node).

(** The initializer that a line has for the name [nm], if any. *)
Definition initializerOf (nm : string) (raw : string) : option string :=
  '(name, value) ← readInitializer raw;
  if String.eqb name nm then Some value else None.

(** A kind that the collection scans never touch. *)
Definition settled (k : Inlay.TypeKind) : bool :=
  match k with
  | Inlay.KRandomAny | Inlay.KList | Inlay.KMap => false
  | _ => true
  end.

(** The lines of a text, a line break being a line feed together with
    the carriage return before it, if there is one; [cur] holds the
    characters of the current line, the nearest first. *)
Fixpoint split_lines (cur : chars) (l : chars) {struct l} : list string :=
  match l with
  | [] => [unstr (rev cur)]
  | a :: rest =>
      if is_char LF a then unstr (rev cur) :: split_lines [] rest
      else if is_char CR a then
        match rest with
        | b :: rest' =>
            if is_char LF b then unstr (rev cur) :: split_lines [] rest'
            else split_lines (a :: cur) rest
        | [] => split_lines (a :: cur) rest
        end
      else split_lines (a :: cur) rest
  end.

(** [name] occurs in [line] at the index [k], and nowhere before. *)
Definition first_occurrence (name line : string) (k : nat) : Prop :=
  (exists pre post,
     str line = pre ++ str name ++ post /\ length pre = k) /\
  (forall pre post, str line = pre ++ str name ++ post -> k <= length pre).

(** The name a line declares for the inlay hints provider. *)
Definition hintedName (line : string) : option string :=
  m ← exec SynotraInlayProvider.initRegex line; group 1 m.

(** Two documents for the service, and a later state of the first with
    the version it had. *)
Definition doc_a : DocumentInferenceService.TextDocument :=
  DocumentInferenceService.mkTextDocument "file:///a.syn" 1 "class A {
}".

Definition doc_b : DocumentInferenceService.TextDocument :=
  DocumentInferenceService.mkTextDocument "file:///b.syn" 1 "actor B {
}".

Definition doc_a_again : DocumentInferenceService.TextDocument :=
  DocumentInferenceService.mkTextDocument "file:///a.syn" 1 "class Other {
}".

(** The service on the second revision of the parser; the operations of
    the absent [TypeParser] answer nothing. *)
Definition getInferenceResult_Rev2 :=
  DocumentInferenceService.getInferenceResult Rev2.parse
    (fun _ => Types.make Types.KUnknown None None) (fun _ => []).

(** The name on which a line calls [add], on which it calls [put], and
    the name it assigns while it holds a binary operation: the entries
    that [scanCollectionUsages] and [scanBinaryOps] may write for the
    line. *)
Definition addTarget (raw : string) : option string :=
  m ← exec Inlay.addRegex (trim raw); group 1 m.

Definition putTarget (raw : string) : option string :=
  m ← exec Inlay.putRegex (trim raw); group 1 m.

Definition arithmeticTarget (raw : string) : option string :=
  _ ← exec Inlay.binRegex (trim raw);
  am ← exec Inlay.assignRegex (trim raw);
  group 1 am.

(** No later scan writes the entry of [nm] for the line. *)
Definition leaves_alone (nm : string) (raw : string) : Prop :=
  addTarget raw <> Some nm /\ putTarget raw <> Some nm /\
  arithmeticTarget raw <> Some nm.

(** A line with a sum before the declaration, and a document that
    declares the name twice. *)
Definition doc_sum_then_signed : string := "1+2; var x = -5".

Definition doc_signed_then_redeclared : string := "var x = -5
var x = 7".

(** ** The matcher: general facts *)

Lemma orelse_fmap {A B} (f : A -> B) (x y : option A) :
  orelse (f <$> x) (f <$> y) = f <$> orelse x y.
Proof. destruct x; reflexivity. Qed.

Section StarLoop.
Context {R R' : Type} (f : R -> R') (greedy : bool) (left_ : input -> nat).
Context (body : input -> captures -> (input -> captures -> option R) -> option R).
Context (body' : input -> captures -> (input -> captures -> option R') -> option R').
Context (k : input -> captures -> option R) (k' : input -> captures -> option R').

(** Two loops whose bodies and continuations agree up to [f] agree. *)
Lemma star_loop_fmap :
  (forall i c h h', (forall j d, h' j d = f <$> h j d) ->
     body' i c h' = f <$> body i c h) ->
  (forall i c, k' i c = f <$> k i c) ->
  forall n i c,
    star_loop greedy left_ body' k' n i c
    = f <$> star_loop greedy left_ body k n i c.
Proof.
  intros Hb Hk. induction n as [|n IH]; intros i c; simpl.
  - apply Hk.
  - rewrite (Hb i c (fun i' c' =>
               if left_ i' <? left_ i
               then star_loop greedy left_ body k n i' c' else None)
               (fun i' c' =>
               if left_ i' <? left_ i
               then star_loop greedy left_ body' k' n i' c' else None)).
    + rewrite Hk. destruct greedy; apply orelse_fmap.
    + intros j d. destruct (left_ j <? left_ i); [apply IH | reflexivity].
Qed.
End StarLoop.

(** The matcher commutes with a map on the results of the continuation;
    with the identity it is extensional in the continuation. *)
Lemma rmatch_fmap {R R'} (f : R -> R') (r : regex) :
  forall fwd i c (k : input -> captures -> option R)
         (k' : input -> captures -> option R'),
    (forall j d, k' j d = f <$> k j d) ->
    rmatch fwd r i c k' = f <$> rmatch fwd r i c k.
Proof.
  induction r; intros fwd i c k k' Hk; simpl.
  - apply Hk.
  - destruct (step fwd i) as [[a i']|]; [|reflexivity].
    destruct (p a); [apply Hk | reflexivity].
  - destruct fwd.
    + apply IHr1. intros j d. apply IHr2, Hk.
    + apply IHr2. intros j d. apply IHr1, Hk.
  - rewrite (IHr1 fwd i c k k' Hk), (IHr2 fwd i c k k' Hk). apply orelse_fmap.
  - apply star_loop_fmap; [|exact Hk].
    intros j d h h' Hh. apply IHr, Hh.
  - apply IHr. intros j d. apply Hk.
  - destruct (is_nil (before i)); [apply Hk | reflexivity].
  - destruct (is_nil (after i)); [apply Hk | reflexivity].
  - destruct (at_word_boundary i); [apply Hk | reflexivity].
  - destruct (rmatch true r i c _); [apply Hk | reflexivity].
  - destruct (rmatch false r i c _); [apply Hk | reflexivity].
Qed.

Lemma rmatch_ext {R} (r : regex) fwd i c (k k' : input -> captures -> option R) :
  (forall j d, k' j d = k j d) -> rmatch fwd r i c k' = rmatch fwd r i c k.
Proof.
  intros Hk. rewrite (rmatch_fmap id r fwd i c k k').
  - destruct (rmatch fwd r i c k); reflexivity.
  - intros j d. rewrite Hk. destruct (k j d); reflexivity.
Qed.

(** A continuation that always fails makes the match fail. *)
Lemma rmatch_fail {R} (r : regex) :
  forall fwd i c (k : input -> captures -> option R),
    (forall j d, k j d = None) -> rmatch fwd r i c k = None.
Proof.
  induction r; intros fwd i c k Hk; simpl.
  - apply Hk.
  - destruct (step fwd i) as [[a i']|]; [|reflexivity].
    destruct (p a); [apply Hk | reflexivity].
  - destruct fwd.
    + apply IHr1. intros j d. apply IHr2, Hk.
    + apply IHr2. intros j d. apply IHr1, Hk.
  - rewrite IHr1, IHr2 by exact Hk. reflexivity.
  - generalize (remaining fwd i). intros n. revert i c.
    induction n as [|n IHn]; intros i c; simpl; [apply Hk|].
    rewrite Hk, IHr.
    + destruct greedy; reflexivity.
    + intros j d. destruct (_ <? _); [apply IHn | reflexivity].
  - apply IHr. intros j d. apply Hk.
  - destruct (is_nil (before i)); [apply Hk | reflexivity].
  - destruct (is_nil (after i)); [apply Hk | reflexivity].
  - destruct (at_word_boundary i); [apply Hk | reflexivity].
  - destruct (rmatch true r i c _); [apply Hk | reflexivity].
  - destruct (rmatch false r i c _); [apply Hk | reflexivity].
Qed.

(** ** The structural parser: what every node of the result satisfies *)

Lemma nodes_eq k nm l s e cs :
  nodes (Node k nm l s e cs) = Node k nm l s e cs :: flat_map nodes cs.
Proof.
  reflexivity.
Qed.

Lemma separated_weaken lo lo' hi l :
  lo' <= lo -> separated lo hi l -> separated lo' hi l.
Proof. destruct l; simpl; [tauto|]. intros ? [? ?]. split; [lia | assumption]. Qed.

Section ParserFacts.

Variable lines : list string.
Variable parseArguments : string -> nat -> list ASTNode.
Hypothesis parseArguments_params :
  forall l i, Forall (is_param i) (parseArguments l i).

Local Abbreviation ok := (node_ok lines parseArguments).
Local Abbreviation pbc := (parseBlockContent lines parseArguments).
Local Abbreviation ptl := (parseTopLevel lines parseArguments).

Lemma findBlockEnd_loop_range ls i c f :
  findBlockEnd_loop lines ls i c f = length lines - 1 \/
  i <= findBlockEnd_loop lines ls i c f < i + length ls.
Proof.
  revert i c f. induction ls as [|l ls IH]; intros i c f; simpl; [now left|].
  destruct (scanBraces (str l) c f) as [[c' f']|]; [|right; lia].
  destruct (IH (S i) c' f') as [H|H]; [now left | right; lia].
Qed.

Lemma findBlockEnd_bounds i :
  i < length lines -> i <= findBlockEnd lines i < length lines.
Proof.
  intros Hi. unfold findBlockEnd.
  destruct (findBlockEnd_loop_range (drop i lines) i 0%Z false) as [H|H].
  - rewrite H. lia.
  - rewrite length_drop in H. lia.
Qed.

Lemma param_ok i a : i < length lines -> is_param i a -> ok a.
Proof.
  intros Hi [nm ->]. unfold node_ok; simpl. repeat split; lia.
Qed.

Lemma param_nodes i a : is_param i a -> nodes a = [a].
Proof. intros [nm ->]. reflexivity. Qed.

(** The nodes below a header or block node, given those of its body. *)
Lemma header_nodes_ok k nm i l body :
  lines !! i = Some l ->
  match k with class | actor | function => True | _ => False end ->
  separated (S i) (findBlockEnd lines i) body ->
  (forall c, In c body -> forall m, In m (nodes c) -> ok m) ->
  forall m,
    In m (nodes (Node k nm i i (findBlockEnd lines i)
                   (body ++ parseArguments l i))) -> ok m.
Proof.
  intros Hl Hk Hsep Hbody m. rewrite nodes_eq. simpl.
  assert (Hi : i < length lines) by (eapply lookup_lt_Some; eauto).
  pose proof (findBlockEnd_bounds i Hi) as Hb.
  intros [<-|Hm].
  - unfold node_ok; simpl. repeat split; try lia.
    destruct k; try contradiction; (split; [reflexivity|]);
      exists l, body; auto.
  - apply in_flat_map in Hm as [c [Hc Hm]]. apply in_app_or in Hc as [Hc|Hc].
    + eapply Hbody; eauto.
    + pose proof (parseArguments_params l i) as Hp.
      rewrite List.Forall_forall in Hp. specialize (Hp c Hc).
      rewrite (param_nodes i c Hp) in Hm. destruct Hm as [<-|[]].
      eapply param_ok; eauto.
Qed.

Lemma block_nodes_ok nm i body :
  i < length lines ->
  separated (S i) (findBlockEnd lines i) body ->
  (forall c, In c body -> forall m, In m (nodes c) -> ok m) ->
  forall m,
    In m (nodes (Node block nm i i (findBlockEnd lines i) body)) -> ok m.
Proof.
  intros Hi Hsep Hbody m. rewrite nodes_eq. simpl.
  pose proof (findBlockEnd_bounds i Hi) as Hb.
  intros [<-|Hm].
  - unfold node_ok; simpl. repeat split; try lia. assumption.
  - apply in_flat_map in Hm as [c [Hc Hm]]. eapply Hbody; eauto.
Qed.

Local Abbreviation scan_ok := (scanned_ok lines parseArguments).

Lemma scan_ok_nil i e : scan_ok i e [].
Proof. split; simpl; [exact I | intros ? []]. Qed.

Lemma scan_ok_cons i e n rest :
  i <= startLine n <= e ->
  (forall m, In m (nodes n) -> ok m) ->
  scan_ok (S (endLine n)) e rest ->
  scan_ok i e (n :: rest).
Proof.
  intros Hn Hok [Hsep Hrest]. split; simpl; [tauto|].
  intros c [<-|Hc]; [assumption | now apply Hrest].
Qed.

Lemma scan_ok_skip i e res : scan_ok (S i) e res -> scan_ok i e res.
Proof. intros [H1 H2]. split; [|assumption]. eapply separated_weaken; [|eassumption]. lia. Qed.

Lemma parseBlockContent_ok fuel :
  forall i e res,
    e < length lines -> pbc fuel i e = Some res -> scan_ok i e res.
Proof.
  induction fuel as [|fuel IH]; intros i e res He; simpl; [discriminate|].
  destruct (e <? i) eqn:Hei.
  { intros [= <-]. apply scan_ok_nil. }
  apply Nat.ltb_ge in Hei.
  destruct (lines !! i) as [l|] eqn:Hl; simpl; [|discriminate].
  assert (Hi : i < length lines) by (eapply lookup_lt_Some; eauto).
  pose proof (findBlockEnd_bounds i Hi) as Hb.
  destruct (extractFunctionNameWithOptionalIo l) as [funName|].
  { destruct (pbc fuel (i + 1) _) as [body|] eqn:Hbody; simpl; [|discriminate].
    destruct (pbc fuel (findBlockEnd lines i + 1) e) as [rest|] eqn:Hrest;
      simpl; [|discriminate].
    intros [= <-].
    apply IH in Hbody; [|lia]. apply IH in Hrest; [|lia].
    rewrite Nat.add_1_r in Hbody, Hrest. destruct Hbody as [Hs Hn].
    apply scan_ok_cons; simpl; [lia | | assumption].
    apply header_nodes_ok; auto. }
  destruct (extractDeclarationKeywordAndName l) as [[kw varName]|].
  { destruct (pbc fuel (i + 1) e) as [rest|] eqn:Hrest; simpl; [|discriminate].
    intros [= <-]. apply IH in Hrest; [|lia]. rewrite Nat.add_1_r in Hrest.
    apply scan_ok_cons; simpl; [lia | | assumption].
    intros m [<-|[]]. unfold node_ok; simpl. repeat split; lia. }
  destruct (isControlLine l).
  { destruct (pbc fuel (i + 1) _) as [body|] eqn:Hbody; simpl; [|discriminate].
    destruct (pbc fuel (findBlockEnd lines i + 1) e) as [rest|] eqn:Hrest;
      simpl; [|discriminate].
    intros [= <-].
    apply IH in Hbody; [|lia]. apply IH in Hrest; [|lia].
    rewrite Nat.add_1_r in Hbody, Hrest. destruct Hbody as [Hs Hn].
    apply scan_ok_cons; simpl; [lia | | assumption].
    apply block_nodes_ok; auto. }
  intros Hrest. apply IH in Hrest; [|lia]. rewrite Nat.add_1_r in Hrest.
  now apply scan_ok_skip.
Qed.

Lemma parseTopLevel_ok fuel :
  forall i e res,
    e < length lines -> ptl fuel i e = Some res -> scan_ok i e res.
Proof.
  induction fuel as [|fuel IH]; intros i e res He; simpl; [discriminate|].
  destruct (e <? i) eqn:Hei.
  { intros [= <-]. apply scan_ok_nil. }
  apply Nat.ltb_ge in Hei.
  destruct (lines !! i) as [l|] eqn:Hl; simpl; [|discriminate].
  assert (Hi : i < length lines) by (eapply lookup_lt_Some; eauto).
  pose proof (findBlockEnd_bounds i Hi) as Hb.
  destruct (extractClassName l) as [className|].
  { destruct (pbc fuel (i + 1) _) as [body|] eqn:Hbody; simpl; [|discriminate].
    destruct (ptl fuel (findBlockEnd lines i + 1) e) as [rest|] eqn:Hrest;
      simpl; [|discriminate].
    intros [= <-].
    apply parseBlockContent_ok in Hbody; [|lia]. apply IH in Hrest; [|lia].
    rewrite Nat.add_1_r in Hbody, Hrest. destruct Hbody as [Hs Hn].
    apply scan_ok_cons; simpl; [lia | | assumption].
    apply header_nodes_ok; auto. }
  destruct (extractActorName l) as [actorName|].
  { destruct (pbc fuel (i + 1) _) as [body|] eqn:Hbody; simpl; [|discriminate].
    destruct (ptl fuel (findBlockEnd lines i + 1) e) as [rest|] eqn:Hrest;
      simpl; [|discriminate].
    intros [= <-].
    apply parseBlockContent_ok in Hbody; [|lia]. apply IH in Hrest; [|lia].
    rewrite Nat.add_1_r in Hbody, Hrest. destruct Hbody as [Hs Hn].
    apply scan_ok_cons; simpl; [lia | | assumption].
    apply header_nodes_ok; auto. }
  intros Hrest. apply IH in Hrest; [|lia]. rewrite Nat.add_1_r in Hrest.
  now apply scan_ok_skip.
Qed.

(** The loops terminate without an exception: the fuel is enough as soon
    as it exceeds the number of lines from [i] on. *)
Lemma parseBlockContent_total fuel :
  forall i e,
    e < length lines -> length lines - i < fuel -> is_Some (pbc fuel i e).
Proof.
  induction fuel as [|fuel IH]; intros i e He Hf; simpl.
  { lia. }
  destruct (e <? i) eqn:Hei; [eexists; reflexivity|].
  apply Nat.ltb_ge in Hei.
  destruct (lookup_lt_is_Some_2 lines i) as [l Hl]; [lia|].
  rewrite Hl; simpl.
  assert (Hi : i < length lines) by lia.
  pose proof (findBlockEnd_bounds i Hi) as Hb.
  destruct (IH (i + 1) e) as [r1 Hr1]; [lia | lia |].
  destruct (IH (i + 1) (findBlockEnd lines i)) as [r2 Hr2]; [lia | lia |].
  destruct (IH (findBlockEnd lines i + 1) e) as [r3 Hr3]; [lia | lia |].
  destruct (extractFunctionNameWithOptionalIo l).
  { rewrite Hr2, Hr3. simpl. eexists; reflexivity. }
  destruct (extractDeclarationKeywordAndName l) as [[? ?]|].
  { rewrite Hr1. simpl. eexists; reflexivity. }
  destruct (isControlLine l).
  { rewrite Hr2, Hr3. simpl. eexists; reflexivity. }
  rewrite Hr1. eexists; reflexivity.
Qed.

Lemma parseTopLevel_total fuel :
  forall i e,
    e < length lines -> length lines - i < fuel -> is_Some (ptl fuel i e).
Proof.
  induction fuel as [|fuel IH]; intros i e He Hf; simpl.
  { lia. }
  destruct (e <? i) eqn:Hei; [eexists; reflexivity|].
  apply Nat.ltb_ge in Hei.
  destruct (lookup_lt_is_Some_2 lines i) as [l Hl]; [lia|].
  rewrite Hl; simpl.
  assert (Hi : i < length lines) by lia.
  pose proof (findBlockEnd_bounds i Hi) as Hb.
  destruct (IH (i + 1) e) as [r1 Hr1]; [lia | lia |].
  destruct (parseBlockContent_total fuel (i + 1) (findBlockEnd lines i))
    as [r2 Hr2]; [lia | lia |].
  destruct (IH (findBlockEnd lines i + 1) e) as [r3 Hr3]; [lia | lia |].
  destruct (extractClassName l).
  { rewrite Hr2, Hr3. simpl. eexists; reflexivity. }
  destruct (extractActorName l).
  { rewrite Hr2, Hr3. simpl. eexists; reflexivity. }
  rewrite Hr1. eexists; reflexivity.
Qed.

(** [parse] returns a tree, rooted at a [program] node spanning the whole
    document, all of whose nodes are as [node_ok] says. *)
Lemma parse_lines_ok :
  lines <> [] ->
  exists tops,
    parse_lines lines parseArguments
      = Some (Node program "root" 0 0 (length lines - 1) tops) /\
    forall m,
      In m (nodes (Node program "root" 0 0 (length lines - 1) tops)) -> ok m.
Proof.
  intros Hne. assert (Hlen : 0 < length lines) by (destruct lines; simpl; [congruence | lia]).
  unfold parse_lines.
  destruct (parseTopLevel_total (length lines + 2) 0 (length lines - 1))
    as [tops Ht]; [lia | lia |].
  rewrite Ht. simpl. exists tops. split; [reflexivity|].
  apply parseTopLevel_ok in Ht as [Hsep Hn]; [|lia].
  intros m [<-|Hm].
  - unfold node_ok; simpl. repeat split; try lia. assumption.
  - change (In m (flat_map nodes tops)) in Hm.
    apply in_flat_map in Hm as [c [Hc Hm]]. eapply Hn; eauto.
Qed.

(** The top-level loop passes over lines that are no header. *)
Lemma parseTopLevel_skip d :
  forall fuel j e,
    j + d <= e + 1 -> e < length lines ->
    (forall q l, j <= q < j + d -> lines !! q = Some l ->
       extractClassName l = None /\ extractActorName l = None) ->
    ptl (d + fuel) j e = ptl fuel (j + d) e.
Proof.
  induction d as [|d IH]; intros fuel j e Hd He Hno.
  - now rewrite Nat.add_0_r.
  - cbn [Nat.add parseTopLevel].
    replace (e <? j) with false by (symmetry; apply Nat.ltb_ge; lia).
    destruct (lookup_lt_is_Some_2 lines j) as [l Hl]; [lia|].
    rewrite Hl. cbn [mbind option_bind].
    destruct (Hno j l) as [-> ->]; [lia | exact Hl |].
    rewrite IH; [f_equal; lia | lia | exact He |].
    intros q l' Hq. apply Hno. lia.
Qed.

End ParserFacts.

Lemma ASTNode_ind (P : ASTNode -> Prop) :
  (forall k nm l s e cs, Forall P cs -> P (Node k nm l s e cs)) ->
  forall n, P n.
Proof.
  intros H. fix IH 1. intros [k nm l s e cs]. apply H.
  induction cs as [|c cs IHcs]; constructor; [apply IH | exact IHcs].
Qed.

Lemma nodes_self n : In n (nodes n).
Proof. destruct n. rewrite nodes_eq. now left. Qed.

Lemma nodes_children root :
  forall n c, In n (nodes root) -> In c (children n) -> In c (nodes root).
Proof.
  induction root as [k nm l s e cs IH] using ASTNode_ind.
  intros n c Hn Hc. rewrite nodes_eq in *. destruct Hn as [<-|Hn].
  - right. apply in_flat_map. exists c. split; [exact Hc | apply nodes_self].
  - right. apply in_flat_map in Hn as [c0 [Hc0 Hn]].
    apply in_flat_map. exists c0. split; [exact Hc0|].
    rewrite List.Forall_forall in IH. eapply IH; eauto.
Qed.

Lemma separated_bounds l :
  forall lo hi,
    separated lo hi l ->
    (forall c, In c l -> startLine c <= endLine c) ->
    Forall (fun c => lo <= startLine c <= hi) l.
Proof.
  induction l as [|a l IH]; intros lo hi Hs Hc; constructor.
  - apply Hs.
  - destruct Hs as [Ha Hs]. apply IH in Hs; [|intros; apply Hc; now right].
    assert (startLine a <= endLine a) by (apply Hc; now left).
    eapply Forall_impl; [exact Hs|]. simpl. intros; lia.
Qed.

Lemma separated_pairwise l :
  forall lo hi,
    separated lo hi l ->
    (forall c, In c l -> startLine c <= endLine c) ->
    forall i j a b, i < j -> l !! i = Some a -> l !! j = Some b ->
      endLine a < startLine b.
Proof.
  induction l as [|x l IH]; intros lo hi Hs Hc i j a b Hij Ha Hb.
  - discriminate.
  - destruct Hs as [Hx Hs]. destruct j as [|j]; [lia|]. simpl in Hb.
    destruct i as [|i].
    + injection Ha as <-.
      pose proof (separated_bounds l _ _ Hs (fun c H => Hc c (or_intror H))) as Hbd.
      rewrite List.Forall_forall in Hbd.
      assert (In b l) as Hin by (apply list_elem_of_In; eapply list_elem_of_lookup_2; eauto).
      specialize (Hbd b Hin). lia.
    + simpl in Ha.
      apply (IH _ _ Hs (fun c H => Hc c (or_intror H)) i j a b); [lia | easy | easy].
Qed.

Lemma Forall_is_param_bounds i e cs :
  i <= e -> Forall (is_param i) cs ->
  Forall (fun c => i <= startLine c <= e) cs.
Proof.
  intros Hie H. eapply Forall_impl; [exact H|]. intros c [nm ->]. simpl. lia.
Qed.

(** From [node_ok] on a whole tree to the amended span invariant. *)
Lemma node_ok_amended lines pa root :
  (forall l i, Forall (is_param i) (pa l i)) ->
  (forall m, In m (nodes root) -> node_ok lines pa m) ->
  forall n, In n (nodes root) ->
    amended_span_invariant (length lines - 1) n.
Proof.
  intros Hpa Hok n Hn.
  assert (Hkids : forall c, In c (children n) -> startLine c <= endLine c).
  { intros c Hc. destruct (Hok c (nodes_children root n c Hn Hc)) as (E & L & _).
    lia. }
  destruct (Hok n Hn) as (Hs & Hl & He & Hk).
  unfold amended_span_invariant. split; [exact Hs|]. split; [exact Hl|].
  split; [lia|]. rewrite Hs.
  destruct (AST.kind n).
  - destruct Hk as (H0 & _ & Hsep). split.
    + eapply Forall_impl; [eapply separated_bounds; eauto|].
      cbv beta; intros; lia.
    + exists (children n), []. rewrite app_nil_r. split; [reflexivity|].
      split; [eapply separated_pairwise; eauto | constructor].
  - destruct Hk as (_ & l & body & Hl' & Hc & Hsep). rewrite Hc in *. split.
    + apply Forall_app. split.
      * eapply Forall_impl;
          [eapply separated_bounds; eauto; intros; apply Hkids, in_or_app; now left|].
        cbv beta; intros; lia.
      * apply Forall_is_param_bounds; [lia | apply Hpa].
    + exists body, (pa l (line n)). split; [reflexivity|]. split; [|apply Hpa].
      eapply separated_pairwise; eauto. intros; apply Hkids, in_or_app; now left.
  - destruct Hk as (_ & l & body & Hl' & Hc & Hsep). rewrite Hc in *. split.
    + apply Forall_app. split.
      * eapply Forall_impl;
          [eapply separated_bounds; eauto; intros; apply Hkids, in_or_app; now left|].
        cbv beta; intros; lia.
      * apply Forall_is_param_bounds; [lia | apply Hpa].
    + exists body, (pa l (line n)). split; [reflexivity|]. split; [|apply Hpa].
      eapply separated_pairwise; eauto. intros; apply Hkids, in_or_app; now left.
  - destruct Hk as (_ & l & body & Hl' & Hc & Hsep). rewrite Hc in *. split.
    + apply Forall_app. split.
      * eapply Forall_impl;
          [eapply separated_bounds; eauto; intros; apply Hkids, in_or_app; now left|].
        cbv beta; intros; lia.
      * apply Forall_is_param_bounds; [lia | apply Hpa].
    + exists body, (pa l (line n)). split; [reflexivity|]. split; [|apply Hpa].
      eapply separated_pairwise; eauto. intros; apply Hkids, in_or_app; now left.
  - destruct Hk as (Hc & _). rewrite Hc. split; [constructor|].
    exists [], []. split; [reflexivity|]. split; [|constructor].
    intros i j a b _ Ha. discriminate.
  - destruct Hk as (_ & Hsep). split.
    + eapply Forall_impl; [eapply separated_bounds; eauto|].
      cbv beta; intros; lia.
    + exists (children n), []. rewrite app_nil_r. split; [reflexivity|].
      split; [eapply separated_pairwise; eauto | constructor].
Qed.

Lemma split_chars_nonempty sep l : forall cur, split_chars sep cur l <> [].
Proof.
  induction l as [|a l IH]; intros cur; simpl; [discriminate|].
  destruct (Ascii.eqb a sep); [discriminate | apply IH].
Qed.

Lemma split_nonempty sep s : split sep s <> [].
Proof. apply split_chars_nonempty. Qed.

Lemma Rev1_parseArguments_params l i :
  Forall (is_param i) (Rev1.parseArguments l i).
Proof.
  unfold Rev1.parseArguments.
  destruct (match_all _ l) as [[|first rest]|]; try constructor.
  apply Forall_map, Forall_true. intros x. now exists (trim x).
Qed.

Lemma Rev2_parseArguments_params l i :
  Forall (is_param i) (Rev2.parseArguments l i).
Proof.
  unfold Rev2.parseArguments. destruct (match_all _ l); [|constructor].
  apply Forall_map, Forall_true. intros x. now exists (trim x).
Qed.

(** ** Block-end detection on an unterminated header *)

Lemma count_char_app a p q :
  count_char a (p ++ q) = count_char a p + count_char a q.
Proof. induction p as [|c p IH]; simpl; [reflexivity | rewrite IH; lia]. Qed.

Lemma never_closed_tail p c l :
  never_closed p (c :: l) -> never_closed (p ++ [c]) l.
Proof.
  intros H q rest ->. rewrite <- app_assoc. simpl.
  apply (H (c :: q) rest). reflexivity.
Qed.

Lemma never_closed_app p l1 l2 :
  never_closed p (l1 ++ l2) -> never_closed p l1 /\ never_closed (p ++ l1) l2.
Proof.
  intros H. split.
  - intros q rest ->. apply (H q (rest ++ l2)%list).
    rewrite <- app_assoc. reflexivity.
  - intros q rest ->. rewrite <- app_assoc. apply (H (l1 ++ q)%list rest).
    rewrite <- app_assoc. reflexivity.
Qed.

Lemma scanBraces_cons c l b f :
  scanBraces (c :: l) b f =
  if is_char "{" c then scanBraces l (b + 1)%Z true
  else if is_char "}" c then
    if f && (b - 1 =? 0)%Z then None else scanBraces l (b - 1)%Z f
  else scanBraces l b f.
Proof. reflexivity. Qed.

Lemma count_char_snoc a p c :
  count_char a (p ++ [c]) = count_char a p + (if is_char a c then 1 else 0).
Proof. rewrite count_char_app. simpl. lia. Qed.

Lemma scanBraces_never_closed l :
  forall p,
    never_closed p l ->
    scanBraces l (fst (braceState p)) (snd (braceState p))
    = Some (braceState (p ++ l)).
Proof.
  induction l as [|c l IH]; intros p H.
  { rewrite app_nil_r. destruct (braceState p); reflexivity. }
  pose proof (IH _ (never_closed_tail _ _ _ H)) as IH'.
  rewrite <- app_assoc in IH'. change ([c] ++ l) with (c :: l) in IH'.
  rewrite <- IH'. clear IH IH'.
  rewrite scanBraces_cons. unfold braceState, fst, snd.
  rewrite !count_char_snoc.
  destruct (is_char "{" c) eqn:Ho.
  { assert (is_char "}" c = false) as ->.
    { unfold is_char in *. apply Ascii.eqb_eq in Ho. now subst c. }
    f_equal.
    - lia.
    - destruct (count_char "{" p + 1 =? 0) eqn:E; [|reflexivity].
      apply Nat.eqb_eq in E. lia. }
  destruct (is_char "}" c) eqn:Hc.
  { unfold is_char in Hc. apply Ascii.eqb_eq in Hc. subst c.
    specialize (H [] l eq_refl). rewrite app_nil_r in H.
    replace (negb (count_char "{" p =? 0) &&
             (Z.of_nat (count_char "{" p) - Z.of_nat (count_char "}" p) - 1 =? 0)%Z)
      with false.
    - rewrite !Nat.add_0_r. f_equal. lia.
    - symmetry. apply andb_false_iff. destruct H as [H|H].
      + left. rewrite H. reflexivity.
      + right. apply Z.eqb_neq. lia. }
  rewrite !Nat.add_0_r. reflexivity.
Qed.

Lemma findBlockEnd_loop_never_closed lines ls :
  forall i p,
    never_closed p (concat (map str ls)) ->
    findBlockEnd_loop lines ls i (fst (braceState p)) (snd (braceState p))
    = length lines - 1.
Proof.
  induction ls as [|l ls IH]; intros i p H; [reflexivity|].
  change (concat (map str (l :: ls))) with (str l ++ concat (map str ls)) in H.
  apply never_closed_app in H as [H1 H2].
  change (findBlockEnd_loop lines (l :: ls) i (braceState p).1 (braceState p).2)
    with (match scanBraces (str l) (braceState p).1 (braceState p).2 with
          | None => i
          | Some (c', f') => findBlockEnd_loop lines ls (S i) c' f'
          end).
  rewrite (scanBraces_never_closed _ _ H1).
  destruct (braceState (p ++ str l)) as [c f] eqn:E.
  specialize (IH (S i) _ H2). rewrite E in IH. exact IH.
Qed.

Lemma findBlockEnd_unterminated lines i :
  unterminated lines i -> findBlockEnd lines i = length lines - 1.
Proof.
  intros H. unfold findBlockEnd.
  apply (findBlockEnd_loop_never_closed lines (drop i lines) i []).
  intros q rest E. simpl. apply (H q rest E).
Qed.



(** ** The structural parser: the properties of [parse] *)

Lemma parse_ok_both text :
  both_revisions (fun parse =>
    exists root, parse text = Some root /\
      exists pa, (forall l i, Forall (is_param i) (pa l i)) /\
        (pa = Rev1.parseArguments \/ pa = Rev2.parseArguments) /\
        forall m, In m (nodes root) -> node_ok (split LF text) pa m).
Proof.
  split.
  - destruct (parse_lines_ok (split LF text) Rev1.parseArguments
                Rev1_parseArguments_params (split_nonempty LF text))
      as [tops [Hp Hok]].
    eexists; split; [exact Hp|]. exists Rev1.parseArguments.
    split; [apply Rev1_parseArguments_params|]. split; [now left | exact Hok].
  - destruct (parse_lines_ok (split LF text) Rev2.parseArguments
                Rev2_parseArguments_params (split_nonempty LF text))
      as [tops [Hp Hok]].
    eexists; split; [exact Hp|]. exists Rev2.parseArguments.
    split; [apply Rev2_parseArguments_params|]. split; [now right | exact Hok].
Qed.

(** C1, as stated, fails: in the tree of [doc_nested] the function [f]
    (lines 1 to 6) is a child of class [A] (lines 0 to 2), the parameters
    [x] and [y] of line 0 come after [f] in the children of [A], and they
    occupy the same line. *)
Lemma C1_span_invariant_counterexample :
  both_revisions (fun parse =>
    exists root, parse doc_nested = Some root /\ span_invariant root = false) /\
  exists root A rest,
    Rev2.parse doc_nested = Some root /\ children root = A :: rest /\
    children_contained A = false /\
    siblings_ordered (children A) = false /\
    children A = [Node function "f" 1 1 6
                    [Node variable "z" 4 4 4 []; Node variable "a" 1 1 1 []];
                  Node variable "x" 0 0 0 []; Node variable "y" 0 0 0 []].
Proof.
  split; [split|].
  - eexists. split; [vm_compute; reflexivity | vm_compute; reflexivity].
  - eexists. split; [vm_compute; reflexivity | vm_compute; reflexivity].
  - eexists. eexists. eexists. split; [vm_compute; reflexivity|].
    split; [reflexivity|]. repeat split; vm_compute; reflexivity.
Qed.

(** C1, amended: [parse] always returns a tree, and every node of it has
    [startLine = line <= endLine <= last line]; every child starts within
    the span of its parent; the children found in the body come first,
    each starting after the end of the previous one, and the parameter
    nodes of the header line follow them.  (Where a child ends is not
    bounded by the parent.) *)
Theorem C1_span_invariant_amended (text : string) :
  both_revisions (fun parse =>
    exists root, parse text = Some root /\
      Forall (amended_span_invariant (lastLine text)) (nodes root)).
Proof.
  destruct (parse_ok_both text) as [H1 H2].
  split; [destruct H1 as (root & Hp & pa & Hpa & _ & Hok)
         | destruct H2 as (root & Hp & pa & Hpa & _ & Hok)];
    exists root; (split; [exact Hp|]); apply List.Forall_forall; intros n Hn;
    eapply node_ok_amended; eauto.
Qed.



(** C7 on the first revision: the header of [doc_params] has two matches
    of the parameter pattern, and the class node gets one variable child,
    for the first of them. *)
Theorem C7_rev1_first_parameter_only :
  match_all RegexPatterns.PARAMETER.ARGUMENT_NAME_IN_SIGNATURE
            "class P(a: Int, b: Int) {" = Some ["a"; "b"]%string /\
  Rev1.parse doc_params
  = Some (Node program "root" 0 0 1
            [Node class "P" 0 0 1 [Node variable "a" 0 0 0 []]]) /\
  Rev2.parse doc_params
  = Some (Node program "root" 0 0 1
            [Node class "P" 0 0 1
               [Node variable "a" 0 0 0 []; Node variable "b" 0 0 0 []]]).
Proof. repeat split; vm_compute; reflexivity. Qed.

(** C7 on the second revision: every class, actor and function node has,
    after the nodes of its body, one variable node on the header line per
    match of the parameter pattern in that line. *)
Lemma Rev2_one_child_per_parameter (text : string) :
  exists root, Rev2.parse text = Some root /\
    Forall (fun n =>
              has_parameters (kind n) = true ->
              exists l body,
                split LF text !! line n = Some l /\
                children n =
                  body ++ map (fun nm => Node variable (trim nm) (line n)
                                              (line n) (line n) [])
                              (parameterNames l) /\
                length (children n) = length body + length (parameterNames l))
           (nodes root).
Proof.
  destruct (parse_lines_ok (split LF text) Rev2.parseArguments
              Rev2_parseArguments_params (split_nonempty LF text))
    as [tops [Hp Hok]].
  eexists. split; [exact Hp|]. apply List.Forall_forall. intros n Hn Hk.
  destruct (Hok n Hn) as (_ & _ & _ & Hkind).
  assert (exists l body, split LF text !! line n = Some l /\
            children n = body ++ Rev2.parseArguments l (line n))
    as (l & body & Hl & Hc).
  { destruct (AST.kind n); try discriminate Hk;
      destruct Hkind as (_ & l & body & Hl & Hc & _); eauto. }
  exists l, body. split; [exact Hl|].
  assert (Rev2.parseArguments l (line n) =
          map (fun nm => Node variable (trim nm) (line n) (line n) (line n) [])
              (parameterNames l)) as E.
  { unfold Rev2.parseArguments, parameterNames.
    destruct (match_all _ l); reflexivity. }
  rewrite <- E. split; [exact Hc|].
  rewrite Hc, length_app, E, length_map. reflexivity.
Qed.

(** ** The inference engine of [inlay.ts] *)

Lemma gens_zip_with gs :
  forall hs,
    (fix gens (gs hs : list Inlay.TypeInfo) : list Inlay.TypeInfo :=
       match gs, hs with
       | g :: gs', h :: hs' => Inlay.mergeTypes g h :: gens gs' hs'
       | _, _ => []
       end) gs hs
    = zip_with Inlay.mergeTypes gs hs.
Proof.
  induction gs as [|g gs IH]; intros [|h hs]; reflexivity.
Qed.

Lemma TypeKind_eqb_eq a b : Inlay.TypeKind_eqb a b = true <-> a = b.
Proof. destruct a, b; simpl; split; congruence. Qed.

Lemma TypeKind_eqb_neq a b : Inlay.TypeKind_eqb a b = false <-> a <> b.
Proof. destruct a, b; simpl; split; congruence. Qed.

(** C6: the four cases of [mergeTypes]. *)
Theorem C6_mergeTypes_cases (a b : Inlay.TypeInfo) :
  (forall gs hs,
     Inlay.kind a = Inlay.kind b ->
     Inlay.generics a = Some gs -> Inlay.generics b = Some hs ->
     length gs = length hs ->
     Inlay.mergeTypes a b
     = Inlay.make (Inlay.kind a) (Some (zip_with Inlay.mergeTypes gs hs)) None) /\
  (Inlay.kind a = Inlay.kind b ->
   (forall gs hs, Inlay.generics a = Some gs -> Inlay.generics b = Some hs ->
                  length gs <> length hs) ->
   Inlay.mergeTypes a b = a) /\
  (Inlay.kind a <> Inlay.kind b -> Inlay.kind a = Inlay.KRandomAny ->
   Inlay.mergeTypes a b = b) /\
  (Inlay.kind a <> Inlay.kind b -> Inlay.kind b = Inlay.KRandomAny ->
   Inlay.mergeTypes a b = a) /\
  (Inlay.kind a <> Inlay.kind b ->
   Inlay.kind a <> Inlay.KRandomAny -> Inlay.kind b <> Inlay.KRandomAny ->
   Inlay.mergeTypes a b
   = Inlay.make Inlay.KCustom None
       (Some (Inlay.kindName (Inlay.kind a) ++ "|" ++
              Inlay.kindName (Inlay.kind b))%string)).
Proof.
  destruct a as [ka ga na]. simpl.
  repeat split.
  - intros gs hs Hk -> -> Hlen.
    apply TypeKind_eqb_eq in Hk. rewrite Hk.
    apply Nat.eqb_eq in Hlen. rewrite Hlen.
    rewrite gens_zip_with. reflexivity.
  - intros Hk Hlen. apply TypeKind_eqb_eq in Hk. rewrite Hk.
    destruct ga as [gs|]; [|reflexivity].
    destruct (Inlay.generics b) as [hs|]; [|reflexivity].
    specialize (Hlen gs hs eq_refl eq_refl). apply Nat.eqb_neq in Hlen.
    rewrite Hlen. reflexivity.
  - intros Hk ->. apply TypeKind_eqb_neq in Hk. rewrite Hk. reflexivity.
  - intros Hk Hb. apply TypeKind_eqb_neq in Hk. rewrite Hk, Hb.
    rewrite Hb in Hk. rewrite Hk. reflexivity.
  - intros Hk Ha Hb. apply TypeKind_eqb_neq in Hk, Ha, Hb.
    rewrite Hk, Ha, Hb. reflexivity.
Qed.

Lemma C6_mergeTypes_witness :
  Inlay.mergeTypes (listOf (Inlay.make0 Inlay.KRandomAny))
                   (listOf (Inlay.make0 Inlay.KInt))
  = listOf (Inlay.make0 Inlay.KInt) /\
  Inlay.mergeTypes (listOf (Inlay.make0 Inlay.KInt)) (Inlay.make0 Inlay.KList)
  = listOf (Inlay.make0 Inlay.KInt) /\
  Inlay.mergeTypes (Inlay.make0 Inlay.KRandomAny) (Inlay.make0 Inlay.KInt)
  = Inlay.make0 Inlay.KInt /\
  Inlay.mergeTypes (Inlay.make0 Inlay.KBool) (Inlay.make0 Inlay.KRandomAny)
  = Inlay.make0 Inlay.KBool /\
  Inlay.mergeTypes (Inlay.make0 Inlay.KInt) (Inlay.make0 Inlay.KString)
  = Inlay.make Inlay.KCustom None (Some "Int|String").
Proof.
  split; [|split; [|split; [|split]]].
  - apply (proj1 (C6_mergeTypes_cases (listOf (Inlay.make0 Inlay.KRandomAny))
                    (listOf (Inlay.make0 Inlay.KInt)))
             [Inlay.make0 Inlay.KRandomAny] [Inlay.make0 Inlay.KInt]);
      reflexivity.
  - apply (proj1 (proj2 (C6_mergeTypes_cases (listOf (Inlay.make0 Inlay.KInt))
                           (Inlay.make0 Inlay.KList))));
      [reflexivity | discriminate].
  - apply (proj1 (proj2 (proj2 (C6_mergeTypes_cases
             (Inlay.make0 Inlay.KRandomAny) (Inlay.make0 Inlay.KInt)))));
      [discriminate | reflexivity].
  - apply (proj1 (proj2 (proj2 (proj2 (C6_mergeTypes_cases
             (Inlay.make0 Inlay.KBool) (Inlay.make0 Inlay.KRandomAny))))));
      [discriminate | reflexivity].
  - apply (proj2 (proj2 (proj2 (proj2 (C6_mergeTypes_cases
             (Inlay.make0 Inlay.KInt) (Inlay.make0 Inlay.KString))))));
      discriminate.
Defined.

(** C4: the two-line document [doc_list] gives [lst] the type List with
    the single generic argument Int, whether or not the syntax tree is
    passed along, and with or without the final line break. *)
Theorem C4_list_of_int_after_add :
  Inlay.inferFromText doc_list None !! "lst"
  = Some (listOf (Inlay.make0 Inlay.KInt)) /\
  both_revisions (fun parse =>
    exists ast, parse doc_list = Some ast /\
      Inlay.inferFromText doc_list (Some ast) !! "lst"
      = Some (listOf (Inlay.make0 Inlay.KInt))) /\
  Inlay.inferFromText ("val lst = List<Int>.new()" ++ nl ++ "lst.add(3)")%string
                      None !! "lst"
  = Some (listOf (Inlay.make0 Inlay.KInt)) /\
  Inlay.typeToString (Inlay.inferFromText doc_list None !! "lst") = "List<Int>".
Proof.
  split; [vm_compute; reflexivity|]. split; [split|split].
  - eexists. split; vm_compute; reflexivity.
  - eexists. split; vm_compute; reflexivity.
  - vm_compute. reflexivity.
  - vm_compute. reflexivity.
Qed.

(** C3 on the engine of [inlay.ts]: the generic arguments written in a
    builtin-collection constructor are dropped; the declared name gets
    the kind with placeholder generics whatever was written. *)
Theorem C3_inlay_drops_explicit_generics :
  Inlay.inferFromText "var x = List<Int>.new()" None !! "x"
  = Some (listOf (Inlay.make0 Inlay.KRandomAny)) /\
  Inlay.inferExpressionType "List<Int>.new()"
  = Inlay.inferExpressionType "List.new()" /\
  forall expr,
    match Inlay.kind (Inlay.inferExpressionType expr) with
    | Inlay.KList | Inlay.KSet =>
        Inlay.generics (Inlay.inferExpressionType expr)
        = Some [Inlay.make0 Inlay.KRandomAny]
    | Inlay.KMap =>
        Inlay.generics (Inlay.inferExpressionType expr)
        = Some [Inlay.make0 Inlay.KRandomAny; Inlay.make0 Inlay.KRandomAny]
    | _ => Inlay.generics (Inlay.inferExpressionType expr) = None
    end.
Proof.
  split; [vm_compute; reflexivity|]. split; [vm_compute; reflexivity|].
  intros expr. unfold Inlay.inferExpressionType.
  repeat match goal with
         | |- context [if ?b then _ else _] => destruct b
         end; reflexivity.
Qed.

(** The refactored expression rules do parse explicit generics. *)
Lemma ExpressionInference_explicit_generics
    (typeNameToKind : string -> Types.TypeKind)
    (extractGenericContent : string -> option string)
    (parseCommaSeparated : string -> list string)
    (parseTypeString : string -> Types.TypeInfo)
    (collectionType expr content : string) :
  Types.truthy (extractGenericContent expr) = Some content ->
  Types.processBuiltinCollectionConstructor typeNameToKind
    extractGenericContent parseCommaSeparated parseTypeString
    collectionType expr
  = Types.make (typeNameToKind collectionType)
      (Some (map parseTypeString (parseCommaSeparated content))) None.
Proof.
  intros H. unfold Types.processBuiltinCollectionConstructor. now rewrite H.
Qed.

Lemma ExpressionInference_list_of_int
    (typeNameToKind : string -> Types.TypeKind)
    (extractGenericContent : string -> option string)
    (parseCommaSeparated : string -> list string)
    (parseTypeString : string -> Types.TypeInfo)
    (functionReturnTypes types : gmap string Types.TypeInfo) :
  typeNameToKind "List" = Types.KList ->
  extractGenericContent "List<Int>.new()" = Some "Int"%string ->
  parseCommaSeparated "Int" = ["Int"%string] ->
  parseTypeString "Int" = Types.t0 Types.KInt ->
  Types.inferExpressionType typeNameToKind extractGenericContent
    parseCommaSeparated parseTypeString functionReturnTypes types
    "List<Int>.new()"
  = Types.make Types.KList (Some [Types.t0 Types.KInt]) None.
Proof.
  intros Hk Hg Hc Hp. unfold Types.inferExpressionType.
  replace (isStringLiteral "List<Int>.new()") with false by (vm_compute; reflexivity).
  replace (isBoolLiteral "List<Int>.new()") with false by (vm_compute; reflexivity).
  replace (isIntLiteral "List<Int>.new()") with false by (vm_compute; reflexivity).
  replace (extractBuiltinCollectionConstructor "List<Int>.new()")
    with (Some "List"%string) by (vm_compute; reflexivity).
  rewrite (ExpressionInference_explicit_generics _ _ _ _ _ _ "Int").
  - rewrite Hk, Hc. simpl. rewrite Hp. reflexivity.
  - rewrite Hg. reflexivity.
Qed.

(** ** Sign-prefixed initializers in [inlay.ts] *)

Lemma exec_from_bol r n :
  forall i, before i <> [] -> exec_from (Seq Bol r) n i = None.
Proof.
  induction n as [|n IH]; intros i Hb.
  - simpl. unfold match_at. simpl. destruct (before i); [congruence | reflexivity].
  - simpl. unfold match_at. simpl. destruct (before i) eqn:E; [congruence|].
    simpl. destruct (after i) as [|x s]; simpl; [reflexivity|].
    apply IH. simpl. discriminate.
Qed.

(** A pattern anchored at the start is decided at position 0. *)
Lemma matches_bol r s :
  match_at (Seq Bol r) (at_start (str s)) = None ->
  matches (Seq Bol r) s = false.
Proof.
  intros H. unfold matches, exec.
  destruct (str s) as [|a l] eqn:E; simpl.
  - simpl in H. rewrite H. reflexivity.
  - rewrite H. simpl. rewrite exec_from_bol; [reflexivity | discriminate].
Qed.

Lemma one_of_sign a : one_of "+-" a = true -> a = "+"%char \/ a = "-"%char.
Proof.
  unfold one_of; simpl. rewrite !orb_true_iff, !Ascii.eqb_eq.
  intros [H | [H | H]]; [now left | now right | discriminate].
Qed.

Ltac anchored_mismatch :=
  match goal with
  | |- context [matches ?r (String ?a ?s)] =>
      let H := fresh in
      assert (matches r (String a s) = false) as H
        by (apply matches_bol; reflexivity);
      rewrite H; clear H
  end.

(** The engine's own tests recognise nothing that begins with a sign. *)
Lemma inferExpressionType_signed value :
  starts_with_sign value = true ->
  Inlay.inferExpressionType value = Inlay.make0 Inlay.KRandomAny.
Proof.
  destruct value as [|a s]; [discriminate|]. simpl. intros Ha.
  unfold Inlay.inferExpressionType, Inlay.isConstruction.
  apply one_of_sign in Ha as [-> | ->]; repeat anchored_mismatch; reflexivity.
Qed.

Lemma scanInitializer_read types raw :
  Inlay.scanInitializer types raw =
  match readInitializer raw with
  | Some (name, value) => <[name := Inlay.inferExpressionType value]> types
  | None => types
  end.
Proof.
  unfold Inlay.scanInitializer, readInitializer.
  destruct (exec Inlay.initRegex (trim raw)) as [m|]; simpl; [|reflexivity].
  destruct (group 1 m); simpl; [|reflexivity].
  destruct (group 2 m); reflexivity.
Qed.

(** ** The type registry *)

Lemma getMethodsForType_List user ty :
  Types.kind ty = Types.KList ->
  fst (Types.getMethodsForType ty (registryWith user))
  = Types.resolveGenericMethods Types.ListDefinition ty.
Proof.
  intros Hk. unfold Types.getMethodsForType, Types.bind, Types.readBuiltin.
  rewrite Hk. reflexivity.
Qed.

(** C5: for [List<Int>] the method [get] returns [Int]; no occurrence of
    the parameter name [T] is left in any return or parameter type; and
    the substitution is positional, as [MutableMap<String, Int>] shows.
    For any argument [g], [get] of [List<g>] returns [g]. *)
Theorem C5_generic_methods_are_resolved (user : gmap string Types.TypeDefinition) :
  let methodsOf ty := fst (Types.getMethodsForType ty (registryWith user)) in
  (Types.returnType <$> methodNamed "get" (methodsOf (ListOf (Types.t0 Types.KInt)))
   = Some (Types.t0 Types.KInt)) /\
  forallb (fun m => negb (method_mentions "T" m))
          (methodsOf (ListOf (Types.t0 Types.KInt))) = true /\
  map Types.m_name (methodsOf (ListOf (Types.t0 Types.KInt)))
  = map Types.m_name (Types.methods Types.ListDefinition) /\
  (forall g, Types.returnType <$> methodNamed "get" (methodsOf (ListOf g))
             = Some g) /\
  (methodNamed "put" (methodsOf (MapOf (Types.t0 Types.KString) (Types.t0 Types.KInt)))
   = Some (Types.method "put" Types.unit_
             [Types.mkParam "key" (Types.t0 Types.KString);
              Types.mkParam "value" (Types.t0 Types.KInt)]
             "Put key-value pair")).
Proof.
  cbv zeta. split; [|split; [|split; [|split]]].
  - rewrite getMethodsForType_List by reflexivity. vm_compute. reflexivity.
  - rewrite getMethodsForType_List by reflexivity. vm_compute. reflexivity.
  - rewrite getMethodsForType_List by reflexivity. vm_compute. reflexivity.
  - intros g. rewrite getMethodsForType_List by reflexivity.
    unfold Types.resolveGenericMethods, ListOf. simpl.
    rewrite lookup_insert_eq. reflexivity.
  - vm_compute. reflexivity.
Qed.

(** C9: a call of [getMethodsForType] leaves the registry as it was: the
    builtin entries keep their placeholders and the user catalog is the
    same, so a later query with other generic arguments is resolved from
    the unchanged definitions. *)
Theorem C9_getMethodsForType_leaves_registry (registry : Types.TypeRegistry)
    (ty : Types.TypeInfo) :
  snd (Types.getMethodsForType ty registry) = registry /\
  (forall user g1 g2,
     let after_ := snd (Types.getMethodsForType (ListOf g1) (registryWith user)) in
     Types.builtinTypes after_ !! "List"%string = Some Types.ListDefinition /\
     Types.returnType <$> methodNamed "get" (Types.methods Types.ListDefinition)
     = Some (Types.generic "T") /\
     Types.userTypes after_ = user /\
     Types.returnType <$>
       methodNamed "get" (fst (Types.getMethodsForType (ListOf g2) after_))
     = Some g2).
Proof.
  assert (forall r x, snd (Types.getMethodsForType x r) = r) as Hframe.
  { intros r x. unfold Types.getMethodsForType, Types.bind, Types.readBuiltin,
      Types.readUser, Types.ret. simpl.
    destruct (Types.builtinTypes r !! _); [reflexivity|].
    destruct (Types.userTypes r !! _); reflexivity. }
  split; [apply Hframe|].
  intros user g1 g2. cbv zeta. rewrite Hframe.
  split; [vm_compute; reflexivity|]. split; [vm_compute; reflexivity|].
  split; [reflexivity|].
  rewrite getMethodsForType_List by reflexivity.
  unfold Types.resolveGenericMethods, ListOf. simpl.
  rewrite lookup_insert_eq. reflexivity.
Qed.

(** ** Lines that end with a carriage return

    [parse] splits at LF only, so with CR LF line endings every line but
    the last keeps a CR at its end.  The patterns the parser uses cannot
    tell: none of them has [$] or [.], and the identifier that ends each
    of them does not accept CR. *)

Lemma orelse_None_r {R} (x : option R) : orelse x None = x.
Proof. destruct x; reflexivity. Qed.

Lemma star_loop_at_end {R} g body (k : input -> captures -> option R) :
  (forall b c h, fails_at_end h -> body (Input b []) c h = None) ->
  fails_at_end k ->
  forall n b c, star_loop g (remaining true) body k n (Input b []) c = None.
Proof.
  intros Hbody Hk n b c. destruct n as [|n]; simpl; [apply Hk|].
  rewrite (Hk b c), Hbody; [destruct g; reflexivity|].
  intros b' d. reflexivity.
Qed.

(** At the end of the subject a forward match can only call its
    continuation there. *)
Lemma rmatch_at_end {R} (r : regex) :
  forall (k : input -> captures -> option R) b c,
    fails_at_end k -> rmatch true r (Input b []) c k = None.
Proof.
  induction r; intros k b c Hk; simpl.
  - apply Hk.
  - reflexivity.
  - apply IHr1. intros b' d. apply IHr2, Hk.
  - rewrite IHr1, IHr2 by exact Hk. reflexivity.
  - apply Hk.
  - apply IHr. intros b' d. apply Hk.
  - destruct (is_nil b); [apply Hk | reflexivity].
  - apply Hk.
  - destruct (at_word_boundary _); [apply Hk | reflexivity].
  - destruct (rmatch true r _ c _); [apply Hk | reflexivity].
  - destruct (rmatch false r _ c _); [apply Hk | reflexivity].
Qed.

Lemma firstn_app_cr n (l : chars) :
  n <= length l -> firstn n (l ++ [CR]) = firstn n l.
Proof.
  intros H. rewrite firstn_app. replace (n - length l) with 0 by lia.
  simpl. apply app_nil_r.
Qed.

Lemma between_app_cr i j : between (app_cr i) (app_cr j) = between i j.
Proof.
  unfold between, app_cr. simpl. rewrite !length_app. simpl.
  replace (length (after j) + 1 <=? length (after i) + 1)
    with (length (after j) <=? length (after i)).
  2:{ destruct (Nat.leb_spec (length (after j)) (length (after i)));
      symmetry; [apply Nat.leb_le | apply Nat.leb_gt]; lia. }
  destruct (Nat.leb_spec (length (after j)) (length (after i))).
  - replace (length (after i) + 1 - (length (after j) + 1))
      with (length (after i) - length (after j)) by lia.
    now rewrite firstn_app_cr by lia.
  - replace (length (after j) + 1 - (length (after i) + 1))
      with (length (after j) - length (after i)) by lia.
    now rewrite firstn_app_cr by lia.
Qed.

Lemma at_word_boundary_app_cr i :
  at_word_boundary (app_cr i) = at_word_boundary i.
Proof.
  unfold at_word_boundary, app_cr. simpl. destruct (after i); reflexivity.
Qed.

Lemma remaining_app_cr i : remaining true (app_cr i) = S (remaining true i).
Proof. unfold remaining, app_cr. simpl. rewrite length_app. simpl. lia. Qed.

Lemma star_loop_S {R} g left_ body (k : input -> captures -> option R) n i c :
  star_loop g left_ body k (S n) i c =
  if g
  then orelse (body i c (fun i' c' =>
                 if left_ i' <? left_ i
                 then star_loop g left_ body k n i' c' else None)) (k i c)
  else orelse (k i c)
         (body i c (fun i' c' =>
            if left_ i' <? left_ i
            then star_loop g left_ body k n i' c' else None)).
Proof. reflexivity. Qed.

Section StarLoopCR.
Context {R R' : Type} (f : R -> R') (g : bool).
Context (body : input -> captures -> (input -> captures -> option R) -> option R).
Context (body' : input -> captures -> (input -> captures -> option R') -> option R').
Context (k : input -> captures -> option R) (k' : input -> captures -> option R').
Context (Q : (input -> captures -> option R') -> Prop).

Hypothesis body_fail :
  forall i c h, (forall j d, h j d = None) -> body i c h = None.
Hypothesis agree_k : agree_on_cr f k k'.

(** Forward: one more unit of fuel for one more character. *)
Lemma star_loop_cr_fwd :
  (forall i c h h', agree_on_cr f h h' -> Q h' ->
     body' (app_cr i) c h' = f <$> body i c h) ->
  (forall n i,
     Q (fun j d => if remaining true j <? remaining true (app_cr i)
                   then star_loop g (remaining true) body' k' n j d else None)) ->
  forall n i c,
    remaining true i <= n ->
    star_loop g (remaining true) body' k' (S n) (app_cr i) c
    = f <$> star_loop g (remaining true) body k n i c.
Proof.
  intros Hbody HQ. induction n as [|n IH]; intros i c Hn.
  - change (star_loop g (remaining true) body k 0 i c) with (k i c).
    rewrite star_loop_S.
    rewrite (Hbody i c (fun _ _ => None)); [| |exact (HQ 0 i)].
    + rewrite body_fail by reflexivity. rewrite (agree_k i c). simpl.
      destruct g; [reflexivity | apply orelse_None_r].
    + intros j d. rewrite !remaining_app_cr.
      replace (S (remaining true j) <? S (remaining true i)) with false;
        [reflexivity|]. symmetry. apply Nat.ltb_ge. lia.
  - rewrite (star_loop_S g _ body'), (star_loop_S g _ body).
    rewrite (Hbody i c
               (fun i' c' =>
                  if remaining true i' <? remaining true i
                  then star_loop g (remaining true) body k n i' c' else None));
      [| |exact (HQ (S n) i)].
    + rewrite (agree_k i c). destruct g; apply orelse_fmap.
    + intros j d. rewrite !remaining_app_cr.
      change (S (remaining true j) <? S (remaining true i))
        with (remaining true j <? remaining true i).
      destruct (remaining true j <? remaining true i) eqn:E; [|reflexivity].
      apply Nat.ltb_lt in E. apply IH. lia.
Qed.

(** Backward: the characters before the position are the same. *)
Lemma star_loop_cr_bwd :
  (forall i c h h', agree_on_cr f h h' ->
     body' (app_cr i) c h' = f <$> body i c h) ->
  forall n i c,
    star_loop g (remaining false) body' k' n (app_cr i) c
    = f <$> star_loop g (remaining false) body k n i c.
Proof.
  intros Hbody. induction n as [|n IH]; intros i c.
  - apply agree_k.
  - rewrite (star_loop_S g _ body'), (star_loop_S g _ body).
    rewrite (Hbody i c
               (fun i' c' =>
                  if remaining false i' <? remaining false i
                  then star_loop g (remaining false) body k n i' c' else None)).
    + rewrite (agree_k i c). destruct g; apply orelse_fmap.
    + intros j d. change (remaining false (app_cr j)) with (remaining false j).
      change (remaining false (app_cr i)) with (remaining false i).
      destruct (_ <? _); [apply IH | reflexivity].
Qed.
End StarLoopCR.

Lemma step_fwd_app_cr i :
  step true (app_cr i) =
  match after i with
  | [] => Some (CR, Input (CR :: before i) [])
  | a :: s => Some (a, app_cr (Input (a :: before i) s))
  end.
Proof. unfold step, app_cr. simpl. destruct (after i); reflexivity. Qed.

Lemma step_bwd_app_cr i :
  step false (app_cr i) =
  match before i with
  | [] => None
  | a :: s => Some (a, app_cr (Input s (a :: after i)))
  end.
Proof. unfold step, app_cr. simpl. destruct (before i); reflexivity. Qed.

Lemma agree_on_captures :
  agree_on_cr id (fun (_ : input) (c' : captures) => Some c')
                 (fun (_ : input) (c' : captures) => Some c').
Proof. intros j d. reflexivity. Qed.

Lemma fmap_id_option {A} (x : option A) : id <$> x = x.
Proof. destruct x; reflexivity. Qed.

(** A pattern accepted by [cr_ok] behaves as its mode says. *)
Lemma cr_ok_sound r : forall m, cr_ok m r = true -> cr_spec m r.
Proof.
  induction r; intros m Hok.
  - (* Eps *)
    destruct m as [fwd| |]; try discriminate; simpl; intros; auto.
  - (* Class *)
    assert (Hfwd : forall R R' (f : R -> R') k k' i c,
               agree_on_cr f k k' ->
               (p CR = false \/ fails_at_end k') ->
               rmatch true (Class p) (app_cr i) c k'
               = f <$> rmatch true (Class p) i c k).
    { intros R R' f k k' i c Hk Hcr. cbn [rmatch]. rewrite step_fwd_app_cr.
      unfold step. destruct (after i) as [|a s].
      - destruct Hcr as [-> | Hend]; [reflexivity|].
        destruct (p CR); [apply Hend | reflexivity].
      - destruct (p a); [apply Hk | reflexivity]. }
    destruct m as [[|]| |]; simpl in Hok; unfold cr_spec.
    + intros. apply Hfwd; [assumption|]. left. now apply negb_true_iff.
    + intros R R' f k k' i c Hk. cbn [rmatch]. rewrite step_bwd_app_cr.
      unfold step. destruct (before i) as [|a s]; [reflexivity|].
      destruct (p a); [apply Hk | reflexivity].
    + intros. apply Hfwd; auto.
    + split; [|reflexivity].
      intros. apply Hfwd; [assumption|]. left. now apply negb_true_iff.
  - (* Seq *)
    destruct m as [[|]| |]; simpl in Hok.
    + apply andb_true_iff in Hok as [H1 H2].
      intros R R' f k k' i c Hk. simpl.
      apply (IHr1 (Weak true) H1). intros j d. apply (IHr2 (Weak true) H2), Hk.
    + apply andb_true_iff in Hok as [H1 H2].
      intros R R' f k k' i c Hk. simpl.
      apply (IHr2 (Weak false) H2). intros j d. apply (IHr1 (Weak false) H1), Hk.
    + apply andb_true_iff in Hok as [H1 H2].
      intros R R' f k k' i c Hk Hend. simpl.
      apply (IHr1 Strong H1).
      * intros j d. apply (IHr2 Strong H2); assumption.
      * intros b d. apply rmatch_at_end, Hend.
    + apply orb_true_iff in Hok as [Hok|Hok];
        apply andb_true_iff in Hok as [H1 H2].
      * destruct (IHr2 Tail H2) as [T1 T2]. split.
        -- intros R R' f k k' i c Hk. simpl. apply (IHr1 Strong H1).
           ++ intros j d. apply T1, Hk.
           ++ intros b d. apply T2.
        -- intros R k b c. simpl. apply rmatch_at_end. intros b' d. apply T2.
      * destruct (IHr1 Tail H1) as [T1 T2]. split.
        -- intros R R' f k k' i c Hk. simpl. apply T1.
           intros j d. apply (IHr2 (Weak true) H2), Hk.
        -- intros R k b c. simpl. apply T2.
  - (* Alt *)
    simpl in Hok. apply andb_true_iff in Hok as [H1 H2].
    specialize (IHr1 m H1). specialize (IHr2 m H2).
    destruct m as [fwd| |]; simpl in *.
    + intros R R' f k k' i c Hk.
      rewrite (IHr1 _ _ f k k' i c Hk), (IHr2 _ _ f k k' i c Hk).
      apply orelse_fmap.
    + intros R R' f k k' i c Hk Hend.
      rewrite (IHr1 _ _ f k k' i c Hk Hend), (IHr2 _ _ f k k' i c Hk Hend).
      apply orelse_fmap.
    + destruct IHr1 as [A1 A2], IHr2 as [B1 B2]. split.
      * intros R R' f k k' i c Hk.
        rewrite (A1 _ _ f k k' i c Hk), (B1 _ _ f k k' i c Hk).
        apply orelse_fmap.
      * intros R k b c. rewrite A2, B2. reflexivity.
  - (* Star *)
    destruct m as [[|]| |]; simpl in Hok; try discriminate.
    + pose proof (IHr (Weak true) Hok) as W. unfold cr_spec in W |- *.
      intros R R' f k k' i c Hk. cbn [rmatch]. rewrite remaining_app_cr.
      apply (star_loop_cr_fwd f greedy _ _ k k' (fun _ => True)); auto.
      intros. now apply rmatch_fail.
    + pose proof (IHr (Weak false) Hok) as W. unfold cr_spec in W |- *.
      intros R R' f k k' i c Hk. cbn [rmatch].
      change (remaining false (app_cr i)) with (remaining false i).
      apply (star_loop_cr_bwd f greedy _ _ k k'); auto.
    + pose proof (IHr Strong Hok) as W. unfold cr_spec in W |- *.
      intros R R' f k k' i c Hk Hend. cbn [rmatch]. rewrite remaining_app_cr.
      apply (star_loop_cr_fwd f greedy _ _ k k' fails_at_end); auto.
      * intros. now apply rmatch_fail.
      * intros n j b d. cbn beta.
        change (remaining true {| before := b; after := [] |}) with 0.
        rewrite remaining_app_cr. cbn [Nat.ltb Nat.leb].
        apply star_loop_at_end; [|exact Hend].
        intros b' c' h Hh. apply rmatch_at_end, Hh.
  - (* Group *)
    simpl in Hok. specialize (IHr m Hok).
    destruct m as [fwd| |]; simpl in *.
    + intros R R' f k k' i c Hk. apply IHr. intros j d.
      rewrite between_app_cr. apply Hk.
    + intros R R' f k k' i c Hk Hend. apply IHr.
      * intros j d. rewrite between_app_cr. apply Hk.
      * intros b d. apply Hend.
    + destruct IHr as [T1 T2]. split.
      * intros R R' f k k' i c Hk. apply T1. intros j d.
        rewrite between_app_cr. apply Hk.
      * intros R k b c. apply T2.
  - (* Bol *)
    destruct m as [fwd| |]; try discriminate; simpl; intros;
      (destruct (is_nil (before i)); [auto | reflexivity]).
  - (* Eol *) discriminate.
  - (* WordB *)
    destruct m as [fwd| |]; try discriminate; simpl; intros;
      rewrite at_word_boundary_app_cr;
      (destruct (at_word_boundary i); [auto | reflexivity]).
  - (* Ahead *)
    assert (forall i c,
              cr_ok Tail r = true ->
              rmatch true r (app_cr i) c (fun _ c' => Some c')
              = rmatch true r i c (fun _ c' => Some c')) as Hlook.
    { intros i c H. destruct (IHr Tail H) as [T1 _].
      rewrite (T1 _ _ id _ _ i c agree_on_captures). apply fmap_id_option. }
    destruct m as [fwd| |]; try discriminate; simpl in Hok |- *; intros;
      rewrite (Hlook _ _ Hok);
      (destruct (rmatch true r i c _); [auto | reflexivity]).
  - (* Behind *)
    assert (forall i c,
              cr_ok (Weak false) r = true ->
              rmatch false r (app_cr i) c (fun _ c' => Some c')
              = rmatch false r i c (fun _ c' => Some c')) as Hlook.
    { intros i c H. pose proof (IHr (Weak false) H) as W. simpl in W.
      rewrite (W _ _ id _ _ i c agree_on_captures). apply fmap_id_option. }
    destruct m as [fwd| |]; try discriminate; simpl in Hok |- *; intros;
      rewrite (Hlook _ _ Hok);
      (destruct (rmatch false r i c _); [auto | reflexivity]).
Qed.

(** A forward match hands over to its continuation at a position that is
    not before the one it started from. *)
Lemma star_loop_mono {R} g body (k : input -> captures -> option R) :
  (forall i c h res,
     body i c h = Some res ->
     exists j d, length (after j) <= length (after i) /\ h j d = Some res) ->
  forall n i c res,
    star_loop g (remaining true) body k n i c = Some res ->
    exists j d, length (after j) <= length (after i) /\ k j d = Some res.
Proof.
  intros Hbody. induction n as [|n IH]; intros i c res H.
  - exists i, c. split; [lia | exact H].
  - rewrite star_loop_S in H.
    assert (forall x, x = Some res ->
              x = k i c \/
              x = body i c (fun i' c' =>
                     if remaining true i' <? remaining true i
                     then star_loop g (remaining true) body k n i' c'
                     else None) ->
              exists j d, length (after j) <= length (after i) /\
                          k j d = Some res) as Hcase.
    { intros x Hx [E|E]; subst x.
      - exists i, c. split; [lia | now symmetry].
      - symmetry in E. apply Hbody in E as (j & d & Hj & E).
        destruct (remaining true j <? remaining true i); [|discriminate].
        apply IH in E as (j' & d' & Hj' & E). exists j', d'. split; [lia | exact E]. }
    destruct g.
    + destruct (body i c _) eqn:E; simpl in H; apply (Hcase _ H); auto.
    + destruct (k i c) eqn:E; simpl in H; apply (Hcase _ H); auto.
Qed.

Lemma rmatch_mono {R} (r : regex) :
  forall i c (k : input -> captures -> option R) res,
    rmatch true r i c k = Some res ->
    exists j d, length (after j) <= length (after i) /\ k j d = Some res.
Proof.
  induction r; intros i c k res H; cbn [rmatch] in H.
  - exists i, c. split; [lia | exact H].
  - unfold step in H. destruct (after i) as [|a s] eqn:E; [discriminate|].
    destruct (p a); [|discriminate].
    eexists _, c. split; [|exact H]. simpl. lia.
  - apply IHr1 in H as (j & d & Hj & H). apply IHr2 in H as (j' & d' & Hj' & H).
    exists j', d'. split; [lia | exact H].
  - destruct (rmatch true r1 i c k) eqn:E; simpl in H.
    + rewrite <- H in *. eapply IHr1; eauto.
    + eapply IHr2; eauto.
  - eapply star_loop_mono; [|exact H]. intros; eapply IHr; eauto.
  - apply IHr in H as (j & d & Hj & H). eexists j, _. split; [exact Hj | exact H].
  - destruct (is_nil (before i)); [|discriminate].
    exists i, c. split; [lia | exact H].
  - destruct (is_nil (after i)); [|discriminate].
    exists i, c. split; [lia | exact H].
  - destruct (at_word_boundary i); [|discriminate].
    exists i, c. split; [lia | exact H].
  - destruct (rmatch true r i c _) as [c'|]; [|discriminate].
    exists i, c'. split; [lia | exact H].
  - destruct (rmatch false r i c _) as [c'|]; [|discriminate].
    exists i, c'. split; [lia | exact H].
Qed.

Lemma match_at_end_bound r i m :
  match_at r i = Some m ->
  m_start m = i /\ length (after (m_end m)) <= length (after i).
Proof.
  unfold match_at. intros H. apply rmatch_mono in H as (j & d & Hj & H).
  injection H as <-. simpl. split; [reflexivity | exact Hj].
Qed.

Lemma exec_from_end_bound r n :
  forall i m,
    exec_from r n i = Some m ->
    length (after (m_end m)) <= length (after i).
Proof.
  induction n as [|n IH]; intros i m H; simpl in H.
  - destruct (match_at r i) eqn:E; [|discriminate]. injection H as <-.
    now apply match_at_end_bound in E.
  - destruct (match_at r i) eqn:E.
    + injection H as <-. now apply match_at_end_bound in E.
    + unfold step in H. destruct (after i) as [|a s] eqn:Ea; [discriminate|].
      apply IH in H. cbn [after] in H. cbn [length]. lia.
Qed.

Section TailPattern.

Variable r : regex.
Hypothesis r_tail : cr_ok Tail r = true.

Lemma match_at_app_cr i :
  match_at r (app_cr i) = lift_cr <$> match_at r i.
Proof.
  destruct (cr_ok_sound r Tail r_tail) as [T1 _].
  unfold match_at. apply T1. intros j d. reflexivity.
Qed.

Lemma match_at_end b : match_at r (Input b []) = None.
Proof.
  destruct (cr_ok_sound r Tail r_tail) as [_ T2]. apply T2.
Qed.

Lemma exec_from_at_end n b : exec_from r n (Input b []) = None.
Proof. destruct n; simpl; rewrite match_at_end; reflexivity. Qed.

Lemma exec_from_app_cr n :
  forall i,
    length (after i) <= n ->
    exec_from r (S n) (app_cr i) = lift_cr <$> exec_from r n i.
Proof.
  induction n as [|n IH]; intros i Hn.
  - destruct (after i) as [|a s] eqn:E; [|simpl in Hn; lia].
    cbn [exec_from]. rewrite match_at_app_cr, step_fwd_app_cr, E.
    destruct (match_at r i); [reflexivity|]. simpl.
    rewrite match_at_end. reflexivity.
  - change (exec_from r (S (S n)) (app_cr i))
      with (match match_at r (app_cr i) with
            | Some m => Some m
            | None =>
                match step true (app_cr i) with
                | Some (_, i') => exec_from r (S n) i'
                | None => None
                end
            end).
    change (exec_from r (S n) i)
      with (match match_at r i with
            | Some m => Some m
            | None =>
                match step true i with
                | Some (_, i') => exec_from r n i'
                | None => None
                end
            end).
    rewrite match_at_app_cr, step_fwd_app_cr.
    destruct (match_at r i); [reflexivity|]. simpl.
    unfold step. destruct (after i) as [|a s] eqn:E.
    + rewrite match_at_end. reflexivity.
    + apply IH. simpl. simpl in Hn. lia.
Qed.

Lemma str_app s1 s2 : str (s1 ++ s2)%string = str s1 ++ str s2.
Proof. induction s1 as [|a s1 IH]; simpl; [reflexivity | now rewrite IH]. Qed.

Lemma exec_app_cr s : exec r (s ++ cr)%string = lift_cr <$> exec r s.
Proof.
  unfold exec. rewrite str_app. change (str cr) with [CR].
  change (at_start (str s ++ [CR])) with (app_cr (at_start (str s))).
  cbn [after app_cr at_start]. rewrite length_app.
  change (length [CR]) with 1. rewrite Nat.add_1_r.
  apply exec_from_app_cr. simpl. lia.
Qed.

Lemma group_lift_cr n m : group n (lift_cr m) = group n m.
Proof. reflexivity. Qed.

Lemma whole_lift_cr m : whole (lift_cr m) = whole m.
Proof. unfold whole. simpl. apply between_app_cr. Qed.

Lemma match_all_from_at_end n b : match_all_from r n (Input b []) = [].
Proof. destruct n; simpl; [reflexivity|]. now rewrite match_at_end. Qed.

Lemma match_all_from_app_cr n :
  forall i,
    length (after i) < n ->
    match_all_from r (S n) (app_cr i) = match_all_from r n i.
Proof.
  induction n as [|n IH]; intros i Hn; [lia|].
  change (match_all_from r (S (S n)) (app_cr i))
    with (match exec_from r (length (after (app_cr i))) (app_cr i) with
          | None => []
          | Some m =>
              let j := m_end m in
              if length (after j) <? length (after (app_cr i)) then
                whole m :: match_all_from r (S n) j
              else
                whole m ::
                  match step true j with
                  | Some (_, j') => match_all_from r (S n) j'
                  | None => []
                  end
          end).
  change (match_all_from r (S n) i)
    with (match exec_from r (length (after i)) i with
          | None => []
          | Some m =>
              let j := m_end m in
              if length (after j) <? length (after i) then
                whole m :: match_all_from r n j
              else
                whole m ::
                  match step true j with
                  | Some (_, j') => match_all_from r n j'
                  | None => []
                  end
          end).
  replace (length (after (app_cr i))) with (S (length (after i)))
    by (unfold app_cr; simpl; rewrite length_app; simpl; lia).
  rewrite exec_from_app_cr by lia.
  destruct (exec_from r (length (after i)) i) as [m|] eqn:E; [|reflexivity].
  pose proof (exec_from_end_bound _ _ _ _ E) as Hend.
  cbn [fmap option_fmap option_map lift_cr m_end]. cbv zeta.
  rewrite whole_lift_cr.
  replace (length (after (app_cr (m_end m)))) with (S (length (after (m_end m))))
    by (unfold app_cr; simpl; rewrite length_app; simpl; lia).
  change (S (length (after (m_end m))) <? S (length (after i)))
    with (length (after (m_end m)) <? length (after i)).
  destruct (length (after (m_end m)) <? length (after i)) eqn:Hlt.
  - apply Nat.ltb_lt in Hlt. f_equal. apply IH. lia.
  - f_equal. rewrite step_fwd_app_cr. unfold step.
    destruct (after (m_end m)) as [|a s] eqn:Ea.
    + apply match_all_from_at_end.
    + apply IH. simpl. simpl in Hend. lia.
Qed.

Lemma string_length_str s : String.length s = length (str s).
Proof. induction s; simpl; congruence. Qed.

Lemma match_all_app_cr s : match_all r (s ++ cr)%string = match_all r s.
Proof.
  unfold match_all. rewrite !string_length_str, str_app.
  change (str cr) with [CR].
  change (at_start (str s ++ [CR])) with (app_cr (at_start (str s))).
  rewrite length_app. change (length [CR]) with 1. rewrite Nat.add_1_r.
  rewrite match_all_from_app_cr; [reflexivity | simpl; lia].
Qed.

End TailPattern.

Lemma extractClassName_cr l' l :
  same_line l' l -> extractClassName l' = extractClassName l.
Proof.
  intros [-> | ->]; [reflexivity|]. unfold extractClassName.
  rewrite exec_app_cr by reflexivity.
  destruct (exec _ l); reflexivity.
Qed.

Lemma extractActorName_cr l' l :
  same_line l' l -> extractActorName l' = extractActorName l.
Proof.
  intros [-> | ->]; [reflexivity|]. unfold extractActorName.
  rewrite exec_app_cr by reflexivity.
  destruct (exec _ l); reflexivity.
Qed.

Lemma extractFunctionNameWithOptionalIo_cr l' l :
  same_line l' l ->
  extractFunctionNameWithOptionalIo l' = extractFunctionNameWithOptionalIo l.
Proof.
  intros [-> | ->]; [reflexivity|]. unfold extractFunctionNameWithOptionalIo.
  rewrite exec_app_cr by reflexivity.
  destruct (exec _ l); reflexivity.
Qed.

Lemma extractDeclarationKeywordAndName_cr l' l :
  same_line l' l ->
  extractDeclarationKeywordAndName l' = extractDeclarationKeywordAndName l.
Proof.
  intros [-> | ->]; [reflexivity|]. unfold extractDeclarationKeywordAndName.
  rewrite exec_app_cr by reflexivity.
  destruct (exec _ l); reflexivity.
Qed.

Lemma Rev1_parseArguments_cr l' l i :
  same_line l' l -> Rev1.parseArguments l' i = Rev1.parseArguments l i.
Proof.
  intros [-> | ->]; [reflexivity|]. unfold Rev1.parseArguments.
  now rewrite match_all_app_cr by reflexivity.
Qed.

Lemma Rev2_parseArguments_cr l' l i :
  same_line l' l -> Rev2.parseArguments l' i = Rev2.parseArguments l i.
Proof.
  intros [-> | ->]; [reflexivity|]. unfold Rev2.parseArguments.
  now rewrite match_all_app_cr by reflexivity.
Qed.

Lemma is_prefix_app_cr p :
  no_cr p = true -> forall l, is_prefix p (l ++ [CR]) = is_prefix p l.
Proof.
  induction p as [|a p IH]; intros Hp l; [reflexivity|].
  simpl in Hp. apply andb_true_iff in Hp as [Ha Hp].
  destruct l as [|b l]; simpl.
  - apply negb_true_iff in Ha. rewrite Ha. reflexivity.
  - now rewrite IH.
Qed.

Lemma includes_chars_app_cr p :
  no_cr p = true ->
  forall l, includes_chars (l ++ [CR]) p = includes_chars l p.
Proof.
  intros Hp. induction l as [|b l IH].
  - simpl. pose proof (is_prefix_app_cr p Hp []) as H. simpl in H. rewrite H.
    destruct (is_prefix p []); reflexivity.
  - change (includes_chars ((b :: l) ++ [CR]) p)
      with (is_prefix p ((b :: l) ++ [CR]) || includes_chars (l ++ [CR]) p).
    rewrite is_prefix_app_cr by exact Hp. rewrite IH. reflexivity.
Qed.

Lemma isControlLine_cr l' l :
  same_line l' l -> isControlLine l' = isControlLine l.
Proof.
  intros [-> | ->]; [reflexivity|]. unfold isControlLine, includes.
  rewrite str_app. change (str cr) with [CR].
  now rewrite !includes_chars_app_cr by reflexivity.
Qed.

Lemma scanBraces_app_cr l :
  forall b f, scanBraces (l ++ [CR]) b f = scanBraces l b f.
Proof.
  induction l as [|c l IH]; intros b f; [reflexivity|].
  change ((c :: l) ++ [CR]) with (c :: (l ++ [CR])).
  rewrite !scanBraces_cons, !IH. reflexivity.
Qed.

Lemma scanBraces_cr l' l b f :
  same_line l' l -> scanBraces (str l') b f = scanBraces (str l) b f.
Proof.
  intros [-> | ->]; [reflexivity|]. rewrite str_app. apply scanBraces_app_cr.
Qed.

Section SameLines.

Variables lines' lines : list string.
Hypothesis same_lines : Forall2 same_line lines' lines.

Variable parseArguments : string -> nat -> list ASTNode.
Hypothesis parseArguments_cr :
  forall l' l i, same_line l' l -> parseArguments l' i = parseArguments l i.

Lemma same_length : length lines' = length lines.
Proof. eapply Forall2_length; eauto. Qed.

Lemma findBlockEnd_loop_same ls' ls :
  Forall2 same_line ls' ls ->
  forall i b f,
    findBlockEnd_loop lines' ls' i b f = findBlockEnd_loop lines ls i b f.
Proof.
  induction 1 as [|l' l ls' ls Hl Hls IH]; intros i b f; simpl.
  - now rewrite same_length.
  - rewrite (scanBraces_cr _ _ b f Hl).
    destruct (scanBraces (str l) b f) as [[b' f']|]; [apply IH | reflexivity].
Qed.

Lemma findBlockEnd_same i : findBlockEnd lines' i = findBlockEnd lines i.
Proof.
  unfold findBlockEnd. apply findBlockEnd_loop_same.
  now apply Forall2_drop.
Qed.

Lemma lookup_same i :
  match lines' !! i, lines !! i with
  | Some l', Some l => same_line l' l
  | None, None => True
  | _, _ => False
  end.
Proof.
  destruct (lines' !! i) as [l'|] eqn:E'.
  - destruct (Forall2_lookup_l _ _ _ _ _ same_lines E') as (l & -> & H). exact H.
  - apply lookup_ge_None in E'. rewrite same_length in E'.
    apply lookup_ge_None in E'. now rewrite E'.
Qed.

Lemma parseBlockContent_same fuel :
  forall i e,
    parseBlockContent lines' parseArguments fuel i e
    = parseBlockContent lines parseArguments fuel i e.
Proof.
  induction fuel as [|fuel IH]; intros i e; [reflexivity|]. simpl.
  destruct (e <? i); [reflexivity|].
  pose proof (lookup_same i) as Hl.
  destruct (lines' !! i) as [l'|], (lines !! i) as [l|]; try contradiction;
    [|reflexivity].
  simpl. rewrite (extractFunctionNameWithOptionalIo_cr _ _ Hl),
    (extractDeclarationKeywordAndName_cr _ _ Hl), (isControlLine_cr _ _ Hl),
    (parseArguments_cr _ _ i Hl), findBlockEnd_same, !IH.
  reflexivity.
Qed.

Lemma parseTopLevel_same fuel :
  forall i e,
    parseTopLevel lines' parseArguments fuel i e
    = parseTopLevel lines parseArguments fuel i e.
Proof.
  induction fuel as [|fuel IH]; intros i e; [reflexivity|]. simpl.
  destruct (e <? i); [reflexivity|].
  pose proof (lookup_same i) as Hl.
  destruct (lines' !! i) as [l'|], (lines !! i) as [l|]; try contradiction;
    [|reflexivity].
  simpl. rewrite (extractClassName_cr _ _ Hl), (extractActorName_cr _ _ Hl),
    (parseArguments_cr _ _ i Hl), findBlockEnd_same, !IH,
    !parseBlockContent_same.
  reflexivity.
Qed.

Lemma parse_lines_same :
  parse_lines lines' parseArguments = parse_lines lines parseArguments.
Proof.
  unfold parse_lines. now rewrite same_length, parseTopLevel_same.
Qed.

End SameLines.

Lemma unstr_snoc l a : unstr (l ++ [a]) = (unstr l ++ String a "")%string.
Proof. induction l as [|b l IH]; simpl; [reflexivity | now rewrite IH]. Qed.

Lemma split_chars_crlf s :
  forall cur,
    Forall2 same_line (split_chars LF cur (str (crlf s)))
                      (split_chars LF cur (str s)).
Proof.
  induction s as [|a s IH]; intros cur; simpl.
  - constructor; [now left | constructor].
  - destruct (Ascii.eqb a LF) eqn:E; simpl.
    + constructor; [|apply IH]. right. apply unstr_snoc.
    + rewrite E. apply IH.
Qed.

Lemma split_crlf text :
  Forall2 same_line (split LF (crlf text)) (split LF text).
Proof. apply split_chars_crlf. Qed.

(** C8: the tree of a text with CR LF line endings is the tree of the
    same text with LF line endings, and [parse] returns it. *)
Theorem C8_line_endings_do_not_matter (text : string) :
  both_revisions (fun parse =>
    exists root, parse text = Some root /\ parse (crlf text) = Some root).
Proof.
  destruct (parse_ok_both text) as [(r1 & H1 & _) (r2 & H2 & _)]. split.
  - exists r1. split; [exact H1|]. rewrite <- H1. unfold Rev1.parse.
    apply parse_lines_same; [apply split_crlf|].
    intros; now apply Rev1_parseArguments_cr.
  - exists r2. split; [exact H2|]. rewrite <- H2. unfold Rev2.parse.
    apply parse_lines_same; [apply split_crlf|].
    intros; now apply Rev2_parseArguments_cr.
Qed.

(** ** The matcher and the paths of a pattern

    Whatever the matcher returns comes from a path of the pattern
    (soundness), and a path whose continuation succeeds is found
    (completeness). *)

Lemma star_loop_sound {R} g fwd r (k : input -> captures -> option R) :
  (forall i c (h : input -> captures -> option R) res,
     rmatch fwd r i c h = Some res ->
     exists j c', Reach fwd r i c j c' /\ h j c' = Some res) ->
  forall n i c res,
    star_loop g (remaining fwd) (rmatch fwd r) k n i c = Some res ->
    exists j c', Reach fwd (Star g r) i c j c' /\ k j c' = Some res.
Proof.
  intros Hbody. induction n as [|n IH]; intros i c res H.
  - exists i, c. split; [constructor | exact H].
  - rewrite star_loop_S in H.
    assert (forall x, x = Some res ->
              x = k i c \/
              x = rmatch fwd r i c (fun i' c' =>
                     if remaining fwd i' <? remaining fwd i
                     then star_loop g (remaining fwd) (rmatch fwd r) k n i' c'
                     else None) ->
              exists j c', Reach fwd (Star g r) i c j c' /\ k j c' = Some res)
      as Hcase.
    { intros x Hx [E|E]; subst x.
      - exists i, c. split; [constructor | now symmetry].
      - symmetry in E. apply Hbody in E as (m & c1 & Hm & E).
        destruct (Nat.ltb_spec (remaining fwd m) (remaining fwd i)) as [Hlt|];
          [|discriminate].
        apply IH in E as (j & c' & Hj & E). exists j, c'.
        split; [|exact E]. eapply Reach_Star_more; eauto. }
    destruct g.
    + destruct (rmatch fwd r i c _) eqn:E; simpl in H; apply (Hcase _ H); auto.
    + destruct (k i c) eqn:E; simpl in H; apply (Hcase _ H); auto.
Qed.

(** Soundness of the matcher: a result comes from a path to a position at
    which the continuation gives this result. *)
Lemma rmatch_sound (r : regex) :
  forall R fwd i c (k : input -> captures -> option R) res,
    rmatch fwd r i c k = Some res ->
    exists j c', Reach fwd r i c j c' /\ k j c' = Some res.
Proof.
  induction r; intros R fwd i c k res H; cbn [rmatch] in H.
  - exists i, c. split; [constructor | exact H].
  - destruct (step fwd i) as [[a i']|] eqn:E; [|discriminate].
    destruct (p a) eqn:Ep; [|discriminate].
    exists i', c. split; [econstructor; eauto | exact H].
  - destruct fwd.
    + apply IHr1 in H as (m & c1 & H1 & H). apply IHr2 in H as (j & c2 & H2 & H).
      exists j, c2. split; [econstructor; eauto | exact H].
    + apply IHr2 in H as (m & c1 & H1 & H). apply IHr1 in H as (j & c2 & H2 & H).
      exists j, c2. split; [econstructor; eauto | exact H].
  - destruct (rmatch fwd r1 i c k) eqn:E; simpl in H.
    + rewrite H in E. apply IHr1 in E as (j & c' & Hj & E).
      exists j, c'. split; [now apply Reach_Alt_l | exact E].
    + apply IHr2 in H as (j & c' & Hj & H).
      exists j, c'. split; [now apply Reach_Alt_r | exact H].
  - eapply star_loop_sound; [|exact H]. intros; eapply IHr; eauto.
  - apply IHr in H as (j & c1 & Hj & H).
    exists j, ((n, between i j) :: c1). split; [now constructor | exact H].
  - destruct (is_nil (before i)) eqn:E; [|discriminate].
    exists i, c. split; [now constructor | exact H].
  - destruct (is_nil (after i)) eqn:E; [|discriminate].
    exists i, c. split; [now constructor | exact H].
  - destruct (at_word_boundary i) eqn:E; [|discriminate].
    exists i, c. split; [now constructor | exact H].
  - destruct (rmatch true r i c _) as [c'|] eqn:E; [|discriminate].
    apply IHr in E as (j & c'' & Hj & E). injection E as ->.
    exists i, c'. split; [econstructor; eauto | exact H].
  - destruct (rmatch false r i c _) as [c'|] eqn:E; [|discriminate].
    apply IHr in E as (j & c'' & Hj & E). injection E as ->.
    exists i, c'. split; [econstructor; eauto | exact H].
Qed.

(** The loop of a quantifier needs no more fuel than there are characters
    left. *)
Lemma star_loop_fuel {R} g fwd r (k : input -> captures -> option R) :
  forall n m i c,
    remaining fwd i <= n -> remaining fwd i <= m ->
    star_loop g (remaining fwd) (rmatch fwd r) k n i c
    = star_loop g (remaining fwd) (rmatch fwd r) k m i c.
Proof.
  assert (forall n i c, remaining fwd i = 0 ->
            star_loop g (remaining fwd) (rmatch fwd r) k n i c = k i c) as Hzero.
  { intros [|n] i c Hi; [reflexivity|]. rewrite star_loop_S.
    rewrite (rmatch_fail r).
    - destruct g; [reflexivity | apply orelse_None_r].
    - intros j d. rewrite Hi. reflexivity. }
  induction n as [|n IH]; intros m i c Hn Hm.
  - rewrite !Hzero by lia. reflexivity.
  - destruct m as [|m]; [rewrite !Hzero by lia; reflexivity|].
    rewrite !star_loop_S.
    rewrite (rmatch_ext r fwd i c
               (fun i' c' =>
                  if remaining fwd i' <? remaining fwd i
                  then star_loop g (remaining fwd) (rmatch fwd r) k m i' c'
                  else None)
               (fun i' c' =>
                  if remaining fwd i' <? remaining fwd i
                  then star_loop g (remaining fwd) (rmatch fwd r) k n i' c'
                  else None)); [reflexivity|].
    intros j d.
    destruct (Nat.ltb_spec (remaining fwd j) (remaining fwd i)); [|reflexivity].
    apply IH; lia.
Qed.

Lemma orelse_is_Some_l {R} (x y : option R) : is_Some x -> is_Some (orelse x y).
Proof. intros [v ->]. simpl. eauto. Qed.

Lemma orelse_is_Some_r {R} (x y : option R) : is_Some y -> is_Some (orelse x y).
Proof. intros [v ->]. destruct x; simpl; eauto. Qed.

(** Completeness of the matcher: where there is a path to a position at
    which the continuation succeeds whatever the captures, the match
    succeeds. *)
Lemma rmatch_complete fwd r i c j c' :
  Reach fwd r i c j c' ->
  forall R (k : input -> captures -> option R) c0,
    (forall d, is_Some (k j d)) -> is_Some (rmatch fwd r i c0 k).
Proof.
  induction 1; intros R k c0 Hk; cbn [rmatch].
  - apply Hk.
  - rewrite H, H0. apply Hk.
  - apply IHReach1. intros d. apply IHReach2. exact Hk.
  - apply IHReach1. intros d. apply IHReach2. exact Hk.
  - apply orelse_is_Some_l. now apply IHReach.
  - apply orelse_is_Some_r. now apply IHReach.
  - destruct (remaining fwd i) as [|n]; [apply Hk|]. rewrite star_loop_S.
    destruct g; [apply orelse_is_Some_r | apply orelse_is_Some_l]; apply Hk.
  - destruct (remaining fwd i) as [|n] eqn:En; [lia|]. rewrite star_loop_S.
    assert (is_Some
              (rmatch fwd r i c0
                 (fun i' c' =>
                    if remaining fwd i' <? remaining fwd i
                    then star_loop g (remaining fwd) (rmatch fwd r) k n i' c'
                    else None))) as Hmore.
    { apply IHReach1. intros d.
      destruct (Nat.ltb_spec (remaining fwd m) (remaining fwd i)); [|lia].
      rewrite (star_loop_fuel g fwd r k n (remaining fwd m)) by lia.
      apply (IHReach2 R k d Hk). }
    destruct g; [apply orelse_is_Some_l | apply orelse_is_Some_r]; exact Hmore.
  - apply IHReach. intros d. apply Hk.
  - rewrite H. apply Hk.
  - rewrite H. apply Hk.
  - rewrite H. apply Hk.
  - destruct (IHReach _ (fun (_ : input) c' => Some c') c0) as [c'' ->];
      [eauto | apply Hk].
  - destruct (IHReach _ (fun (_ : input) c' => Some c') c0) as [c'' ->];
      [eauto | apply Hk].
Qed.

(** *** Spans, words and groups *)

Lemma str_unstr l : str (unstr l) = l.
Proof. apply list_ascii_of_string_of_list_ascii. Qed.

Lemma unstr_str s : unstr (str s) = s.
Proof. apply string_of_list_ascii_of_string. Qed.

Lemma starL_snoc L w1 w2 : starL L w1 -> L w2 -> starL L (w1 ++ w2).
Proof.
  induction 1 as [|u v Hu Hv IH]; intros H2.
  - simpl. rewrite <- (app_nil_r w2). constructor; [exact H2 | constructor].
  - rewrite <- app_assoc. constructor; auto.
Qed.

Lemma span_refl i : span i i [].
Proof. split; reflexivity. Qed.

Lemma span_trans i m j w1 w2 : span i m w1 -> span m j w2 -> span i j (w1 ++ w2).
Proof.
  intros [A1 B1] [A2 B2]. split.
  - rewrite A1, A2. now rewrite app_assoc.
  - rewrite B2, B1, rev_app_distr. now rewrite app_assoc.
Qed.

Lemma step_span fwd i a i' :
  step fwd i = Some (a, i') -> consumed fwd i i' [a].
Proof.
  unfold step, consumed, span. destruct fwd.
  - destruct (after i) as [|x s] eqn:E; [discriminate|]. intros [= <- <-]. now simpl.
  - destruct (before i) as [|x s] eqn:E; [discriminate|]. intros [= <- <-]. now simpl.
Qed.

Lemma consumed_nil fwd i : consumed fwd i i [].
Proof. destruct fwd; apply span_refl. Qed.

(** The text consumed on a path is a word of the pattern. *)
Lemma Reach_consumed fwd r i c j c' :
  Reach fwd r i c j c' -> exists w, lang r w /\ consumed fwd i j w.
Proof.
  induction 1; cbn [lang];
    try (exists []; split; [reflexivity | apply consumed_nil]).
  - exists [a]. split; [eauto | now apply step_span].
  - destruct IHReach1 as (w1 & L1 & S1), IHReach2 as (w2 & L2 & S2).
    exists (w1 ++ w2). split; [eauto|]. eapply span_trans; eauto.
  - destruct IHReach1 as (w2 & L2 & S2), IHReach2 as (w1 & L1 & S1).
    exists (w1 ++ w2). split; [eauto|]. simpl in *. eapply span_trans; eauto.
  - destruct IHReach as (w & L & S). eauto.
  - destruct IHReach as (w & L & S). eauto.
  - exists []. split; [constructor | apply consumed_nil].
  - destruct IHReach1 as (w1 & L1 & S1), IHReach2 as (w2 & L2 & S2).
    destruct fwd; simpl in *.
    + exists (w1 ++ w2). split; [now constructor | eapply span_trans; eauto].
    + exists (w2 ++ w1). split; [now apply starL_snoc | eapply span_trans; eauto].
  - destruct IHReach as (w & L & S). eauto.
Qed.

Lemma between_span i j w : span i j w -> between i j = unstr w /\ between j i = unstr w.
Proof.
  intros [A B]. unfold between. rewrite A, length_app.
  assert (take (length w) (w ++ after j) = w) as Hw
    by now rewrite firstn_app, firstn_all, Nat.sub_diag, app_nil_r.
  split.
  - replace (length (after j) <=? length w + length (after j)) with true
      by (symmetry; apply Nat.leb_le; lia).
    replace (length w + length (after j) - length (after j)) with (length w) by lia.
    now rewrite Hw.
  - destruct (Nat.leb_spec (length w + length (after j)) (length (after j))) as [Hl|Hl].
    + assert (w = []) as -> by (destruct w; [reflexivity | simpl in Hl; lia]).
      now rewrite Nat.sub_diag.
    + replace (length w + length (after j) - length (after j)) with (length w) by lia.
      now rewrite Hw.
Qed.

Lemma between_consumed fwd i j w : consumed fwd i j w -> between i j = unstr w.
Proof. destruct fwd; intros H; apply between_span in H; tauto. Qed.

Lemma span_subject i j w : span i j w -> subject j = subject i.
Proof.
  intros [A B]. unfold subject. rewrite A, B, rev_app_distr, rev_involutive.
  now rewrite app_assoc.
Qed.

Lemma consumed_subject fwd i j w : consumed fwd i j w -> subject j = subject i.
Proof. destruct fwd; intros H; apply span_subject in H; congruence. Qed.

Lemma span_substring i j w : span i j w -> substring (unstr w) (subject i).
Proof.
  intros [A B]. exists (rev (before i)), (after j).
  unfold subject. now rewrite A, str_unstr.
Qed.

Lemma consumed_substring fwd i j w :
  consumed fwd i j w -> substring (unstr w) (subject i).
Proof.
  destruct fwd; intros H; [now apply span_substring in H|].
  simpl in H. rewrite (span_subject _ _ _ H). now apply span_substring in H.
Qed.

(** Captured groups are words of the patterns their groups enclose. *)
Lemma Reach_groups n (L : chars -> Prop) fwd r i c j c' :
  Reach fwd r i c j c' -> groups_in n L r ->
  (forall s, capture n c = Some s -> L (str s)) ->
  forall s, capture n c' = Some s -> L (str s).
Proof.
  induction 1; cbn [groups_in]; intros G Hc; auto; try tauto.
  - destruct G as [G1 G2]. intros s. cbn [capture].
    destruct (Nat.eqb_spec n0 n) as [->|Hn]; [|now apply IHReach].
    intros [= <-]. apply Reach_consumed in H as (w & Lw & Sw).
    rewrite (between_consumed _ _ _ _ Sw), str_unstr. now apply G1.
Qed.

(** Captured groups are pieces of the subject. *)
Lemma Reach_substring fwd r i c j c' :
  Reach fwd r i c j c' ->
  (forall n s, capture n c = Some s -> substring s (subject i)) ->
  subject j = subject i /\
  forall n s, capture n c' = Some s -> substring s (subject i).
Proof.
  induction 1; intros Hc; auto.
  - split; [|exact Hc]. apply step_span in H. eapply consumed_subject; eauto.
  - destruct (IHReach1 Hc) as [S1 C1]. rewrite <- S1 in C1.
    destruct (IHReach2 C1) as [S2 C2]. rewrite S1 in C2. split; [congruence | exact C2].
  - destruct (IHReach1 Hc) as [S1 C1]. rewrite <- S1 in C1.
    destruct (IHReach2 C1) as [S2 C2]. rewrite S1 in C2. split; [congruence | exact C2].
  - destruct (IHReach1 Hc) as [S1 C1]. rewrite <- S1 in C1.
    destruct (IHReach2 C1) as [S2 C2]. rewrite S1 in C2. split; [congruence | exact C2].
  - destruct (IHReach Hc) as [S1 C1]. split; [exact S1|].
    intros k s. cbn [capture]. destruct (Nat.eqb_spec n k) as [->|Hn]; [|apply C1].
    intros [= <-]. apply Reach_consumed in H as (w & Lw & Sw).
    rewrite (between_consumed _ _ _ _ Sw). eapply consumed_substring; eauto.
  - destruct (IHReach Hc) as [S1 C1]. split; [reflexivity | exact C1].
  - destruct (IHReach Hc) as [S1 C1]. split; [reflexivity | exact C1].
Qed.

(** What [exec] returns: a path of the pattern between two positions of
    the subject, with the groups it captured. *)
Lemma match_at_sound r i m :
  match_at r i = Some m ->
  m_start m = i /\ Reach true r i [] (m_end m) (m_groups m).
Proof.
  unfold match_at. intros H. apply rmatch_sound in H as (j & c' & Hj & E).
  injection E as <-. simpl. auto.
Qed.

Lemma exec_from_sound r n :
  forall i m,
    exec_from r n i = Some m ->
    subject (m_start m) = subject i /\
    Reach true r (m_start m) [] (m_end m) (m_groups m).
Proof.
  induction n as [|n IH]; intros i m H; cbn [exec_from] in H.
  - destruct (match_at r i) eqn:E; [|discriminate]. injection H as <-.
    apply match_at_sound in E as [-> E]. auto.
  - destruct (match_at r i) eqn:E.
    + injection H as <-. apply match_at_sound in E as [-> E]. auto.
    + destruct (step true i) as [[a i']|] eqn:Es; [|discriminate].
      apply IH in H as [S H]. split; [|exact H].
      rewrite S. apply step_span in Es. eapply (consumed_subject true); eauto.
Qed.

Lemma subject_at_start l : subject (at_start l) = l.
Proof. reflexivity. Qed.

Lemma exec_sound r s m :
  exec r s = Some m ->
  subject (m_start m) = str s /\
  Reach true r (m_start m) [] (m_end m) (m_groups m).
Proof. unfold exec. intros H. now apply exec_from_sound in H. Qed.

(** The groups of a match of [exec]. *)
Lemma exec_group n (L : chars -> Prop) r s m x :
  exec r s = Some m -> groups_in n L r -> group n m = Some x -> L (str x).
Proof.
  intros H G Hx. apply exec_sound in H as [_ H].
  eapply Reach_groups; eauto. discriminate.
Qed.

Lemma exec_group_substring r s m n x :
  exec r s = Some m -> group n m = Some x -> substring x (str s).
Proof.
  intros H Hx. apply exec_sound in H as [S H].
  apply Reach_substring in H as [_ H]; [|discriminate].
  rewrite <- S. eapply H; eauto.
Qed.

(** The matched text is a word of the pattern and a piece of the
    subject. *)
Lemma exec_whole r s m :
  exec r s = Some m -> lang r (str (whole m)) /\ substring (whole m) (str s).
Proof.
  intros H. apply exec_sound in H as [S H].
  apply Reach_consumed in H as (w & Lw & Sw). unfold whole.
  rewrite (between_consumed _ _ _ _ Sw), str_unstr. split; [exact Lw|].
  rewrite <- S. eapply consumed_substring; eauto.
Qed.

(** A path from the first position tried gives a match. *)
Lemma exec_complete r s j c' :
  Reach true r (at_start (str s)) [] j c' -> matches r s = true.
Proof.
  intros H. unfold matches, exec.
  assert (is_Some (match_at r (at_start (str s)))) as [m Hm].
  { unfold match_at. eapply rmatch_complete; eauto. }
  destruct (length _); simpl; rewrite Hm; reflexivity.
Qed.

(** ** The pattern library: the names it extracts *)

Lemma lang_star_class g p w : lang (Star g (Class p)) w -> forallb p w = true.
Proof.
  cbn [lang]. induction 1 as [|w1 w2 (a & -> & Ha) _ IH]; [reflexivity|].
  simpl. now rewrite Ha, IH.
Qed.

Lemma lang_plus_class g p w :
  lang (Plus g (Class p)) w -> w <> [] /\ forallb p w = true.
Proof.
  intros (w1 & w2 & -> & (a & -> & Ha) & H2). apply lang_star_class in H2.
  split; [discriminate|]. simpl. now rewrite Ha, H2.
Qed.

Lemma lang_Lit_chars l w : lang (Lit_chars l) w -> w = l.
Proof.
  revert w. induction l as [|a l IH]; intros w; [now intros ->|].
  destruct l as [|b l].
  - intros (x & -> & Hx). apply Ascii.eqb_eq in Hx. now subst.
  - intros (w1 & w2 & -> & (x & -> & Hx) & H2). apply Ascii.eqb_eq in Hx.
    subst. simpl. f_equal. now apply IH.
Qed.

Lemma lang_Lit s w : lang (Lit s) w -> w = str s.
Proof. apply lang_Lit_chars. Qed.

Lemma lang_identifier w : lang identifier w -> is_identifier_chars w = true.
Proof.
  intros (w1 & w2 & -> & (a & -> & Ha) & H2). apply lang_star_class in H2.
  simpl. now rewrite Ha, H2.
Qed.

Lemma is_upper_alpha a : is_upper a = true -> is_alpha_ a = true.
Proof. unfold is_alpha_. intros ->. now rewrite orb_true_r. Qed.

Lemma groups_in_Lit_chars n L l : groups_in n L (Lit_chars l).
Proof.
  induction l as [|a l IH]; [exact I|]. destruct l; [exact I|]. split; [exact I | exact IH].
Qed.

Lemma groups_in_Lit n L s : groups_in n L (Lit s).
Proof. apply groups_in_Lit_chars. Qed.

Lemma lang_constructor_name w :
  lang (Seq (Class is_upper) (Star true (Class is_word))) w ->
  is_identifier_chars w = true.
Proof.
  intros (w1 & w2 & -> & (a & -> & Ha) & H2). apply lang_star_class in H2.
  simpl. now rewrite (is_upper_alpha _ Ha), H2.
Qed.

Lemma lang_collection_name w :
  lang (Alt (Lit "List") (Alt (Lit "MutableMap") (Lit "MutableSet"))) w ->
  is_identifier_chars w = true.
Proof.
  intros [H|[H|H]]; apply lang_Lit in H; subst; reflexivity.
Qed.

Ltac groups_in_tac :=
  repeat match goal with
         | |- groups_in _ _ (Lit _) => apply groups_in_Lit
         | |- groups_in _ _ ?r =>
             let r' := eval hnf in r in
             change r with r'; cbn [groups_in seqs]
         | |- _ /\ _ => split
         | |- True => exact I
         | |- S _ = _ -> _ => let E := fresh in intros E; try discriminate E; clear E
         | |- 0 = _ -> _ => let E := fresh in intros E; try discriminate E; clear E
         end.

(** A group that encloses the identifier pattern captures an
    identifier. *)
Lemma exec_group_identifier r line m n x :
  exec r line = Some m -> group n m = Some x ->
  groups_in n (fun w => is_identifier_chars w = true) r ->
  is_identifier x = true.
Proof. intros H Hx G. exact (exec_group n _ r line m x H G Hx). Qed.

Ltac identifier_group :=
  eapply exec_group_identifier; [eassumption | eassumption |];
  groups_in_tac;
  first [ exact lang_identifier | exact lang_constructor_name
        | exact lang_collection_name ].

Ltac open_extractor H :=
  match type of H with
  | context [exec ?r ?l] =>
      let m := fresh "m" in
      destruct (exec r l) as [m|] eqn:?; [|discriminate H]
  end;
  cbn [mbind option_bind fmap option_fmap option_map] in H;
  repeat match type of H with
         | context [group ?n ?m] =>
             destruct (group n m) eqn:?;
             cbn [mbind option_bind fmap option_fmap option_map] in H;
             try discriminate H
         end.

Lemma Forall_some_list {A} (P : A -> Prop) (o : option A) :
  (forall x, o = Some x -> P x) -> Forall P (some_list o).
Proof. destruct o; simpl; intros H; constructor; auto. Qed.

Lemma extractedNames_identifiers (line : string) :
  Forall (fun name => is_identifier name = true) (extractedNames line).
Proof.
  unfold extractedNames.
  repeat (apply Forall_app; split); apply Forall_some_list; intros x H;
    try (apply fmap_Some in H as (y & H & ->));
    try destruct y as [[? ?] ?]; try destruct y as [? ?];
    cbn [fst snd].
  all: match type of H with ?f _ = _ => unfold f in H end.
  all: open_extractor H.
  all: simplify_eq; identifier_group.
Qed.

(** X1: whatever name an extraction helper of the pattern library
    returns is an identifier: a letter or an underscore, followed by
    letters, digits and underscores. *)
Theorem X1_extracted_names_are_identifiers (line : string) :
  Forall (fun name => is_identifier name = true) (extractedNames line).
Proof. exact (extractedNames_identifiers line). Qed.

(** *** Anchored patterns, and paths through a given text *)

Lemma in_all_ascii a : In a all_ascii.
Proof.
  unfold all_ascii. apply in_map_iff. exists (nat_of_ascii a).
  split; [apply ascii_nat_embedding|]. apply in_seq.
  pose proof (nat_ascii_bounded a). lia.
Qed.

Lemma outside_sound good r :
  outside good r = true -> forall w, lang r w -> forallb good w = true -> False.
Proof.
  induction r; cbn [outside lang]; try discriminate.
  - intros H w (a & -> & Ha). simpl. rewrite andb_true_r. intros Hg.
    rewrite forallb_forall in H. specialize (H a (in_all_ascii a)).
    rewrite Ha, Hg in H. discriminate.
  - intros H w (w1 & w2 & -> & H1 & H2). rewrite forallb_app, andb_true_iff.
    intros [G1 G2]. apply orb_true_iff in H as [H|H]; eauto.
  - intros H w [H1|H2] G; apply andb_true_iff in H as [Ha Hb]; eauto.
  - intros H w Hw G. eauto.
Qed.

Lemma forallb_substring good s l :
  substring s l -> forallb good l = true -> forallb good (str s) = true.
Proof.
  intros (pre & post & ->). rewrite !forallb_app, !andb_true_iff. tauto.
Qed.

(** A pattern that needs a character that is not [good] matches nowhere
    in a subject made of [good] characters. *)
Lemma exec_outside good r s :
  outside good r = true -> forallb good (str s) = true -> exec r s = None.
Proof.
  intros Hr Hs. destruct (exec r s) as [m|] eqn:E; [|reflexivity].
  apply exec_whole in E as [L S]. exfalso.
  eapply outside_sound; eauto. eapply forallb_substring; eauto.
Qed.

Lemma Reach_Seq_inv r1 r2 i c j c2 :
  Reach true (Seq r1 r2) i c j c2 ->
  exists m c1, Reach true r1 i c m c1 /\ Reach true r2 m c1 j c2.
Proof. inversion 1; subst; eauto. Qed.

Lemma Reach_Bol_inv fwd i c j c' :
  Reach fwd Bol i c j c' -> j = i /\ c' = c /\ before i = [].
Proof.
  intros H. inversion H; subst. repeat split.
  match goal with
  | Hn : is_nil ?l = true |- _ => destruct l; [reflexivity | discriminate]
  end.
Qed.

Lemma Reach_ends fwd r i c j c' :
  Reach fwd r i c j c' -> fwd = true -> ends_with_eol r = true -> after j = [].
Proof.
  induction 1; cbn [ends_with_eol]; intros Hf He; try discriminate; auto.
  destruct (after i); [reflexivity | discriminate].
Qed.

(** A match of a pattern anchored at both ends consumes the subject. *)
Lemma matches_anchored r s :
  ends_with_eol r = true -> matches (Seq Bol r) s = true -> lang r (str s).
Proof.
  intros He. unfold matches. destruct (exec _ s) as [m|] eqn:E; [|discriminate].
  intros _. apply exec_sound in E as [S H].
  apply Reach_Seq_inv in H as (i1 & c1 & H1 & H2).
  apply Reach_Bol_inv in H1 as (-> & -> & Hb).
  pose proof (Reach_ends _ _ _ _ _ _ H2 eq_refl He) as Hend.
  apply Reach_consumed in H2 as (w & L & [A B]).
  unfold subject in S. rewrite Hb in S.
  simpl in S. rewrite Hend, app_nil_r in A. congruence.
Qed.

Lemma pos_start l : at_start l = pos [] l.
Proof. reflexivity. Qed.

Lemma Reach_class p a pre post c :
  p a = true -> Reach true (Class p) (pos pre (a :: post)) c (pos (pre ++ [a]) post) c.
Proof.
  intros Ha. econstructor; [|exact Ha]. unfold pos, step. simpl.
  now rewrite rev_app_distr.
Qed.

Lemma Reach_class_star g p w : forall pre post c,
  forallb p w = true ->
  Reach true (Star g (Class p)) (pos pre (w ++ post)) c (pos (pre ++ w) post) c.
Proof.
  induction w as [|a w IH]; intros pre post c H.
  - rewrite app_nil_r. constructor.
  - simpl in H. apply andb_true_iff in H as [Ha Hw].
    eapply Reach_Star_more;
      [now apply Reach_class | apply le_n |].
    replace (pre ++ a :: w) with ((pre ++ [a]) ++ w) by now rewrite <- app_assoc.
    now apply IH.
Qed.

Lemma Reach_class_plus g p w pre post c :
  w <> [] -> forallb p w = true ->
  Reach true (Plus g (Class p)) (pos pre (w ++ post)) c (pos (pre ++ w) post) c.
Proof.
  destruct w as [|a w]; [congruence|]. intros _ H. simpl in H.
  apply andb_true_iff in H as [Ha Hw]. unfold Plus.
  econstructor; [now apply Reach_class|].
  replace (pre ++ a :: w) with ((pre ++ [a]) ++ w) by now rewrite <- app_assoc.
  now apply Reach_class_star.
Qed.

Lemma Reach_Lit_chars l : forall pre post c,
  Reach true (Lit_chars l) (pos pre (l ++ post)) c (pos (pre ++ l) post) c.
Proof.
  induction l as [|a l IH]; intros pre post c.
  - rewrite app_nil_r. constructor.
  - destruct l as [|b l].
    + apply Reach_class. apply Ascii.eqb_refl.
    + change (Lit_chars (a :: b :: l))
        with (Seq (Class (is_char a)) (Lit_chars (b :: l))).
      econstructor; [apply Reach_class, Ascii.eqb_refl|].
      replace (pre ++ a :: b :: l) with ((pre ++ [a]) ++ b :: l)
        by now rewrite <- app_assoc.
      apply IH.
Qed.

Lemma Reach_Lit s pre post c :
  Reach true (Lit s) (pos pre (str s ++ post)) c (pos (pre ++ str s) post) c.
Proof. apply Reach_Lit_chars. Qed.

Lemma Reach_bol_pos c post : Reach true Bol (pos [] post) c (pos [] post) c.
Proof. now constructor. Qed.

Lemma Reach_eol_pos c pre : Reach true Eol (pos pre []) c (pos pre []) c.
Proof. now constructor. Qed.

Lemma isBoolLiteral_inv (expr : string) :
  isBoolLiteral expr = true -> expr = "true" \/ expr = "false".
Proof.
  intros H. apply matches_anchored in H; [|reflexivity].
  destruct H as (w1 & w2 & E & [H1|H1] & ->); apply lang_Lit in H1; subst w1;
    rewrite app_nil_r in E; apply (f_equal unstr) in E;
    rewrite unstr_str in E; subst; auto.
Qed.

(** X2: [isBoolLiteral] accepts the two words [true] and [false], and
    nothing else. *)
Theorem X2_isBoolLiteral_iff (expr : string) :
  isBoolLiteral expr = true <-> expr = "true" \/ expr = "false".
Proof.
  split; [apply isBoolLiteral_inv|].
  intros [-> | ->]; reflexivity.
Qed.

(** *** The literal classes *)

Lemma unstr_app l1 l2 : unstr (l1 ++ l2) = (unstr l1 ++ unstr l2)%string.
Proof. induction l1 as [|a l1 IH]; simpl; [reflexivity | now rewrite IH]. Qed.

Lemma str_inj s1 s2 : str s1 = str s2 -> s1 = s2.
Proof. intros H. apply (f_equal unstr) in H. now rewrite !unstr_str in H. Qed.

Lemma lang_digits1 w : lang digits1 w -> all_digits (unstr w) = true.
Proof.
  intros H. apply lang_plus_class in H as [Hn Hd]. unfold all_digits.
  rewrite str_unstr, Hd. destruct w; [congruence | reflexivity].
Qed.

Lemma all_digits_chars s :
  all_digits s = true -> str s <> [] /\ forallb is_digit (str s) = true.
Proof.
  unfold all_digits. intros H. apply andb_true_iff in H as [H1 H2].
  split; [|exact H2]. destruct (str s); [discriminate | discriminate].
Qed.

Lemma one_of_sign_chars a :
  one_of "+-" a = true -> a = "+"%char \/ a = "-"%char.
Proof.
  unfold one_of; simpl. rewrite !orb_true_iff, !Ascii.eqb_eq.
  intros [H | [H | H]]; [now left | now right | discriminate].
Qed.

Lemma isIntLiteral_inv (expr : string) :
  isIntLiteral expr = true ->
  exists sign digits fraction,
    expr = (sign ++ digits ++ fraction)%string /\
    (sign = "" \/ sign = "+" \/ sign = "-")%string /\
    all_digits digits = true /\
    (fraction = ""%string \/
     exists ds, fraction = ("." ++ ds)%string /\ all_digits ds = true).
Proof.
  intros H. apply matches_anchored in H; [|reflexivity].
  destruct H as (w1 & w2 & E & H1 & w3 & w4 & -> & H3 & w5 & w6 & -> & H5 & ->).
  exists (unstr w1), (unstr w3), (unstr w5).
  split; [|split; [|split]].
  - apply str_inj. rewrite !str_app, !str_unstr, E. now rewrite app_nil_r.
  - destruct H1 as [(a & -> & Ha)| ->]; [|now left].
    right. apply one_of_sign_chars in Ha as [-> | ->]; auto.
  - now apply lang_digits1.
  - destruct H5 as [H5| ->]; [|now left]. right.
    destruct H5 as (u & v & -> & Hu & Hv). apply lang_Lit in Hu. subst u.
    exists (unstr v). split; [reflexivity | now apply lang_digits1].
Qed.

Lemma isIntLiteral_intro (expr : string) :
  (exists sign digits fraction,
    expr = (sign ++ digits ++ fraction)%string /\
    (sign = "" \/ sign = "+" \/ sign = "-")%string /\
    all_digits digits = true /\
    (fraction = ""%string \/
     exists ds, fraction = ("." ++ ds)%string /\ all_digits ds = true)) ->
  isIntLiteral expr = true.
Proof.
  intros (sign & digits & fraction & -> & Hs & Hd & Hf).
  apply all_digits_chars in Hd as [Hd1 Hd2].
  assert (exists pre, forall c,
            Reach true (Opt (Class (one_of "+-"))) (pos [] (str sign ++ str digits ++ str fraction)) c
              (pos pre (str digits ++ str fraction)) c) as [pre Hsign].
  { destruct Hs as [-> | [-> | ->]].
    - exists []. intros c. apply Reach_Alt_r, Reach_Eps.
    - exists ([] ++ ["+"%char]). intros c. apply Reach_Alt_l. now apply Reach_class.
    - exists ([] ++ ["-"%char]). intros c. apply Reach_Alt_l. now apply Reach_class. }
  assert (exists c',
            Reach true (Opt (Group 1 (Seq (Lit ".") digits1)))
              (pos (pre ++ str digits) (str fraction)) []
              (pos ((pre ++ str digits) ++ str fraction) []) c') as [c' Hfrac].
  { destruct Hf as [-> | (ds & -> & Hds)].
    - eexists. rewrite app_nil_r. apply Reach_Alt_r, Reach_Eps.
    - apply all_digits_chars in Hds as [Hds1 Hds2]. eexists.
      apply Reach_Alt_l, Reach_Group.
      change (str ("." ++ ds)%string) with ("."%char :: str ds).
      eapply Reach_Seq_fwd; [apply Reach_class, Ascii.eqb_refl|].
      replace ((pre ++ str digits) ++ "."%char :: str ds)
        with (((pre ++ str digits) ++ ["."%char]) ++ str ds)
        by now rewrite <- !app_assoc.
      rewrite <- (app_nil_r (str ds)) at 1.
      now apply Reach_class_plus. }
  eapply exec_complete. rewrite !str_app, pos_start.
  eapply Reach_Seq_fwd; [apply Reach_bol_pos|].
  eapply Reach_Seq_fwd; [apply Hsign|].
  eapply Reach_Seq_fwd; [now apply Reach_class_plus|].
  eapply Reach_Seq_fwd; [apply Hfrac | apply Reach_eol_pos].
Qed.

(** X3: [isIntLiteral] accepts an optional sign, one digit or more, and
    an optional fraction of a dot and one digit or more, and nothing
    else: a number with a fraction is an integer literal too. *)
Theorem X3_isIntLiteral_iff (expr : string) :
  isIntLiteral expr = true <->
  exists sign digits fraction,
    expr = (sign ++ digits ++ fraction)%string /\
    (sign = "" \/ sign = "+" \/ sign = "-")%string /\
    all_digits digits = true /\
    (fraction = ""%string \/
     exists ds, fraction = ("." ++ ds)%string /\ all_digits ds = true).
Proof. split; [apply isIntLiteral_inv | apply isIntLiteral_intro]. Qed.

Lemma lang_any_star w : lang any_star w -> one_line (unstr w) = true.
Proof. intros H. apply lang_star_class in H. unfold one_line. now rewrite str_unstr. Qed.

Lemma lang_chr a w : lang (chr a) w -> w = [a].
Proof. intros (x & -> & Hx). apply Ascii.eqb_eq in Hx. now subst. Qed.

Lemma isStringLiteral_inv (expr : string) :
  isStringLiteral expr = true ->
  exists inner,
    expr = String DQ (inner ++ String DQ "")%string /\ one_line inner = true.
Proof.
  intros H. apply matches_anchored in H; [|reflexivity].
  destruct H as (w1 & w2 & E & H1 & w3 & w4 & -> & H3 & w5 & w6 & -> & H5 & ->).
  apply lang_chr in H1, H5. subst w1 w5.
  exists (unstr w3). split; [|now apply lang_any_star].
  apply str_inj. rewrite E. simpl. f_equal.
  change (String DQ "") with (unstr [DQ]).
  now rewrite <- unstr_app, str_unstr.
Qed.

(** X4: [isStringLiteral] accepts whatever stands on one line between
    two double quotes, other double quotes included, and nothing else. *)
Theorem X4_isStringLiteral_iff (expr : string) :
  isStringLiteral expr = true <->
  exists inner,
    expr = String DQ (inner ++ String DQ "")%string /\ one_line inner = true.
Proof.
  split; [apply isStringLiteral_inv|].
  intros (inner & -> & Hi).
  eapply exec_complete. rewrite pos_start.
  change (str (String DQ (inner ++ String DQ ""))) with (DQ :: str (inner ++ String DQ "")).
  rewrite str_app. change (str (String DQ "")) with (DQ :: []).
  eapply Reach_Seq_fwd; [apply Reach_bol_pos|].
  eapply Reach_Seq_fwd; [apply Reach_class, Ascii.eqb_refl|].
  eapply Reach_Seq_fwd; [now apply Reach_class_star|].
  eapply Reach_Seq_fwd; [apply Reach_class, Ascii.eqb_refl | apply Reach_eol_pos].
Qed.

Lemma Reach_identifier w pre post c :
  is_identifier_chars w = true ->
  Reach true identifier (pos pre (w ++ post)) c (pos (pre ++ w) post) c.
Proof.
  destruct w as [|a w]; [discriminate|]. simpl. intros H.
  apply andb_true_iff in H as [Ha Hw].
  econstructor; [now apply Reach_class|].
  replace (pre ++ a :: w) with ((pre ++ [a]) ++ w) by now rewrite <- app_assoc.
  now apply Reach_class_star.
Qed.

Lemma isFunctionCallOrIdentifier_intro (expr : string) :
  (exists name args,
     expr = (name ++ args)%string /\ is_identifier name = true /\
     (args = ""%string \/
      exists inner, args = ("(" ++ inner ++ ")")%string /\ one_line inner = true)) ->
  isFunctionCallOrIdentifier expr = true.
Proof.
  intros (name & args & -> & Hn & Ha).
  assert (exists c',
            Reach true
              (Opt (Group 1 (seqs [Lit "("; any_star; Lit ")"])))
              (pos ([] ++ str name) (str args)) []
              (pos (([] ++ str name) ++ str args) []) c') as [c' Hargs].
  { destruct Ha as [-> | (inner & -> & Hi)].
    - eexists. rewrite app_nil_r. apply Reach_Alt_r, Reach_Eps.
    - eexists. apply Reach_Alt_l, Reach_Group. cbn [seqs].
      rewrite !str_app.
      eapply Reach_Seq_fwd; [apply Reach_Lit|].
      eapply Reach_Seq_fwd; [now apply Reach_class_star|].
      rewrite <- (app_nil_r (str ")")) at 1. rewrite !app_assoc.
      apply Reach_Lit. }
  eapply exec_complete. rewrite str_app, pos_start.
  eapply Reach_Seq_fwd; [apply Reach_bol_pos|].
  eapply Reach_Seq_fwd; [now apply Reach_identifier|].
  eapply Reach_Seq_fwd; [apply Hargs | apply Reach_eol_pos].
Qed.

(** X5: [isFunctionCallOrIdentifier] accepts an identifier, alone or
    followed by an opening parenthesis, anything on the line and a
    closing parenthesis, and nothing else. *)
Theorem X5_isFunctionCallOrIdentifier_iff (expr : string) :
  isFunctionCallOrIdentifier expr = true <->
  exists name args,
    expr = (name ++ args)%string /\ is_identifier name = true /\
    (args = ""%string \/
     exists inner, args = ("(" ++ inner ++ ")")%string /\ one_line inner = true).
Proof.
  split; [|apply isFunctionCallOrIdentifier_intro].
  intros H. apply matches_anchored in H; [|reflexivity].
  destruct H as (w1 & w2 & E & H1 & w3 & w4 & -> & H3 & ->).
  exists (unstr w1), (unstr w3). split; [|split].
  - apply str_inj. rewrite str_app, !str_unstr, E. now rewrite app_nil_r.
  - unfold is_identifier. rewrite str_unstr. now apply lang_identifier.
  - destruct H3 as [H3 | ->]; [|now left]. right.
    destruct H3 as (u & v & -> & Hu & x & y & -> & Hx & Hy).
    apply lang_Lit in Hu, Hy. subst u y.
    exists (unstr x). split; [|now apply lang_any_star].
    rewrite !unstr_app. reflexivity.
Qed.

(** *** Operands and expressions *)

Lemma isStringLiteral_head expr :
  isStringLiteral expr = true -> exists rest, expr = String DQ rest.
Proof. intros H. apply isStringLiteral_inv in H as (inner & -> & _). eauto. Qed.

Lemma isIntLiteral_head expr :
  isIntLiteral expr = true ->
  exists a rest, expr = String a rest /\ (one_of "+-" a || is_digit a) = true.
Proof.
  intros H. apply isIntLiteral_inv in H as (sign & digits & fraction & -> & Hs & Hd & _).
  apply all_digits_chars in Hd as [Hd1 Hd2].
  destruct digits as [|d digits]; [now contradiction Hd1|].
  simpl in Hd2. apply andb_true_iff in Hd2 as [Hd2 _].
  destruct Hs as [-> | [-> | ->]]; simpl; eexists _, _; split; try reflexivity.
  now rewrite Hd2, orb_true_r.
Qed.

Lemma not_true_iff_false' b : (b = true -> False) -> b = false.
Proof. destruct b; [intros H; now destruct H | reflexivity]. Qed.

(** The three classes of literals are disjoint. *)
Lemma literals_disjoint expr :
  (isStringLiteral expr = true ->
   isIntLiteral expr = false /\ isBoolLiteral expr = false) /\
  (isBoolLiteral expr = true -> isIntLiteral expr = false) .
Proof.
  split.
  - intros H. apply isStringLiteral_head in H as (rest & ->). split.
    + apply not_true_iff_false'. intros H.
      apply isIntLiteral_head in H as (a & r & [= <- <-] & Ha). discriminate.
    + apply not_true_iff_false'. intros H.
      apply isBoolLiteral_inv in H as [H|H]; discriminate.
  - intros H. apply isBoolLiteral_inv in H as [-> | ->]; reflexivity.
Qed.

Section Operands.

Variable typeNameToKind : string -> Types.TypeKind.
Variable extractGenericContent : string -> option string.
Variable parseCommaSeparated : string -> list string.
Variable parseTypeString : string -> Types.TypeInfo.
Variable functionReturnTypes : gmap string Types.TypeInfo.
Variable types : gmap string Types.TypeInfo.

Local Abbreviation inferExpressionType :=
  (Types.inferExpressionType typeNameToKind extractGenericContent
     parseCommaSeparated parseTypeString functionReturnTypes types).
Local Abbreviation inferOperandType := (Types.inferOperandType types).

(** X6: on a literal, [inferOperandType] and [inferExpressionType] agree,
    although they test the three classes in a different order. *)
Theorem X6_operand_and_expression_agree_on_literals (expr : string) :
  isLiteral expr = true ->
  inferOperandType expr = inferExpressionType expr /\
  (Types.kind (inferOperandType expr) = Types.KInt \/
   Types.kind (inferOperandType expr) = Types.KString \/
   Types.kind (inferOperandType expr) = Types.KBool).
Proof.
  unfold isLiteral, Types.inferOperandType, Types.inferExpressionType.
  destruct (literals_disjoint expr) as [Hs Hb].
  destruct (isStringLiteral expr) eqn:Es.
  { destruct (Hs eq_refl) as [-> ->]. simpl. auto. }
  destruct (isBoolLiteral expr) eqn:Eb.
  { rewrite (Hb eq_refl). simpl. auto. }
  destruct (isIntLiteral expr); [simpl; auto | discriminate].
Qed.

Lemma identifier_words expr :
  is_identifier expr = true -> forallb is_word (str expr) = true.
Proof.
  unfold is_identifier. destruct (str expr) as [|a l]; [discriminate|].
  simpl. intros H. apply andb_true_iff in H as [Ha ->].
  unfold is_word. now rewrite Ha.
Qed.

Lemma identifier_not_literal expr :
  is_identifier expr = true ->
  isStringLiteral expr = false /\ isIntLiteral expr = false.
Proof.
  intros Hi. split; apply not_true_iff_false'; intros H.
  - apply isStringLiteral_head in H as (rest & ->). discriminate.
  - apply isIntLiteral_head in H as (a & r & -> & Ha).
    unfold is_identifier in Hi. simpl in Hi. apply andb_true_iff in Hi as [Hi _].
    revert Hi Ha. clear. unfold is_alpha_, one_of, is_lower, is_upper, is_digit,
      in_range, is_char, code. simpl.
    destruct a as [[] [] [] [] [] [] [] []]; vm_compute; intros; congruence.
Qed.

(** X7: on an identifier that is not [true] or [false], the two functions
    look the name up in the types inferred so far; for a name that has no
    type yet, [inferExpressionType] answers Unit and [inferOperandType]
    answers Unknown. *)
Theorem X7_operand_and_expression_on_identifiers (expr : string) :
  is_identifier expr = true -> isBoolLiteral expr = false ->
  inferExpressionType expr
  = default (Types.make Types.KUnit None None) (types !! expr) /\
  inferOperandType expr
  = default (Types.make Types.KUnknown None None) (types !! expr).
Proof.
  intros Hi Hb. destruct (identifier_not_literal expr Hi) as [Hs Hn].
  pose proof (identifier_words expr Hi) as Hw.
  unfold Types.inferOperandType, Types.inferExpressionType.
  rewrite Hs, Hb, Hn.
  unfold extractBuiltinCollectionConstructor, extractConstructor,
    extractFunctionName.
  rewrite !(exec_outside is_word) by (exact Hw || reflexivity).
  cbn [mbind option_bind].
  assert (isFunctionCallOrIdentifier expr = true) as ->.
  { apply isFunctionCallOrIdentifier_intro. exists expr, ""%string.
    split; [|split]; auto.
    apply str_inj. now rewrite str_app, app_nil_r. }
  split; [|reflexivity]. destruct (types !! expr); reflexivity.
Qed.

End Operands.

Lemma X6_operand_and_expression_agree_witness :
  Types.inferOperandType ∅ "42"
  = Types.inferExpressionType (fun _ => Types.KUnknown) (fun _ => None)
      (fun _ => []) (fun _ => Types.make Types.KUnknown None None) ∅ ∅ "42" /\
  (Types.kind (Types.inferOperandType ∅ "42") = Types.KInt \/
   Types.kind (Types.inferOperandType ∅ "42") = Types.KString \/
   Types.kind (Types.inferOperandType ∅ "42") = Types.KBool).
Proof.
  apply (X6_operand_and_expression_agree_on_literals (fun _ => Types.KUnknown)
           (fun _ => None) (fun _ => [])
           (fun _ => Types.make Types.KUnknown None None) ∅ ∅ "42").
  vm_compute. reflexivity.
Defined.

Lemma X7_operand_and_expression_on_identifiers_witness :
  Types.inferExpressionType (fun _ => Types.KUnknown) (fun _ => None)
    (fun _ => []) (fun _ => Types.make Types.KUnknown None None) ∅ ∅ "count"
  = default (Types.make Types.KUnit None None)
      ((∅ : gmap string Types.TypeInfo) !! "count"%string) /\
  Types.inferOperandType ∅ "count"
  = default (Types.make Types.KUnknown None None)
      ((∅ : gmap string Types.TypeInfo) !! "count"%string).
Proof.
  apply (X7_operand_and_expression_on_identifiers (fun _ => Types.KUnknown)
           (fun _ => None) (fun _ => [])
           (fun _ => Types.make Types.KUnknown None None) ∅ ∅ "count");
    vm_compute; reflexivity.
Defined.

Lemma numericLiteral_isIntLiteral expr :
  matches Inlay.numericLiteral expr = true -> isIntLiteral expr = true.
Proof.
  intros H. apply matches_anchored in H; [|reflexivity].
  destruct H as (w1 & w2 & E & H1 & w3 & w4 & -> & H3 & ->).
  apply isIntLiteral_intro. exists ""%string, (unstr w1), (unstr w3).
  split; [|split; [|split]].
  - apply str_inj. rewrite !str_app, !str_unstr, E. now rewrite app_nil_r.
  - now left.
  - now apply lang_digits1.
  - destruct H3 as [H3 | ->]; [|now left]. right.
    destruct H3 as (u & v & -> & Hu & Hv). apply lang_Lit in Hu. subst u.
    exists (unstr v). split; [reflexivity | now apply lang_digits1].
Qed.

Section Engines.

Variable typeNameToKind : string -> Types.TypeKind.
Variable extractGenericContent : string -> option string.
Variable parseCommaSeparated : string -> list string.
Variable parseTypeString : string -> Types.TypeInfo.
Variable functionReturnTypes : gmap string Types.TypeInfo.
Variable types : gmap string Types.TypeInfo.

Local Abbreviation inferExpressionType :=
  (Types.inferExpressionType typeNameToKind extractGenericContent
     parseCommaSeparated parseTypeString functionReturnTypes types).

(** X8: what the engine of [inlay.ts] types Int or Bool, the refactored
    [ExpressionInference] types the same; and what the pattern library
    calls a string literal is typed String by both. *)
Theorem X8_engines_agree_on_literals (expr : string) :
  (Inlay.inferExpressionType expr = Inlay.make0 Inlay.KInt ->
   inferExpressionType expr = Types.make Types.KInt None None) /\
  (Inlay.inferExpressionType expr = Inlay.make0 Inlay.KBool ->
   inferExpressionType expr = Types.make Types.KBool None None) /\
  (isStringLiteral expr = true ->
   Inlay.inferExpressionType expr = Inlay.make0 Inlay.KString /\
   inferExpressionType expr = Types.make Types.KString None None).
Proof.
  unfold Inlay.inferExpressionType, Types.inferExpressionType.
  change (matches Inlay.stringDQ expr) with (isStringLiteral expr).
  change (matches Inlay.boolLiteral expr) with (isBoolLiteral expr).
  destruct (literals_disjoint expr) as [Hs Hb].
  split; [|split].
  - destruct (isStringLiteral expr); [discriminate|].
    destruct (matches Inlay.stringSQ expr); [discriminate|]. simpl.
    destruct (isBoolLiteral expr); [discriminate|].
    destruct (matches Inlay.numericLiteral expr) eqn:En.
    + now rewrite (numericLiteral_isIntLiteral _ En).
    + repeat match goal with
             | |- context [if ?b then _ else _] => destruct b; try discriminate
             end.
  - destruct (isStringLiteral expr); [discriminate|].
    destruct (matches Inlay.stringSQ expr); [discriminate|]. simpl.
    destruct (isBoolLiteral expr); [reflexivity|].
    repeat match goal with
           | |- context [if ?b then _ else _] => destruct b; try discriminate
           end.
  - intros ->. split; reflexivity.
Qed.

End Engines.

(** ** The structural parser: origins of the nodes *)

(** *** The matches of a global pattern *)

Lemma match_all_from_lang r n :
  forall i x,
    In x (match_all_from r n i) ->
    lang r (str x) /\ substring x (subject i).
Proof.
  induction n as [|n IH]; intros i x; cbn [match_all_from]; [intros []|].
  destruct (exec_from r (length (after i)) i) as [m|] eqn:E; [|intros []].
  pose proof (exec_from_sound _ _ _ _ E) as [S H].
  pose proof (Reach_consumed _ _ _ _ _ _ H) as (w & Lw & Cw).
  assert (subject (m_end m) = subject i) as Se
    by (rewrite <- S; eapply consumed_subject; eauto).
  assert (lang r (str (whole m)) /\ substring (whole m) (subject i)) as Hm.
  { unfold whole. rewrite (between_consumed _ _ _ _ Cw), str_unstr.
    split; [exact Lw|]. rewrite <- S. eapply consumed_substring; eauto. }
  destruct (length (after (m_end m)) <? length (after i)).
  - intros [<-|Hx]; [exact Hm|]. rewrite <- Se. now apply IH.
  - intros [<-|Hx]; [exact Hm|].
    destruct (step true (m_end m)) as [[a j']|] eqn:Es; [|destruct Hx].
    apply IH in Hx as [L Sx]. split; [exact L|].
    rewrite <- Se. apply step_span in Es.
    now rewrite <- (consumed_subject true _ _ _ Es).
Qed.

Lemma match_all_lang r s l x :
  match_all r s = Some l -> In x l -> lang r (str x) /\ substring x (str s).
Proof.
  unfold match_all. destruct (match_all_from _ _ _) as [|y l'] eqn:E; [discriminate|].
  intros [= <-] Hx. rewrite <- E in Hx. now apply match_all_from_lang in Hx.
Qed.

(** Every match of the parameter pattern is an identifier. *)
Lemma parameterNames_identifiers l x :
  In x (parameterNames l) -> is_identifier x = true.
Proof.
  unfold parameterNames.
  destruct (match_all _ l) as [ms|] eqn:E; [|intros []]. simpl. intros Hx.
  destruct (match_all_lang _ _ _ _ E Hx) as [L _].
  destruct L as (w1 & w2 & Ew & -> & w3 & w4 & -> & H3 & ->).
  unfold is_identifier. rewrite Ew. simpl. rewrite app_nil_r.
  now apply lang_identifier.
Qed.

Lemma word_not_space a : is_word a = true -> is_space a = false.
Proof.
  assert (forallb (fun a => implb (is_word a) (negb (is_space a))) all_ascii = true)
    as H by (vm_compute; reflexivity).
  rewrite forallb_forall in H. specialize (H a (in_all_ascii a)).
  destruct (is_word a); [|discriminate]. intros _.
  now destruct (is_space a).
Qed.

Lemma forallb_rev {A} (p : A -> bool) l : forallb p (rev l) = forallb p l.
Proof.
  induction l as [|a l IH]; [reflexivity|]. simpl.
  rewrite forallb_app, IH. simpl. rewrite andb_true_r. apply andb_comm.
Qed.

Lemma trim_start_words l : forallb is_word l = true -> trim_start l = l.
Proof.
  destruct l as [|a l]; [reflexivity|]. simpl. intros H.
  apply andb_true_iff in H as [Ha _]. now rewrite (word_not_space _ Ha).
Qed.

(** Trimming leaves an identifier as it is. *)
Lemma trim_identifier x : is_identifier x = true -> trim x = x.
Proof.
  intros H. apply identifier_words in H. unfold trim.
  rewrite (trim_start_words _ H), trim_start_words, rev_involutive.
  - apply unstr_str.
  - now rewrite forallb_rev.
Qed.

Lemma split_chars_no_separator sep l :
  forall cur,
    forallb (fun a => negb (Ascii.eqb a sep)) l = true ->
    split_chars sep cur l = [unstr (rev cur ++ l)].
Proof.
  induction l as [|a l IH]; intros cur H; simpl.
  - now rewrite app_nil_r.
  - simpl in H. apply andb_true_iff in H as [Ha Hl].
    destruct (Ascii.eqb a sep); [discriminate|].
    rewrite IH by exact Hl. simpl. now rewrite <- app_assoc.
Qed.

Lemma forallb_imp {A} (p q : A -> bool) l :
  (forall a, p a = true -> q a = true) ->
  forallb p l = true -> forallb q l = true.
Proof.
  intros Hpq. induction l as [|a l IH]; simpl; [reflexivity|].
  rewrite !andb_true_iff. intros [Ha Hl]. auto.
Qed.

Lemma split_identifier x : is_identifier x = true -> split "," x = [x].
Proof.
  intros H. apply identifier_words in H. unfold split.
  rewrite split_chars_no_separator; [simpl; now rewrite unstr_str|].
  revert H. apply forallb_imp. intros a Ha.
  destruct (Ascii.eqb_spec a ","%char) as [->|]; [discriminate | reflexivity].
Qed.

(** *** The two revisions of [parseArguments] *)

Lemma map_argNode_identifiers i ms :
  Forall (fun x => is_identifier x = true) ms ->
  map (argNode i) ms = map (fun x => Node variable x i i i []) ms.
Proof.
  induction 1 as [|x ms Hx _ IH]; [reflexivity|]. simpl.
  unfold argNode at 1. now rewrite (trim_identifier _ Hx), IH.
Qed.

Lemma parameterNames_Forall l :
  Forall (fun x => is_identifier x = true) (parameterNames l).
Proof. apply List.Forall_forall. apply parameterNames_identifiers. Qed.

Lemma Rev2_parseArguments_names l i :
  Rev2.parseArguments l i
  = map (fun x => Node variable x i i i []) (parameterNames l).
Proof.
  pose proof (parameterNames_Forall l) as H. revert H.
  unfold Rev2.parseArguments, parameterNames.
  destruct (match_all _ l) as [ms|]; simpl; [|reflexivity].
  apply map_argNode_identifiers.
Qed.

Lemma Rev1_parseArguments_names l i :
  Rev1.parseArguments l i
  = map (fun x => Node variable x i i i []) (take 1 (parameterNames l)).
Proof.
  pose proof (parameterNames_Forall l) as H. revert H.
  unfold Rev1.parseArguments, parameterNames.
  destruct (match_all _ l) as [[|first rest]|]; simpl; try reflexivity.
  intros H. inversion H as [|? ? Hf _]; subst.
  rewrite (split_identifier _ Hf). simpl. unfold argNode.
  now rewrite (trim_identifier _ Hf).
Qed.

(** X9: the first revision of [parseArguments] yields the first of the nodes
    that the second revision yields, and nothing else. *)
Theorem X9_Rev1_keeps_the_first_parameter (line : string) (lineNumber : nat) :
  (Rev1.parseArguments line lineNumber
   = take 1 (Rev2.parseArguments line lineNumber)) /\
  (Rev2.parseArguments line lineNumber
   = map (fun x => Node variable x lineNumber lineNumber lineNumber [])
         (parameterNames line)).
Proof.
  rewrite Rev1_parseArguments_names, Rev2_parseArguments_names.
  split; [|reflexivity]. destruct (parameterNames line); reflexivity.
Qed.

(** *** Where the nodes of the tree come from *)

Section ParserOrigin.

Variable lines : list string.
Variable parseArguments : string -> nat -> list ASTNode.
Variable params : string -> list string.
Hypothesis parseArguments_names :
  forall l i,
    parseArguments l i = map (fun x => Node variable x i i i []) (params l).

Local Abbreviation pbc := (parseBlockContent lines parseArguments).
Local Abbreviation ptl := (parseTopLevel lines parseArguments).

(** What holds of a node and of all the nodes below it. *)
Let good (n : ASTNode) : Prop :=
  Forall (fun m => levels_ok m = true /\ declared_on lines params m) (nodes n).

Lemma good_param l i a :
  lines !! i = Some l -> In a (parseArguments l i) ->
  inner_kind (kind a) = true /\ good a.
Proof.
  intros Hl. rewrite parseArguments_names. intros Ha.
  apply in_map_iff in Ha as (x & <- & Hx). split; [reflexivity|].
  unfold good. simpl. constructor; [|constructor].
  split; [reflexivity|]. unfold declared_on; simpl. eauto.
Qed.

Lemma good_header k nm i l body :
  lines !! i = Some l ->
  match k with
  | class => extractClassName l = Some nm
  | actor => extractActorName l = Some nm
  | function => extractFunctionNameWithOptionalIo l = Some nm
  | _ => False
  end ->
  Forall (fun c => inner_kind (kind c) = true /\ good c) body ->
  forall e, good (Node k nm i i e (body ++ parseArguments l i)).
Proof.
  intros Hl Hk Hbody e.
  assert (Forall (fun c => inner_kind (kind c) = true /\ good c)
            (body ++ parseArguments l i)) as Hall.
  { apply Forall_app. split; [exact Hbody|]. apply List.Forall_forall.
    intros a Ha. eapply good_param; eauto. }
  unfold good. rewrite nodes_eq. constructor.
  - split.
    + assert (forallb (fun c => inner_kind (kind c)) (body ++ parseArguments l i)
              = true) as Hf.
      { apply forallb_forall. intros c Hc.
        rewrite List.Forall_forall in Hall. now apply Hall. }
      destruct k; try contradiction; exact Hf.
    + unfold declared_on. destruct k; try contradiction; simpl; eauto.
  - apply Forall_flat_map. eapply List.Forall_impl; [|exact Hall].
    intros c [_ Hc]. exact Hc.
Qed.

Lemma good_block i l body :
  lines !! i = Some l -> isControlLine l = true ->
  Forall (fun c => inner_kind (kind c) = true /\ good c) body ->
  forall e, good (Node block ("block_" ++ decimal i) i i e body).
Proof.
  intros Hl Hc Hbody e. unfold good. rewrite nodes_eq. constructor.
  - split.
    + simpl. apply forallb_forall. intros c Hin.
      rewrite List.Forall_forall in Hbody. now apply Hbody.
    + unfold declared_on; simpl. eauto.
  - apply Forall_flat_map. eapply List.Forall_impl; [|exact Hbody].
    intros c [_ H]. exact H.
Qed.

Lemma parseBlockContent_origin fuel :
  forall i e res,
    pbc fuel i e = Some res ->
    Forall (fun c => inner_kind (kind c) = true /\ good c) res.
Proof.
  induction fuel as [|fuel IH]; intros i e res; simpl; [discriminate|].
  destruct (e <? i); [intros [= <-]; constructor|].
  destruct (lines !! i) as [l|] eqn:Hl; simpl; [|discriminate].
  destruct (extractFunctionNameWithOptionalIo l) as [funName|] eqn:Ef.
  { destruct (pbc fuel (i + 1) _) as [body|] eqn:Hbody; simpl; [|discriminate].
    destruct (pbc fuel (findBlockEnd lines i + 1) e) as [rest|] eqn:Hrest;
      simpl; [|discriminate].
    intros [= <-]. apply IH in Hbody, Hrest. constructor; [|exact Hrest].
    split; [reflexivity|]. eapply (good_header function); eauto. }
  destruct (extractDeclarationKeywordAndName l) as [[kw varName]|] eqn:Ev.
  { destruct (pbc fuel (i + 1) e) as [rest|] eqn:Hrest; simpl; [|discriminate].
    intros [= <-]. apply IH in Hrest. constructor; [|exact Hrest].
    split; [reflexivity|]. unfold good. simpl. constructor; [|constructor].
    split; [reflexivity|]. unfold declared_on; simpl. eauto. }
  destruct (isControlLine l) eqn:Ec.
  { destruct (pbc fuel (i + 1) _) as [body|] eqn:Hbody; simpl; [|discriminate].
    destruct (pbc fuel (findBlockEnd lines i + 1) e) as [rest|] eqn:Hrest;
      simpl; [|discriminate].
    intros [= <-]. apply IH in Hbody, Hrest. constructor; [|exact Hrest].
    split; [reflexivity|]. eapply good_block; eauto. }
  apply IH.
Qed.

Lemma parseTopLevel_origin fuel :
  forall i e res,
    ptl fuel i e = Some res ->
    Forall (fun c => top_kind (kind c) = true /\ good c) res.
Proof.
  induction fuel as [|fuel IH]; intros i e res; simpl; [discriminate|].
  destruct (e <? i); [intros [= <-]; constructor|].
  destruct (lines !! i) as [l|] eqn:Hl; simpl; [|discriminate].
  destruct (extractClassName l) as [className|] eqn:Ec.
  { destruct (pbc fuel (i + 1) _) as [body|] eqn:Hbody; simpl; [|discriminate].
    destruct (ptl fuel (findBlockEnd lines i + 1) e) as [rest|] eqn:Hrest;
      simpl; [|discriminate].
    intros [= <-]. apply parseBlockContent_origin in Hbody. apply IH in Hrest.
    constructor; [|exact Hrest].
    split; [reflexivity|]. eapply (good_header class); eauto. }
  destruct (extractActorName l) as [actorName|] eqn:Ea.
  { destruct (pbc fuel (i + 1) _) as [body|] eqn:Hbody; simpl; [|discriminate].
    destruct (ptl fuel (findBlockEnd lines i + 1) e) as [rest|] eqn:Hrest;
      simpl; [|discriminate].
    intros [= <-]. apply parseBlockContent_origin in Hbody. apply IH in Hrest.
    constructor; [|exact Hrest].
    split; [reflexivity|]. eapply (good_header actor); eauto. }
  apply IH.
Qed.

Lemma parse_lines_origin root :
  parse_lines lines parseArguments = Some root ->
  Forall (fun m => levels_ok m = true /\ declared_on lines params m) (nodes root).
Proof.
  unfold parse_lines.
  destruct (ptl _ 0 _) as [tops|] eqn:Ht; simpl; [|discriminate].
  intros [= <-]. apply parseTopLevel_origin in Ht. rewrite nodes_eq.
  constructor.
  - split; [|reflexivity]. simpl. apply forallb_forall. intros c Hc.
    rewrite List.Forall_forall in Ht. now apply Ht.
  - apply Forall_flat_map. eapply List.Forall_impl; [|exact Ht].
    intros c [_ H]. exact H.
Qed.

End ParserOrigin.

Lemma parse_origin_both text :
  both_revisions (fun parse =>
    exists root, parse text = Some root /\
      Forall (fun m => levels_ok m = true /\
                       declared_on (split LF text) parameterNames m)
             (nodes root)).
Proof.
  destruct (parse_ok_both text) as [(r1 & H1 & _) (r2 & H2 & _)]. split.
  - exists r1. split; [exact H1|].
    pose proof (parse_lines_origin (split LF text) Rev1.parseArguments
                  (fun l => take 1 (parameterNames l))
                  Rev1_parseArguments_names r1 H1) as H.
    eapply List.Forall_impl; [|exact H]. intros m [Hl Hd]. split; [exact Hl|].
    unfold declared_on in *. destruct (kind m); try exact Hd.
    destruct Hd as (l & Hline & [Hv|Hp]); exists l; split; auto.
    right. destruct (parameterNames l); [destruct Hp|].
    destruct Hp as [<-|[]]. now left.
  - exists r2. split; [exact H2|].
    exact (parse_lines_origin (split LF text) Rev2.parseArguments
             parameterNames Rev2_parseArguments_names r2 H2).
Qed.

(** X10: in the tree of any document, classes and actors are the children of
    the root and occur nowhere else, functions, variables and blocks occur
    below them only, and a variable has no children. *)
Theorem X10_parse_kinds_by_level (text : string) :
  both_revisions (fun parse =>
    exists root, parse text = Some root /\ kind root = program /\
                 forallb levels_ok (nodes root) = true).
Proof.
  destruct (parse_origin_both text) as [(r1 & H1 & G1) (r2 & H2 & G2)].
  split; [exists r1 | exists r2]; (split; [assumption|]); split.
  - unfold Rev1.parse, parse_lines in H1.
    destruct (parseTopLevel _ _ _ _ _); [|discriminate]. now injection H1 as <-.
  - apply forallb_forall. intros m Hm. rewrite List.Forall_forall in G1.
    now apply G1.
  - unfold Rev2.parse, parse_lines in H2.
    destruct (parseTopLevel _ _ _ _ _); [|discriminate]. now injection H2 as <-.
  - apply forallb_forall. intros m Hm. rewrite List.Forall_forall in G2.
    now apply G2.
Qed.

(** X11: every node of the tree records the index of a line of the document
    that declares it: the line matches the pattern of the node's kind
    and the node's name is what the pattern captures there. *)
Theorem X11_parse_nodes_are_declared (text : string) :
  both_revisions (fun parse =>
    exists root, parse text = Some root /\
      Forall (declared_on (split LF text) parameterNames) (nodes root)).
Proof.
  destruct (parse_origin_both text) as [(r1 & H1 & G1) (r2 & H2 & G2)].
  split; [exists r1 | exists r2]; (split; [assumption|]);
    (eapply List.Forall_impl; [|eassumption]); intros m [_ H]; exact H.
Qed.

Lemma string_of_uint_digits d :
  forallb is_digit (str (DecimalString.NilEmpty.string_of_uint d)) = true.
Proof. induction d; simpl; auto. Qed.

Lemma block_name_identifier i : is_identifier ("block_" ++ decimal i) = true.
Proof.
  unfold is_identifier. rewrite str_app. simpl.
  eapply forallb_imp; [|apply string_of_uint_digits].
  intros a Ha. unfold is_word. now rewrite Ha, orb_true_r.
Qed.

Lemma some_list_In {A} (o : option A) x : o = Some x -> In x (some_list o).
Proof. intros ->. now left. Qed.

Lemma extracted_name l x :
  In x (extractedNames l) -> is_identifier x = true.
Proof.
  pose proof (extractedNames_identifiers l) as H.
  rewrite List.Forall_forall in H. apply H.
Qed.

Lemma declared_identifier lines n :
  declared_on lines parameterNames n -> is_identifier (name n) = true.
Proof.
  unfold declared_on, extractedNames.
  destruct (kind n).
  - intros ->. reflexivity.
  - intros (l & _ & H). apply (extracted_name l). unfold extractedNames.
    rewrite H. now left.
  - intros (l & _ & H). apply (extracted_name l). unfold extractedNames.
    rewrite H. apply in_or_app. right. now left.
  - intros (l & _ & H). apply (extracted_name l). unfold extractedNames.
    rewrite H. do 2 (apply in_or_app; right). now left.
  - intros (l & _ & [(kw & H)|H]).
    + apply (extracted_name l). unfold extractedNames.
      rewrite H. do 3 (apply in_or_app; right). now left.
    + now apply (parameterNames_identifiers l).
  - intros (l & _ & _ & ->). apply block_name_identifier.
Qed.

(** X12: every node of the tree is named by an identifier. *)
Theorem X12_parse_names_are_identifiers (text : string) :
  both_revisions (fun parse =>
    exists root, parse text = Some root /\
      forallb (fun n => is_identifier (name n)) (nodes root) = true).
Proof.
  destruct (parse_origin_both text) as [(r1 & H1 & G1) (r2 & H2 & G2)].
  split; [exists r1 | exists r2]; (split; [assumption|]);
    apply forallb_forall; intros m Hm;
    [rewrite List.Forall_forall in G1; destruct (G1 m Hm) as [_ Hd]
    |rewrite List.Forall_forall in G2; destruct (G2 m Hm) as [_ Hd]];
    eapply declared_identifier; eauto.
Qed.

(** *** Two parsers that read the same parameters *)

Section SameArguments.

Variable lines : list string.
Variables pa1 pa2 : string -> nat -> list ASTNode.
Hypothesis same_arguments :
  forall i l, lines !! i = Some l -> pa1 l i = pa2 l i.

Lemma parseBlockContent_ext fuel :
  forall i e,
    parseBlockContent lines pa1 fuel i e = parseBlockContent lines pa2 fuel i e.
Proof.
  induction fuel as [|fuel IH]; intros i e; simpl; [reflexivity|].
  destruct (e <? i); [reflexivity|].
  destruct (lines !! i) as [l|] eqn:Hl; simpl; [|reflexivity].
  rewrite !IH, (same_arguments i l Hl). reflexivity.
Qed.

Lemma parseTopLevel_ext fuel :
  forall i e,
    parseTopLevel lines pa1 fuel i e = parseTopLevel lines pa2 fuel i e.
Proof.
  induction fuel as [|fuel IH]; intros i e; simpl; [reflexivity|].
  destruct (e <? i); [reflexivity|].
  destruct (lines !! i) as [l|] eqn:Hl; simpl; [|reflexivity].
  rewrite !IH, !parseBlockContent_ext, (same_arguments i l Hl). reflexivity.
Qed.

Lemma parse_lines_ext : parse_lines lines pa1 = parse_lines lines pa2.
Proof. unfold parse_lines. now rewrite parseTopLevel_ext. Qed.

End SameArguments.

(** X13: on a document none of whose lines has two parameters, the two
    revisions of the parser build the same tree. *)
Theorem X13_revisions_agree_up_to_one_parameter (text : string) :
  at_most_one_parameter text = true ->
  Rev1.parse text = Rev2.parse text /\ is_Some (Rev2.parse text).
Proof.
  intros H. split.
  - apply parse_lines_ext. intros i l Hl.
    unfold at_most_one_parameter in H. rewrite forallb_forall in H.
    assert (In l (split LF text)) as Hin.
    { apply list_elem_of_In. eapply list_elem_of_lookup_2; eauto. }
    specialize (H l Hin). apply Nat.leb_le in H.
    rewrite Rev1_parseArguments_names, Rev2_parseArguments_names.
    destruct (parameterNames l) as [|x [|y r]]; simpl in *; try reflexivity; lia.
  - destruct (parse_ok_both text) as [_ (r2 & H2 & _)]. rewrite H2. eauto.
Qed.

Lemma X13_revisions_agree_witness :
  Rev1.parse "class P(a: Int) {" = Rev2.parse "class P(a: Int) {" /\
  is_Some (Rev2.parse "class P(a: Int) {").
Proof.
  apply (X13_revisions_agree_up_to_one_parameter "class P(a: Int) {").
  vm_compute. reflexivity.
Defined.

(** *** Block-end detection on a balanced block *)

Lemma never_closed_nil p : never_closed p [].
Proof. intros q rest E. destruct q; discriminate. Qed.

Lemma never_closed_cons p c l :
  (c = "}"%char -> count_char "{" p = 0 \/ ~ closing p) ->
  never_closed (p ++ [c]) l -> never_closed p (c :: l).
Proof.
  intros Hc H q rest E. destruct q as [|c' q].
  - injection E as -> ->. rewrite app_nil_r. now apply Hc.
  - injection E as <- ->. specialize (H q rest eq_refl).
    now rewrite <- app_assoc in H.
Qed.

(** What the scan of one line does, from the state reached once [p] is
    read. *)
Lemma scanBraces_spec l :
  forall p,
    match scanBraces l (fst (braceState p)) (snd (braceState p)) with
    | None =>
        exists q rest,
          l = q ++ "}"%char :: rest /\ never_closed p q /\ closing (p ++ q)
    | Some st => never_closed p l /\ st = braceState (p ++ l)
    end.
Proof.
  induction l as [|c l IH]; intros p.
  { simpl. rewrite app_nil_r. split; [apply never_closed_nil | reflexivity]. }
  rewrite scanBraces_cons.
  assert (forall st,
            st = braceState (p ++ [c]) ->
            (c = "}"%char -> count_char "{" p = 0 \/ ~ closing p) ->
            match scanBraces l (fst st) (snd st) with
            | None =>
                exists q rest,
                  c :: l = q ++ "}"%char :: rest /\ never_closed p q /\
                  closing (p ++ q)
            | Some st' => never_closed p (c :: l) /\ st' = braceState (p ++ c :: l)
            end) as Hstep.
  { intros st -> Hc. specialize (IH (p ++ [c])).
    destruct (scanBraces l _ _) as [st'|].
    - destruct IH as [Hn ->]. split; [now apply never_closed_cons|].
      now rewrite <- app_assoc.
    - destruct IH as (q & rest & -> & Hn & Hq). exists (c :: q), rest.
      split; [reflexivity|]. split; [now apply never_closed_cons|].
      now rewrite <- app_assoc in Hq. }
  destruct (is_char "{" c) eqn:Ho.
  { assert (is_char "}" c = false) as Hc.
    { apply Ascii.eqb_eq in Ho. now subst c. }
    apply (Hstep ((fst (braceState p) + 1)%Z, true)).
    - cbv [fst snd braceState]. rewrite !count_char_snoc, Ho, Hc. f_equal; [lia|].
      destruct (count_char "{" p + 1) eqn:E; [lia | reflexivity].
    - intros ->. discriminate. }
  destruct (is_char "}" c) eqn:Hc.
  { destruct (snd (braceState p) && (fst (braceState p) - 1 =? 0)%Z) eqn:Hret.
    - cbv [fst snd braceState] in Hret.
      apply andb_true_iff in Hret as [H1 H2]. apply Z.eqb_eq in H2.
      apply Ascii.eqb_eq in Hc. subst c.
      exists [], l. split; [reflexivity|]. split; [apply never_closed_nil|].
      rewrite app_nil_r. unfold closing. lia.
    - cbv [fst snd braceState] in Hret.
      apply (Hstep ((fst (braceState p) - 1)%Z, snd (braceState p))).
      + cbv [fst snd braceState]. rewrite !count_char_snoc, Ho, Hc.
        f_equal; [lia|]. now rewrite Nat.add_0_r.
      + intros _. apply andb_false_iff in Hret as [H|H].
        * left. apply negb_false_iff, Nat.eqb_eq in H. exact H.
        * right. apply Z.eqb_neq in H. unfold closing. lia. }
  apply (Hstep (fst (braceState p), snd (braceState p))).
  - cbv [fst snd braceState]. rewrite !count_char_snoc, Ho, Hc. f_equal; [lia|].
    now rewrite Nat.add_0_r.
  - intros ->. discriminate.
Qed.

Lemma never_closed_join p l1 l2 :
  never_closed p l1 -> never_closed (p ++ l1) l2 -> never_closed p (l1 ++ l2).
Proof.
  revert p. induction l1 as [|c l1 IH]; intros p H1 H2.
  - now rewrite app_nil_r in H2.
  - simpl. apply never_closed_cons.
    + intros ->. specialize (H1 [] l1 eq_refl). rewrite app_nil_r in H1.
      exact H1.
    + apply IH; [now apply never_closed_tail|]. now rewrite <- app_assoc.
Qed.

(** What the loop over the lines does. *)
Lemma findBlockEnd_loop_spec lines ls :
  forall i p,
    let r := findBlockEnd_loop lines ls i (fst (braceState p)) (snd (braceState p)) in
    (exists k l q rest,
       ls !! k = Some l /\ r = i + k /\ str l = q ++ "}"%char :: rest /\
       closing (p ++ concat (map str (take k ls)) ++ q) /\
       never_closed p (concat (map str (take k ls)) ++ q)) \/
    (never_closed p (concat (map str ls)) /\ r = length lines - 1).
Proof.
  induction ls as [|l ls IH]; intros i p r.
  { right. split; [apply never_closed_nil | reflexivity]. }
  subst r. cbn [findBlockEnd_loop].
  pose proof (scanBraces_spec (str l) p) as Hs.
  destruct (scanBraces (str l) _ _) as [[b f]|].
  - destruct Hs as [Hn E].
    replace b with (fst (braceState (p ++ str l))) by now rewrite <- E.
    replace f with (snd (braceState (p ++ str l))) by now rewrite <- E.
    clear E.
    destruct (IH (S i) (p ++ str l)) as [(k & l' & q & rest & Hk & Hr & Hl & Hc & Hnc)|[Hnc Hr]].
    + left. exists (S k), l', q, rest. cbn [lookup take map concat].
      split; [exact Hk|]. split; [lia|]. split; [exact Hl|].
      rewrite <- !app_assoc in *. split; [exact Hc|].
      now apply never_closed_join.
    + right. split; [|exact Hr]. simpl. now apply never_closed_join.
  - destruct Hs as (q & rest & Hl & Hn & Hc). left.
    exists 0, l, q, rest. simpl. repeat split; auto.
Qed.

Lemma closing_unique p1 r1 p2 r2 :
  p1 ++ "}"%char :: r1 = p2 ++ "}"%char :: r2 ->
  closing p1 -> never_closed [] p2 -> length p2 <= length p1.
Proof.
  intros E H1 H2. destruct (Nat.le_gt_cases (length p2) (length p1)); [assumption|].
  exfalso.
  assert (exists x, p2 = p1 ++ "}"%char :: x) as [x ->].
  { apply (f_equal (take (length p2))) in E.
    rewrite (take_app_le p2), firstn_all in E by lia.
    rewrite take_app_ge in E by lia.
    destruct (length p2 - length p1) as [|n] eqn:En; [lia|].
    simpl in E. eauto. }
  destruct (H2 p1 x eq_refl) as [H0|H0]; simpl in H0; unfold closing in H1; lia.
Qed.

Lemma concat_lookup (ls : list string) k l :
  ls !! k = Some l ->
  concat (map str ls)
  = concat (map str (take k ls)) ++ str l ++ concat (map str (drop (S k) ls)).
Proof.
  intros H. rewrite <- (take_drop_middle ls k l H) at 1.
  rewrite map_app, concat_app. reflexivity.
Qed.

Lemma concat_take_lt (ls : list string) k k2 l :
  ls !! k = Some l -> k < k2 ->
  length (concat (map str (take k ls))) + length (str l)
  <= length (concat (map str (take k2 ls))).
Proof.
  intros H Hk.
  assert (take k2 ls !! k = Some l) as H2 by (rewrite lookup_take_lt; auto).
  rewrite (concat_lookup _ _ _ H2), take_take, Nat.min_l by lia.
  rewrite !length_app. lia.
Qed.

Lemma closes_at_stream lines i e :
  closes_at lines i e ->
  exists k l q rest,
    e = i + k /\ drop i lines !! k = Some l /\ str l = q ++ "}"%char :: rest /\
    closing (concat (map str (take k (drop i lines))) ++ q) /\
    never_closed [] (concat (map str (take k (drop i lines))) ++ q).
Proof.
  intros (l & q & rest & Hie & Hl & Hq & Hc & Hn).
  exists (e - i), l, q, rest. split; [lia|]. split; [|auto].
  rewrite lookup_drop. now replace (i + (e - i)) with e by lia.
Qed.

(** X14: [findBlockEnd] returns the line of the first closing brace that
    balances the braces read from the start line on, and the last line
    of the document when there is none. *)
Theorem X14_findBlockEnd_characterised (lines : list string) (startLine : nat) :
  (forall e, closes_at lines startLine e -> findBlockEnd lines startLine = e) /\
  (unterminated lines startLine ->
   findBlockEnd lines startLine = length lines - 1) /\
  (closes_at lines startLine (findBlockEnd lines startLine) \/
   unterminated lines startLine).
Proof.
  assert (closes_at lines startLine (findBlockEnd lines startLine) \/
          unterminated lines startLine) as Hcases.
  { unfold findBlockEnd.
    destruct (findBlockEnd_loop_spec lines (drop startLine lines) startLine [])
      as [(k & l & q & rest & Hk & Hr & Hl & Hc & Hn)|[Hn Hr]].
    - left. change (fst (braceState [])) with 0%Z in Hr.
      change (snd (braceState [])) with false in Hr. rewrite Hr.
      exists l, q, rest. rewrite lookup_drop in Hk.
      replace (startLine + k - startLine) with k by lia.
      split; [lia|]. auto.
    - right. intros p rest E. apply (Hn p rest E). }
  split; [|split; [apply findBlockEnd_unterminated | exact Hcases]].
  intros e He. destruct Hcases as [Hf|Hu].
  - apply closes_at_stream in He as (k1 & l1 & q1 & r1 & -> & Hk1 & Hl1 & Hc1 & Hn1).
    apply closes_at_stream in Hf as (k2 & l2 & q2 & r2 & E2 & Hk2 & Hl2 & Hc2 & Hn2).
    rewrite E2. f_equal.
    pose proof (concat_lookup _ _ _ Hk1) as S1.
    pose proof (concat_lookup _ _ _ Hk2) as S2.
    rewrite Hl1 in S1. rewrite Hl2 in S2.
    rewrite <- app_assoc in S1, S2. simpl in S1, S2. rewrite app_assoc in S1, S2.
    assert (length (concat (map str (take k1 (drop startLine lines))) ++ q1)
            = length (concat (map str (take k2 (drop startLine lines))) ++ q2))
      as Hlen.
    { apply Nat.le_antisymm.
      - eapply closing_unique; [|exact Hc2 | exact Hn1]. now rewrite <- S1, <- S2.
      - eapply closing_unique; [|exact Hc1 | exact Hn2]. now rewrite <- S1, <- S2. }
    rewrite !length_app in Hlen.
    destruct (Nat.lt_trichotomy k1 k2) as [Hlt|[Heq|Hgt]]; [|symmetry; exact Heq|].
    + pose proof (concat_take_lt _ _ _ _ Hk1 Hlt) as H.
      rewrite Hl1, length_app in H. simpl in H. lia.
    + pose proof (concat_take_lt _ _ _ _ Hk2 Hgt) as H.
      rewrite Hl2, length_app in H. simpl in H. lia.
  - exfalso.
    apply closes_at_stream in He as (k1 & l1 & q1 & r1 & -> & Hk1 & Hl1 & Hc1 & Hn1).
    pose proof (concat_lookup _ _ _ Hk1) as S1. rewrite Hl1 in S1.
    rewrite <- app_assoc in S1. simpl in S1. rewrite app_assoc in S1.
    destruct (Hu _ _ S1) as [H|H]; unfold closing in Hc1; lia.
Qed.

(** *** Documents without a class or an actor *)

Lemma is_prefix_spec p l : is_prefix p l = true <-> exists post, l = p ++ post.
Proof.
  revert l. induction p as [|a p IH]; intros l; simpl.
  - split; eauto.
  - destruct l as [|b l].
    + split; [discriminate | intros [post H]; discriminate].
    + rewrite andb_true_iff, Ascii.eqb_eq, IH. split.
      * intros [-> [post ->]]. eauto.
      * intros [post [= -> ->]]. eauto.
Qed.

Lemma includes_chars_spec l p :
  includes_chars l p = true <-> exists pre post, l = pre ++ p ++ post.
Proof.
  induction l as [|a l IH]; simpl.
  - rewrite orb_false_r, is_prefix_spec. split.
    + intros [post H]. exists [], post. exact H.
    + intros (pre & post & H). destruct pre; [eauto | discriminate].
  - rewrite orb_true_iff, is_prefix_spec, IH. split.
    + intros [[post H]|(pre & post & ->)].
      * exists [], post. exact H.
      * exists (a :: pre), post. reflexivity.
    + intros (pre & post & H). destruct pre as [|b pre].
      * left. eauto.
      * right. injection H as -> ->. eauto.
Qed.

Lemma includes_substring s p : includes s p = true <-> substring p (str s).
Proof. apply includes_chars_spec. Qed.

Lemma substring_trans a b l :
  substring a (str b) -> substring b l -> substring a l.
Proof.
  intros (p1 & q1 & E1) (p2 & q2 & ->). rewrite E1.
  exists (p2 ++ p1), (q1 ++ q2). now rewrite <- !app_assoc.
Qed.

Lemma split_chars_substring sep l :
  forall cur x,
    In x (split_chars sep cur l) -> substring x (rev cur ++ l).
Proof.
  induction l as [|a l IH]; intros cur x; simpl.
  - intros [<-|[]]. exists [], []. now rewrite str_unstr, !app_nil_r.
  - destruct (Ascii.eqb a sep).
    + intros [<-|H].
      * exists [], (a :: l). now rewrite str_unstr.
      * apply IH in H as (pre & post & E). simpl in E.
        exists (rev cur ++ a :: pre), post. rewrite E.
        now rewrite <- app_assoc.
    + intros H. apply IH in H. simpl in H. now rewrite <- app_assoc in H.
Qed.

(** Every line of a document is a piece of it. *)
Lemma split_substring sep s x : In x (split sep s) -> substring x (str s).
Proof. apply (split_chars_substring sep (str s) []). Qed.

(** A line on which a header pattern matches has the keyword. *)
Lemma extractClassName_keyword l nm :
  extractClassName l = Some nm -> includes l "class" = true.
Proof.
  unfold extractClassName. destruct (exec _ l) as [m|] eqn:E; [|discriminate].
  intros _. apply exec_whole in E as [L S]. apply includes_substring.
  eapply substring_trans; [|exact S].
  destruct L as (w1 & w2 & -> & -> & w3 & w4 & -> & H3 & _).
  apply lang_Lit in H3. subst w3. exists [], w4. reflexivity.
Qed.

Lemma extractActorName_keyword l nm :
  extractActorName l = Some nm -> includes l "actor" = true.
Proof.
  unfold extractActorName. destruct (exec _ l) as [m|] eqn:E; [|discriminate].
  intros _. apply exec_whole in E as [L S]. apply includes_substring.
  eapply substring_trans; [|exact S].
  destruct L as (w1 & w2 & -> & -> & w3 & w4 & -> & H3 & _).
  apply lang_Lit in H3. subst w3. exists [], w4. reflexivity.
Qed.

Lemma not_included text l p :
  includes text p = false -> In l (split LF text) -> includes l p = false.
Proof.
  intros H Hl. apply not_true_iff_false'. intros Hp.
  rewrite includes_substring in Hp.
  assert (includes text p = true) as Ht.
  { apply includes_substring. eapply substring_trans; [exact Hp|].
    now apply (split_substring LF). }
  congruence.
Qed.

Lemma parse_lines_no_header lines parseArguments :
  lines <> [] ->
  (forall l, In l lines ->
     extractClassName l = None /\ extractActorName l = None) ->
  parse_lines lines parseArguments
  = Some (Node program "root" 0 0 (length lines - 1) []).
Proof.
  intros Hne Hno. unfold parse_lines.
  assert (0 < length lines) as Hlen by (destruct lines; simpl; [congruence | lia]).
  rewrite (parseTopLevel_skip lines parseArguments (length lines) 2 0);
    [| lia | lia |].
  - simpl. replace (length lines - 1 <? length lines) with true
      by (symmetry; apply Nat.ltb_lt; lia).
    reflexivity.
  - intros q l _ Hl. apply Hno, list_elem_of_In.
    eapply list_elem_of_lookup_2; eauto.
Qed.

(** X15: a document in which the words [class] and [actor] do not occur has a
    tree without any node but the root, whatever functions, variables and
    blocks it has. *)
Theorem X15_parse_without_class_or_actor (text : string) :
  includes text "class" = false -> includes text "actor" = false ->
  both_revisions (fun parse =>
    parse text = Some (Node program "root" 0 0 (lastLine text) [])).
Proof.
  intros Hc Ha.
  assert (forall l, In l (split LF text) ->
            extractClassName l = None /\ extractActorName l = None) as Hno.
  { intros l Hl. split.
    - destruct (extractClassName l) eqn:E; [|reflexivity].
      apply extractClassName_keyword in E.
      now rewrite (not_included text l _ Hc Hl) in E.
    - destruct (extractActorName l) eqn:E; [|reflexivity].
      apply extractActorName_keyword in E.
      now rewrite (not_included text l _ Ha Hl) in E. }
  split; apply parse_lines_no_header; auto; apply split_nonempty.
Qed.

Lemma X15_parse_without_class_or_actor_witness :
  both_revisions (fun parse =>
    parse doc_top_level_function = Some (Node program "root" 0 0 2 [])).
Proof.
  apply (X15_parse_without_class_or_actor doc_top_level_function);
    vm_compute; reflexivity.
Defined.

(** ** The type registry: catalogs and lookups *)

(** *** The user catalog *)

Section UserTypes.

Variable parseTypeString : string -> Types.TypeInfo.
Variable parseCommaSeparated : string -> list string.
Variable lines : list string.

Local Abbreviation extractTypeDefinition :=
  (Types.extractTypeDefinition parseTypeString parseCommaSeparated).
Local Abbreviation collectTypesRecursive :=
  (Types.collectTypesRecursive parseTypeString parseCommaSeparated).
Local Abbreviation collectUserTypes :=
  (Types.collectUserTypes parseTypeString parseCommaSeparated).

(** What one node adds to the user catalog. *)
Let record (user : gmap string Types.TypeDefinition) (n : ASTNode)
    : gmap string Types.TypeDefinition :=
  if top_kind (kind n) then <[name n := extractTypeDefinition n lines]> user
  else user.

Lemma collectTypesRecursive_effect node :
  forall s,
    collectTypesRecursive node lines s
    = (tt, Types.mkRegistry (Types.builtinTypes s)
             (fold_left record (nodes node) (Types.userTypes s))).
Proof.
  induction node as [k nm l st e cs IH] using ASTNode_ind. intros s.
  rewrite nodes_eq. cbn [Types.collectTypesRecursive fold_left].
  unfold Types.bind at 1.
  assert (forall s0,
            (fix each (l : list ASTNode) : Types.Method unit :=
               match l with
               | [] => Types.ret tt
               | child :: l' =>
                   Types.bind (collectTypesRecursive child lines)
                     (fun _ => each l')
               end) cs s0
            = (tt, Types.mkRegistry (Types.builtinTypes s0)
                     (fold_left record (flat_map nodes cs) (Types.userTypes s0))))
    as Heach.
  { induction IH as [|c cs Hc _ IHcs]; intros s0.
    - destruct s0. reflexivity.
    - unfold Types.bind at 1. rewrite Hc, IHcs. simpl.
      now rewrite fold_left_app. }
  destruct k; cbn [Types.setUser Types.ret]; rewrite Heach; try reflexivity.
Qed.

Lemma collectUserTypes_effect ast s :
  collectUserTypes ast lines s
  = (tt, Types.mkRegistry (Types.builtinTypes s)
           (fold_left record (nodes ast) ∅)).
Proof.
  unfold Types.collectUserTypes, Types.bind, Types.clearUser.
  now rewrite collectTypesRecursive_effect.
Qed.

Lemma fold_record_lookup nm ns :
  forall user,
    fold_left record ns user !! nm
    = match last (List.filter
                    (fun n => top_kind (kind n) && String.eqb (name n) nm) ns) with
      | Some n => Some (extractTypeDefinition n lines)
      | None => user !! nm
      end.
Proof.
  induction ns as [|n ns IH]; intros user; [reflexivity|].
  cbn [fold_left List.filter]. rewrite IH. unfold record.
  destruct (top_kind (kind n)) eqn:Ek; cbn [andb]; [|reflexivity].
  destruct (String.eqb_spec (name n) nm) as [E|E].
  - rewrite last_cons.
    destruct (last _); [reflexivity | now rewrite E, lookup_insert_eq].
  - destruct (last _); [reflexivity | now rewrite lookup_insert_ne].
Qed.

End UserTypes.

Section Registry.

Variable parseTypeString : string -> Types.TypeInfo.
Variable parseCommaSeparated : string -> list string.

Local Abbreviation extractTypeDefinition :=
  (Types.extractTypeDefinition parseTypeString parseCommaSeparated).
Local Abbreviation registryOf' := (registryOf parseTypeString parseCommaSeparated).

Lemma registryOf_userTypes ast lines r nm :
  Types.userTypes (registryOf' ast lines r) !! nm
  = (fun n => extractTypeDefinition n lines) <$> last (declarations nm ast).
Proof.
  unfold registryOf. rewrite collectUserTypes_effect. cbn [snd Types.userTypes].
  rewrite fold_record_lookup. unfold declarations.
  destruct (last _); reflexivity.
Qed.

(** X16: [collectUserTypes] leaves the builtin catalog alone, forgets the user
    catalog it finds, and records under each name the definition of the
    last class or actor of that name in the tree. *)
Theorem X16_collectUserTypes_replaces (ast : ASTNode) (lines : list string)
    (r : Types.TypeRegistry) :
  Types.builtinTypes (registryOf' ast lines r) = Types.builtinTypes r /\
  Types.userTypes (registryOf' ast lines r)
  = Types.userTypes (registryOf' ast lines Types.newTypeRegistry) /\
  forall nm,
    Types.userTypes (registryOf' ast lines r) !! nm
    = (fun n => extractTypeDefinition n lines) <$> last (declarations nm ast).
Proof.
  split; [|split].
  - unfold registryOf. now rewrite collectUserTypes_effect.
  - unfold registryOf. now rewrite !collectUserTypes_effect.
  - apply registryOf_userTypes.
Qed.

Lemma last_is_Some {A} (l : list A) : is_Some (last l) <-> l <> [].
Proof.
  split.
  - intros [x H] ->. discriminate.
  - intros H. destruct l as [|a l]; [congruence|].
    rewrite last_cons. destruct (last l); eauto.
Qed.

Lemma isUserDefinedType_spec (ast : ASTNode) (lines : list string)
    (r : Types.TypeRegistry) (nm : string) :
  fst (Types.isUserDefinedType nm (registryOf' ast lines r)) = true <->
  exists n, In n (nodes ast) /\ top_kind (kind n) = true /\ name n = nm.
Proof.
  unfold Types.isUserDefinedType, Types.hasUser. cbn [fst].
  rewrite bool_decide_eq_true, registryOf_userTypes, fmap_is_Some, last_is_Some.
  unfold declarations. split.
  - intros H. destruct (List.filter _ _) as [|n l] eqn:E; [congruence|].
    assert (In n (List.filter
                    (fun n => top_kind (kind n) && String.eqb (name n) nm)
                    (nodes ast))) as Hn by (rewrite E; now left).
    apply filter_In in Hn as [Hn Hb]. apply andb_true_iff in Hb as [Hk He].
    apply String.eqb_eq in He. eauto.
  - intros (n & Hn & Hk & He) E.
    assert (In n (List.filter
                    (fun n => top_kind (kind n) && String.eqb (name n) nm)
                    (nodes ast))) as Hf.
    { apply filter_In. split; [exact Hn|].
      rewrite Hk, He, String.eqb_refl. reflexivity. }
    rewrite E in Hf. destruct Hf.
Qed.

(** X17: after [collectUserTypes], the user-defined types are the names
    of the classes and actors of the tree, wherever they stand in it,
    and no other name. *)
Theorem X17_isUserDefinedType_iff (ast : ASTNode) (lines : list string)
    (r : Types.TypeRegistry) (nm : string) :
  fst (Types.isUserDefinedType nm (registryOf' ast lines r)) = true <->
  exists n, In n (nodes ast) /\ top_kind (kind n) = true /\ name n = nm.
Proof. exact (isUserDefinedType_spec ast lines r nm). Qed.

Lemma builtin_names nm :
  is_Some (Types.initBuiltinTypes !! nm) <->
  In nm ["Int"; "String"; "Bool"; "List"; "MutableMap"; "MutableSet"]%string.
Proof.
  unfold Types.initBuiltinTypes.
  rewrite !lookup_insert_is_Some, lookup_empty, is_Some_alt. simpl.
  split.
  - intuition auto.
  - intros H.
    repeat (destruct H as [<-|H];
            [repeat (first [left; reflexivity | right; split; [discriminate|]])|]).
    destruct H.
Qed.

(** X18: the builtin definitions cannot be shadowed: whatever classes and
    actors a document declares, a builtin name is answered from the
    builtin catalog, by [getTypeDefinition] and by [getMethodsForType]
    alike; the builtin names are the six of the catalog. *)
Theorem X18_builtin_types_win (ast : ASTNode) (lines : list string)
    (user : gmap string Types.TypeDefinition) :
  let r := registryOf' ast lines (registryWith user) in
  (forall nm d,
     Types.initBuiltinTypes !! nm = Some d ->
     fst (Types.getTypeDefinition nm r) = Some d) /\
  (forall ty d,
     Types.initBuiltinTypes !! Types.kindName (Types.kind ty) = Some d ->
     fst (Types.getMethodsForType ty r) = Types.resolveGenericMethods d ty) /\
  (forall nm,
     is_Some (Types.initBuiltinTypes !! nm) <->
     In nm ["Int"; "String"; "Bool"; "List"; "MutableMap"; "MutableSet"]%string).
Proof.
  cbv zeta. unfold registryOf. rewrite collectUserTypes_effect.
  cbn [snd registryWith Types.builtinTypes]. split; [|split].
  - intros nm d H. unfold Types.getTypeDefinition, Types.bind, Types.readBuiltin.
    cbn [Types.builtinTypes]. now rewrite H.
  - intros ty d H. unfold Types.getMethodsForType, Types.bind, Types.readBuiltin.
    cbn [Types.builtinTypes]. now rewrite H.
  - apply builtin_names.
Qed.

(** X19: for a user-defined type, [getMethodsForType], [getFieldsForType] and
    [getTypeDefinition] answer from the last class or actor of that name,
    and with nothing when there is none. *)
Theorem X19_custom_type_lookup (ast : ASTNode) (lines : list string)
    (user : gmap string Types.TypeDefinition) (nm : string) :
  let r := registryOf' ast lines (registryWith user) in
  let found :=
    (fun n => extractTypeDefinition n lines) <$> last (declarations nm ast) in
  fst (Types.getMethodsForType (customType nm) r)
  = default [] (Types.methods <$> found) /\
  fst (Types.getFieldsForType (customType nm) r)
  = default [] (Types.fields <$> found) /\
  (Types.initBuiltinTypes !! nm = None ->
   fst (Types.getTypeDefinition nm r) = found).
Proof.
  cbv zeta.
  pose proof (registryOf_userTypes ast lines (registryWith user) nm) as Hu.
  assert (Types.builtinTypes (registryOf' ast lines (registryWith user))
          = Types.initBuiltinTypes) as Hb.
  { unfold registryOf. now rewrite collectUserTypes_effect. }
  split; [|split].
  - unfold Types.getMethodsForType, Types.bind, Types.readBuiltin, Types.readUser.
    rewrite Hb. change (Types.initBuiltinTypes !! _) with (@None Types.TypeDefinition).
    cbn [fst]. change (Types.typeName (customType nm)) with nm. rewrite Hu.
    destruct (last _); reflexivity.
  - unfold Types.getFieldsForType, Types.bind, Types.readUser.
    change (Types.typeName (customType nm)) with nm. rewrite Hu.
    destruct (last _); reflexivity.
  - intros Hn. unfold Types.getTypeDefinition, Types.bind, Types.readBuiltin,
      Types.readUser. rewrite Hb, Hn. cbn [fst]. exact Hu.
Qed.

End Registry.

(** *** Type definitions read from the tree *)

Section TypeDefinitions.

Variable parseTypeString : string -> Types.TypeInfo.
Variable parseCommaSeparated : string -> list string.

Local Abbreviation extractTypeDefinition :=
  (Types.extractTypeDefinition parseTypeString parseCommaSeparated).
Local Abbreviation parseMethodFromLine :=
  (Types.parseMethodFromLine parseTypeString parseCommaSeparated).
Local Abbreviation parseFieldFromLine :=
  (Types.parseFieldFromLine parseTypeString).

Lemma parseMethodFromLine_name c lines :
  Types.m_name <$> parseMethodFromLine c lines
  = if line c <? length lines then Some (name c) else None.
Proof.
  unfold Types.parseMethodFromLine.
  destruct (lines !! line c) as [l|] eqn:E.
  - apply lookup_lt_Some in E. apply Nat.ltb_lt in E. rewrite E.
    destruct (extractFunctionSignature _) as [[[? ?] ?]|]; reflexivity.
  - apply lookup_ge_None in E. apply Nat.ltb_ge in E. now rewrite E.
Qed.

Lemma parseFieldFromLine_name c lines :
  Types.f_name <$> parseFieldFromLine c lines
  = if line c <? length lines then Some (name c) else None.
Proof.
  unfold Types.parseFieldFromLine.
  destruct (lines !! line c) as [l|] eqn:E.
  - apply lookup_lt_Some in E. apply Nat.ltb_lt in E. rewrite E.
    destruct (extractDeclarationKeywordNameAndType _) as [[[? ?] ?]|]; reflexivity.
  - apply lookup_ge_None in E. apply Nat.ltb_ge in E. now rewrite E.
Qed.

(** X20: the definition extracted from a class or actor node is a Custom type
    named like the node, without generic parameters; its methods are the
    function children and its fields the variable children (the
    parameters of the header among them), in the order of the children,
    as far as their lines exist. *)
Theorem X20_extractTypeDefinition_members (node : ASTNode) (lines : list string) :
  let def := extractTypeDefinition node lines in
  Types.d_kind def = Types.KCustom /\
  Types.d_name def = name node /\
  Types.genericParams def = None /\
  map Types.m_name (Types.methods def)
  = map name (readableChildren function lines node) /\
  map Types.f_name (Types.fields def)
  = map name (readableChildren variable lines node).
Proof.
  cbv zeta. unfold Types.extractTypeDefinition, readableChildren.
  cbn [Types.d_kind Types.d_name Types.genericParams Types.methods Types.fields].
  repeat split.
  - induction (children node) as [|c cs IH]; [reflexivity|].
    cbn [omap list_omap List.filter].
    pose proof (parseMethodFromLine_name c lines) as Hc.
    destruct (kind c); cbn [NodeKind_eqb andb]; try exact IH.
    destruct (parseMethodFromLine c lines) as [m|]; simpl in Hc;
      destruct (line c <? length lines); try discriminate; [|exact IH].
    injection Hc as Hc. simpl. now rewrite Hc, IH.
  - induction (children node) as [|c cs IH]; [reflexivity|].
    cbn [omap list_omap List.filter].
    pose proof (parseFieldFromLine_name c lines) as Hc.
    destruct (kind c); cbn [NodeKind_eqb andb]; try exact IH.
    destruct (parseFieldFromLine c lines) as [m|]; simpl in Hc;
      destruct (line c <? length lines); try discriminate; [|exact IH].
    injection Hc as Hc. simpl. now rewrite Hc, IH.
Qed.

End TypeDefinitions.

(** *** Resolution of generic parameters *)

Lemma TypeInfo_ind' (P : Types.TypeInfo -> Prop) :
  (forall k g n a,
     match g with Some gs => Forall P gs | None => True end ->
     P (Types.mkTypeInfo k g n a)) ->
  forall ty, P ty.
Proof.
  intros H. fix IH 1. intros [k g n a]. apply H.
  destruct g as [gs|]; [|exact I].
  induction gs as [|x gs IHgs]; constructor; [apply IH | exact IHgs].
Qed.

Lemma resolve_each_map gs genericMap :
  (fix each (l : list Types.TypeInfo) : list Types.TypeInfo :=
     match l with
     | [] => []
     | x :: l' => Types.resolveGenericType x genericMap :: each l'
     end) gs
  = map (fun x => Types.resolveGenericType x genericMap) gs.
Proof.
  induction gs as [|x gs IH]; [reflexivity|]. cbn [map]. now rewrite <- IH.
Qed.

(** A type that mentions none of the names of the mapping is left as it
    is. *)
Lemma resolveGenericType_fixed genericMap ty :
  (forall nm, is_Some (genericMap !! nm) -> mentions nm ty = false) ->
  Types.resolveGenericType ty genericMap = ty.
Proof.
  induction ty as [k g n a IH] using TypeInfo_ind'. intros H.
  cbn [Types.resolveGenericType].
  assert ((n' ← Types.truthy n; genericMap !! n') = None) as ->.
  { destruct n as [n|]; [|reflexivity].
    destruct (Types.truthy (Some n)) as [n'|] eqn:E; [|reflexivity].
    assert (n' = n) as -> by (destruct n; simpl in E; congruence).
    simpl. destruct (genericMap !! n) eqn:En; [|reflexivity].
    specialize (H n (ltac:(eauto))). simpl in H.
    now rewrite String.eqb_refl in H. }
  destruct g as [gs|]; [|reflexivity].
  rewrite resolve_each_map. f_equal. f_equal.
  rewrite <- (map_id gs) at 2. apply map_ext_Forall.
  rewrite List.Forall_forall in IH |- *. intros x Hx. apply IH; [exact Hx|].
  intros nm Hnm. specialize (H nm Hnm). simpl in H.
  apply orb_false_iff in H as [_ H].
  rewrite <- not_true_iff_false in H. apply not_true_iff_false.
  intros Hm. apply H. apply existsb_exists. eauto.
Qed.

Lemma resolveMethod_fixed genericMap m :
  (forall nm, is_Some (genericMap !! nm) -> method_mentions nm m = false) ->
  Types.resolveMethod genericMap m = m.
Proof.
  intros H. destruct m as [nm ret ps doc]. unfold Types.resolveMethod.
  cbn [Types.m_name Types.returnType Types.params Types.documentation].
  f_equal.
  - apply resolveGenericType_fixed. intros x Hx. specialize (H x Hx).
    unfold method_mentions in H. simpl in H. now apply orb_false_iff in H as [H _].
  - rewrite <- (map_id ps) at 2. apply map_ext_Forall.
    apply List.Forall_forall. intros p Hp. destruct p as [pn pt].
    unfold Types.resolveParam. simpl. f_equal.
    apply resolveGenericType_fixed. intros x Hx. specialize (H x Hx).
    unfold method_mentions in H. simpl in H. apply orb_false_iff in H as [_ H].
    rewrite <- not_true_iff_false in H. apply not_true_iff_false.
    intros Hm. apply H. apply existsb_exists. exists (Types.mkParam pn pt). eauto.
Qed.

Lemma buildGenericMap_keys names :
  forall args genericMap nm,
    is_Some (Types.buildGenericMap names args genericMap !! nm) ->
    In nm names \/ is_Some (genericMap !! nm).
Proof.
  induction names as [|n names IH]; intros args genericMap nm; simpl; [auto|].
  destruct args as [|a args]; [auto|]. intros H. apply IH in H as [H|H]; [auto|].
  apply lookup_insert_is_Some in H as [<-|[_ H]]; auto.
Qed.

(** X21: resolving the generic parameters of a definition keeps the methods,
    their names, their documentation and the names of their parameters;
    a method that mentions none of the parameters is not changed at all,
    and without arguments nothing is. *)
Theorem X21_resolveGenericMethods_keeps (typeDef : Types.TypeDefinition)
    (typeInfo : Types.TypeInfo) :
  let resolved := Types.resolveGenericMethods typeDef typeInfo in
  map Types.m_name resolved = map Types.m_name (Types.methods typeDef) /\
  map Types.documentation resolved
  = map Types.documentation (Types.methods typeDef) /\
  map (fun m => map Types.p_name (Types.params m)) resolved
  = map (fun m => map Types.p_name (Types.params m)) (Types.methods typeDef) /\
  (forall i m,
     Types.methods typeDef !! i = Some m ->
     (forall nm, In nm (default [] (Types.genericParams typeDef)) ->
                 method_mentions nm m = false) ->
     resolved !! i = Some m) /\
  (Types.generics typeInfo = None \/ Types.generics typeInfo = Some [] ->
   resolved = Types.methods typeDef).
Proof.
  cbv zeta. unfold Types.resolveGenericMethods.
  destruct (Types.genericParams typeDef) as [names|];
    [|repeat split; auto].
  destruct (Types.generics typeInfo) as [args|]; [|repeat split; auto].
  set (genericMap := Types.buildGenericMap names args ∅).
  split; [|split; [|split; [|split]]].
  - rewrite map_map. reflexivity.
  - rewrite map_map. reflexivity.
  - rewrite map_map. apply map_ext. intros m. simpl. rewrite map_map. reflexivity.
  - intros i m Hm Hno. rewrite list_lookup_fmap, Hm. simpl. f_equal.
    apply resolveMethod_fixed. intros nm Hnm. apply Hno. simpl.
    apply buildGenericMap_keys in Hnm as [H|H]; [exact H|].
    rewrite lookup_empty in H. now destruct H.
  - intros [H|H]; [discriminate|]. injection H as ->.
    rewrite <- (map_id (Types.methods typeDef)) at 2. apply map_ext.
    intros m. apply resolveMethod_fixed. intros nm Hnm. subst genericMap.
    destruct names; simpl in Hnm; rewrite lookup_empty in Hnm; now destruct Hnm.
Qed.

(** ** The inference engine of [inlay.ts]: scans and merges *)

(** *** The engine of [inlay.ts]: merging *)

(** The kind of a merged type: RandomAny only when both types are
    RandomAny, and otherwise the kind of one of the two, or Custom when
    the two kinds are known and differ. *)
Lemma mergeTypes_kind (a b : Inlay.TypeInfo) :
  (Inlay.kind (Inlay.mergeTypes a b) = Inlay.KRandomAny <->
   Inlay.kind a = Inlay.KRandomAny /\ Inlay.kind b = Inlay.KRandomAny) /\
  Inlay.kind (Inlay.mergeTypes a b)
  = (if Inlay.TypeKind_eqb (Inlay.kind a) (Inlay.kind b) then Inlay.kind a
     else if Inlay.TypeKind_eqb (Inlay.kind a) Inlay.KRandomAny then Inlay.kind b
     else if Inlay.TypeKind_eqb (Inlay.kind b) Inlay.KRandomAny then Inlay.kind a
     else Inlay.KCustom).
Proof.
  assert (Inlay.kind (Inlay.mergeTypes a b)
          = (if Inlay.TypeKind_eqb (Inlay.kind a) (Inlay.kind b) then Inlay.kind a
             else if Inlay.TypeKind_eqb (Inlay.kind a) Inlay.KRandomAny
                  then Inlay.kind b
             else if Inlay.TypeKind_eqb (Inlay.kind b) Inlay.KRandomAny
                  then Inlay.kind a
             else Inlay.KCustom)) as E.
  { destruct a as [ka ga na]. cbn [Inlay.mergeTypes Inlay.kind].
    destruct (Inlay.TypeKind_eqb ka (Inlay.kind b)).
    - destruct ga as [gs|]; [|reflexivity].
      destruct (Inlay.generics b) as [hs|]; [|reflexivity].
      destruct (length gs =? length hs); reflexivity.
    - destruct (Inlay.TypeKind_eqb ka Inlay.KRandomAny); [reflexivity|].
      destruct (Inlay.TypeKind_eqb (Inlay.kind b) Inlay.KRandomAny); reflexivity. }
  split; [|exact E]. rewrite E.
  destruct (Inlay.kind a), (Inlay.kind b); simpl; split;
    (intros [? ?] || intros ?); try discriminate; auto.
Qed.

(** *** The engine of [inlay.ts]: the scans *)

Lemma TypeKind_eqb_refl k : Inlay.TypeKind_eqb k k = true.
Proof. now destruct k. Qed.

Lemma mergeListElementType_keeps listName elemType types nm t :
  types !! nm = Some t ->
  exists t', Inlay.mergeListElementType listName elemType types !! nm = Some t' /\
             (Inlay.kind t <> Inlay.KRandomAny -> Inlay.kind t' = Inlay.kind t) /\
             (settled (Inlay.kind t) = true -> t' = t).
Proof.
  intros Hnm. unfold Inlay.mergeListElementType.
  destruct (decide (listName = nm)) as [->|Hne].
  - rewrite Hnm.
    destruct (Inlay.TypeKind_eqb (Inlay.kind t) Inlay.KRandomAny) eqn:E1.
    { apply TypeKind_eqb_eq in E1. rewrite lookup_insert_eq. eexists.
      split; [reflexivity|]. rewrite E1. split; [congruence | discriminate]. }
    destruct (Inlay.TypeKind_eqb (Inlay.kind t) Inlay.KList) eqn:E2.
    { apply TypeKind_eqb_eq in E2. rewrite lookup_insert_eq. eexists.
      split; [reflexivity|]. rewrite E2. split; [reflexivity | discriminate]. }
    exists t. auto.
  - exists t. split; [|auto].
    destruct (types !! listName) as [ex|];
      [|now rewrite lookup_insert_ne].
    destruct (Inlay.TypeKind_eqb (Inlay.kind ex) Inlay.KRandomAny);
      [now rewrite lookup_insert_ne|].
    destruct (Inlay.TypeKind_eqb (Inlay.kind ex) Inlay.KList);
      [now rewrite lookup_insert_ne | exact Hnm].
Qed.

Lemma mergeMapTypes_keeps mapName keyType valType types nm t :
  types !! nm = Some t ->
  exists t', Inlay.mergeMapTypes mapName keyType valType types !! nm = Some t' /\
             (Inlay.kind t <> Inlay.KRandomAny -> Inlay.kind t' = Inlay.kind t) /\
             (settled (Inlay.kind t) = true -> t' = t).
Proof.
  intros Hnm. unfold Inlay.mergeMapTypes.
  destruct (decide (mapName = nm)) as [->|Hne].
  - rewrite Hnm.
    destruct (Inlay.TypeKind_eqb (Inlay.kind t) Inlay.KRandomAny) eqn:E1.
    { apply TypeKind_eqb_eq in E1. rewrite lookup_insert_eq. eexists.
      split; [reflexivity|]. rewrite E1. split; [congruence | discriminate]. }
    destruct (Inlay.TypeKind_eqb (Inlay.kind t) Inlay.KMap) eqn:E2.
    { apply TypeKind_eqb_eq in E2. rewrite lookup_insert_eq. eexists.
      split; [reflexivity|]. rewrite E2. split; [reflexivity | discriminate]. }
    exists t. auto.
  - exists t. split; [|auto].
    destruct (types !! mapName) as [ex|];
      [|now rewrite lookup_insert_ne].
    destruct (Inlay.TypeKind_eqb (Inlay.kind ex) Inlay.KRandomAny);
      [now rewrite lookup_insert_ne|].
    destruct (Inlay.TypeKind_eqb (Inlay.kind ex) Inlay.KMap);
      [now rewrite lookup_insert_ne | exact Hnm].
Qed.

Lemma scanCollectionUsage_keeps types raw nm t :
  types !! nm = Some t ->
  exists t', Inlay.scanCollectionUsage types raw !! nm = Some t' /\
             (Inlay.kind t <> Inlay.KRandomAny -> Inlay.kind t' = Inlay.kind t) /\
             (settled (Inlay.kind t) = true -> t' = t).
Proof.
  intros Hnm. unfold Inlay.scanCollectionUsage.
  assert (exists t1, Inlay.scanAdd (trim raw) types !! nm = Some t1 /\
             (Inlay.kind t <> Inlay.KRandomAny -> Inlay.kind t1 = Inlay.kind t) /\
             (settled (Inlay.kind t) = true -> t1 = t)) as (t1 & H1 & K1 & S1).
  { unfold Inlay.scanAdd. destruct (exec _ _) as [m|]; [|eauto].
    destruct (group 1 m); [|eauto]. destruct (group 2 m); [|eauto].
    now apply mergeListElementType_keeps. }
  assert (exists t2, Inlay.scanPut (trim raw) (Inlay.scanAdd (trim raw) types) !! nm
                     = Some t2 /\
             (Inlay.kind t1 <> Inlay.KRandomAny -> Inlay.kind t2 = Inlay.kind t1) /\
             (settled (Inlay.kind t1) = true -> t2 = t1)) as (t2 & H2 & K2 & S2).
  { unfold Inlay.scanPut. destruct (exec Inlay.putRegex _) as [m|]; [|eauto].
    destruct (group 1 m); [|eauto]. destruct (group 2 m); [|eauto].
    destruct (group 3 m); [|eauto].
    now apply mergeMapTypes_keeps. }
  exists t2. split; [exact H2|]. split.
  - intros Hk. rewrite K2, K1; auto. rewrite K1; auto.
  - intros Hs. rewrite S2; rewrite S1; auto.
Qed.

(** X22: the scan of the collection usages keeps every entry that has a kind:
    a list stays a list, a map stays a map, and an entry of any other
    known kind is not changed at all, whatever [add] or [put] is called
    on its name. *)
Theorem X22_scanCollectionUsages_keeps_kinds (lines : list string)
    (types : Inlay.TypeMap) (nm : string) (t : Inlay.TypeInfo) :
  types !! nm = Some t ->
  exists t', Inlay.scanCollectionUsages lines types !! nm = Some t' /\
             (Inlay.kind t <> Inlay.KRandomAny -> Inlay.kind t' = Inlay.kind t) /\
             (settled (Inlay.kind t) = true -> t' = t).
Proof.
  unfold Inlay.scanCollectionUsages. revert types t.
  induction lines as [|raw lines IH]; intros types t Hnm; [simpl; eauto|].
  cbn [fold_left].
  destruct (scanCollectionUsage_keeps types raw nm t Hnm) as (t1 & H1 & K1 & S1).
  destruct (IH _ _ H1) as (t2 & H2 & K2 & S2).
  exists t2. split; [exact H2|]. split.
  - intros Hk. rewrite K2, K1; auto. rewrite K1; auto.
  - intros Hs. rewrite S2; rewrite S1; auto.
Qed.

Lemma X22_scanCollectionUsages_keeps_witness :
  exists t',
    Inlay.scanCollectionUsages ["n.add(1)"%string]
      (<["n"%string := Inlay.make0 Inlay.KInt]> ∅) !! "n"%string = Some t' /\
    (Inlay.kind (Inlay.make0 Inlay.KInt) <> Inlay.KRandomAny ->
     Inlay.kind t' = Inlay.kind (Inlay.make0 Inlay.KInt)) /\
    (settled (Inlay.kind (Inlay.make0 Inlay.KInt)) = true ->
     t' = Inlay.make0 Inlay.KInt).
Proof.
  apply (X22_scanCollectionUsages_keeps_kinds ["n.add(1)"%string]
           (<["n"%string := Inlay.make0 Inlay.KInt]> ∅) "n"
           (Inlay.make0 Inlay.KInt)).
  vm_compute. reflexivity.
Defined.

Lemma scanInitializers_lookup lines :
  forall types nm,
    Inlay.scanInitializers lines types !! nm
    = match last (omap (initializerOf nm) lines) with
      | Some value => Some (Inlay.inferExpressionType value)
      | None => types !! nm
      end.
Proof.
  unfold Inlay.scanInitializers.
  induction lines as [|raw lines IH]; intros types nm; [reflexivity|].
  cbn [fold_left omap list_omap]. rewrite IH, scanInitializer_read.
  unfold initializerOf at 2.
  destruct (readInitializer raw) as [[name value]|]; cbn [mbind option_bind];
    [|reflexivity].
  destruct (String.eqb_spec name nm) as [->|Hne].
  - rewrite last_cons. destruct (last _); [reflexivity | apply lookup_insert_eq].
  - destruct (last _); [reflexivity | now apply lookup_insert_ne].
Qed.

(** X23: the type that [scanInitializers] gives a name comes from the last
    line of the document that declares this name with an initializer,
    wherever the declarations stand; a name without such a line keeps
    what it had. *)
Theorem X23_scanInitializers_last_wins (lines : list string)
    (types : Inlay.TypeMap) (nm : string) :
  Inlay.scanInitializers lines types !! nm
  = match last (omap (initializerOf nm) lines) with
    | Some value => Some (Inlay.inferExpressionType value)
    | None => types !! nm
    end.
Proof. apply scanInitializers_lookup. Qed.

Lemma declare_keeps n types nm :
  is_Some (types !! nm) -> is_Some (Inlay.declare n types !! nm).
Proof.
  intros H. unfold Inlay.declare. destruct (NodeKind_eqb _ _); [|exact H].
  destruct (types !! name n); [exact H|].
  apply lookup_insert_is_Some. destruct (decide (name n = nm)); auto.
Qed.

Lemma declare_declares n types :
  kind n = variable -> is_Some (Inlay.declare n types !! name n).
Proof.
  intros Hk. unfold Inlay.declare. rewrite Hk. simpl.
  destruct (types !! name n) eqn:E; [rewrite E; eauto|].
  rewrite lookup_insert_eq. eauto.
Qed.

Lemma collectDeclarationsFromAST_spec ast :
  forall types,
    (forall nm, is_Some (types !! nm) ->
                is_Some (Inlay.collectDeclarationsFromAST ast types !! nm)) /\
    (forall n, In n (nodes ast) -> kind n = variable ->
               is_Some (Inlay.collectDeclarationsFromAST ast types !! name n)).
Proof.
  induction ast as [k nm l s e cs IH] using ASTNode_ind. intros types.
  cbn [Inlay.collectDeclarationsFromAST]. rewrite nodes_eq.
  set (visit := fix visit (l : list ASTNode) (acc : Inlay.TypeMap) : Inlay.TypeMap :=
         match l with
         | [] => acc
         | c :: l' => Inlay.collectDeclarationsFromAST c (visit l' acc)
         end).
  assert (forall acc,
            (forall x, is_Some (acc !! x) -> is_Some (visit cs acc !! x)) /\
            (forall n, In n (flat_map nodes cs) -> kind n = variable ->
                       is_Some (visit cs acc !! name n))) as Hvisit.
  { induction IH as [|c cs Hc _ IHcs]; intros acc.
    - split; [auto | intros n []].
    - destruct (IHcs acc) as [K1 D1]. destruct (Hc (visit cs acc)) as [K2 D2].
      split.
      + intros x Hx. cbn [visit]. auto.
      + intros n Hn Hk. cbn [visit flat_map] in *.
        apply in_app_or in Hn as [Hn|Hn]; auto. }
  destruct (Hvisit (Inlay.declare (Node k nm l s e cs) types)) as [K D].
  split.
  - intros x Hx. apply K. now apply declare_keeps.
  - intros n [<-|Hn] Hk; [|auto]. apply K. now apply declare_declares.
Qed.

Lemma fold_left_keeps {A} (f : Inlay.TypeMap -> A -> Inlay.TypeMap) nm :
  (forall types a, is_Some (types !! nm) -> is_Some (f types a !! nm)) ->
  forall l types, is_Some (types !! nm) -> is_Some (fold_left f l types !! nm).
Proof.
  intros Hf. induction l as [|a l IH]; intros types H; [exact H|].
  simpl. apply IH, Hf, H.
Qed.

Lemma insert_keeps (types : Inlay.TypeMap) k v nm :
  is_Some (types !! nm) -> is_Some (<[k := v]> types !! nm).
Proof.
  intros H. apply lookup_insert_is_Some. destruct (decide (k = nm)); auto.
Qed.

Lemma scanInitializer_keeps types raw nm :
  is_Some (types !! nm) -> is_Some (Inlay.scanInitializer types raw !! nm).
Proof.
  intros H. rewrite scanInitializer_read.
  destruct (readInitializer raw) as [[? ?]|]; [now apply insert_keeps | exact H].
Qed.

Lemma scanBinaryOp_keeps types raw nm :
  is_Some (types !! nm) -> is_Some (Inlay.scanBinaryOp types raw !! nm).
Proof.
  intros H. unfold Inlay.scanBinaryOp.
  destruct (exec Inlay.binRegex _) as [m|]; [|exact H].
  destruct (group 1 m); [|exact H]. destruct (group 3 m); [|exact H].
  destruct (_ && _); [|exact H].
  destruct (exec Inlay.assignRegex _) as [am|]; [|exact H].
  destruct (group 1 am); [now apply insert_keeps | exact H].
Qed.

(** X24: every variable of the tree handed to [inferFromText] has a type in
    the result, and no scan removes a name that has one. *)
Theorem X24_inferFromText_types_every_variable (text : string) (ast : ASTNode)
    (n : ASTNode) :
  In n (nodes ast) -> kind n = variable ->
  is_Some (Inlay.inferFromText text (Some ast) !! name n).
Proof.
  intros Hn Hk. unfold Inlay.inferFromText.
  apply (fold_left_keeps Inlay.scanBinaryOp);
    [intros; now apply scanBinaryOp_keeps|].
  apply (fold_left_keeps Inlay.scanCollectionUsage).
  { intros types a [t Ht].
    destruct (scanCollectionUsage_keeps types a _ t Ht) as (t' & -> & _). eauto. }
  apply (fold_left_keeps Inlay.scanInitializer);
    [intros; now apply scanInitializer_keeps|].
  now apply collectDeclarationsFromAST_spec.
Qed.

Lemma X24_inferFromText_types_every_variable_witness :
  is_Some (Inlay.inferFromText "var x"
             (Some (Node program "root" 0 0 0 [Node variable "x" 0 0 0 []]))
           !! "x"%string).
Proof.
  apply (X24_inferFromText_types_every_variable "var x"
           (Node program "root" 0 0 0 [Node variable "x" 0 0 0 []])
           (Node variable "x" 0 0 0 [])).
  - simpl. right. now left.
  - reflexivity.
Defined.

(** *** Lines and line breaks *)

Lemma match_at_lineBreak b l :
  match_at Inlay.lineBreak (Input b l)
  = match l with
    | [] => None
    | a :: rest =>
        if is_char LF a
        then Some (Matched (Input b l) (Input (a :: b) rest) [])
        else if is_char CR a then
          match rest with
          | c :: rest' =>
              if is_char LF c
              then Some (Matched (Input b l) (Input (c :: a :: b) rest') [])
              else None
          | [] => None
          end
        else None
    end.
Proof.
  unfold match_at, Inlay.lineBreak, Opt, chr. cbn [rmatch].
  destruct l as [|a rest]; [reflexivity|].
  unfold step. cbn [after before].
  destruct (is_char LF a) eqn:El.
  { assert (is_char CR a = false) as ->.
    { unfold is_char in *. apply Ascii.eqb_eq in El. now subst a. }
    reflexivity. }
  destruct (is_char CR a) eqn:Ec; [|reflexivity].
  destruct rest as [|c rest']; [reflexivity|].
  destruct (is_char LF c); reflexivity.
Qed.

Lemma split_regex_from_lineBreak n :
  forall cur b l,
    length l <= n ->
    split_regex_from Inlay.lineBreak n cur (Input b l) = split_lines cur l.
Proof.
  induction n as [|n IH]; intros cur b l Hn.
  { destruct l; [reflexivity | simpl in Hn; lia]. }
  cbn [split_regex_from after]. destruct l as [|a rest]; [reflexivity|].
  rewrite match_at_lineBreak. cbn [before split_lines]. simpl in Hn.
  destruct (is_char LF a).
  { cbn [m_end after length]. 
    replace (length rest =? S (length rest)) with false
      by (symmetry; apply Nat.eqb_neq; lia).
    cbn [andb]. rewrite IH by lia. reflexivity. }
  destruct (is_char CR a); [|apply IH; lia].
  destruct rest as [|c rest']; [apply IH; simpl; lia|].
  destruct (is_char LF c); [|apply IH; simpl in *; lia].
  cbn [m_end after length].
  replace (length rest' =? S (S (length rest'))) with false
    by (symmetry; apply Nat.eqb_neq; lia).
  cbn [andb]. rewrite IH by (simpl in Hn; lia). reflexivity.
Qed.

(** [text.split(/\r?\n/)] yields the lines of the text. *)
Lemma split_regex_lineBreak s :
  split_regex Inlay.lineBreak s = split_lines [] (str s).
Proof.
  destruct s as [|a s]; [reflexivity|]. unfold split_regex, at_start.
  apply split_regex_from_lineBreak.
  rewrite <- string_length_str. lia.
Qed.

Lemma split_lines_crlf n :
  forall s cur,
    String.length s <= n ->
    Forall2 same_line (split_lines cur (str (crlf s))) (split_lines cur (str s)).
Proof.
  induction n as [|n IH]; intros s cur Hn.
  { destruct s; [|simpl in Hn; lia]. constructor; [now left | constructor]. }
  destruct s as [|a s]; [constructor; [now left | constructor]|].
  simpl in Hn. cbn [crlf].
  destruct (Ascii.eqb a LF) eqn:El.
  { apply Ascii.eqb_eq in El. subst a.
    change (str (String CR (String LF (crlf s)))) with (CR :: LF :: str (crlf s)).
    change (str (String LF s)) with (LF :: str s).
    cbn [split_lines]. 
    change (is_char LF CR) with false. change (is_char CR CR) with true.
    change (is_char LF LF) with true. cbn iota.
    constructor; [now left | apply IH; lia]. }
  change (str (String a (crlf s))) with (a :: str (crlf s)).
  change (str (String a s)) with (a :: str s).
  assert (is_char LF a = false) as Ea
    by (unfold is_char; now rewrite Ascii.eqb_sym).
  cbn [split_lines]. rewrite !Ea.
  destruct (is_char CR a) eqn:Ec; [|apply IH; lia].
  destruct s as [|b s']; [constructor; [now left | constructor]|].
  cbn [crlf]. destruct (Ascii.eqb b LF) eqn:Eb.
  - apply Ascii.eqb_eq in Eb. subst b.
    change (str (String CR (String LF (crlf s')))) with (CR :: LF :: str (crlf s')).
    change (str (String LF s')) with (LF :: str s').
    change (is_char LF CR) with false. change (is_char LF LF) with true.
    cbn iota. cbn [split_lines].
    change (is_char LF CR) with false. change (is_char CR CR) with true.
    change (is_char LF LF) with true. cbn iota.
    constructor; [|apply IH; simpl in Hn; lia].
    right. unfold is_char in Ec. apply Ascii.eqb_eq in Ec. subst a.
    cbn [rev]. apply unstr_snoc.
  - change (str (String b (crlf s'))) with (b :: str (crlf s')).
    change (str (String b s')) with (b :: str s').
    assert (is_char LF b = false) as Eb'
      by (unfold is_char; now rewrite Ascii.eqb_sym).
    cbn iota. rewrite !Eb'.
    specialize (IH (String b s') (a :: cur)). cbn [crlf] in IH. rewrite Eb in IH.
    apply IH. simpl in *. lia.
Qed.

Lemma trim_start_snoc_space l a :
  is_space a = true ->
  trim_start (l ++ [a])
  = if forallb is_space l then [] else trim_start l ++ [a].
Proof.
  intros Ha. induction l as [|b l IH]; simpl; [now rewrite Ha|].
  destruct (is_space b); simpl; [exact IH | reflexivity].
Qed.

Lemma trim_start_all_space l : forallb is_space l = true -> trim_start l = [].
Proof.
  induction l as [|b l IH]; simpl; [reflexivity|].
  destruct (is_space b); simpl; [exact IH | discriminate].
Qed.

(** [trim] removes a carriage return left at the end of a line. *)
Lemma trim_same_line l' l : same_line l' l -> trim l' = trim l.
Proof.
  intros [-> | ->]; [reflexivity|]. unfold trim, cr.
  rewrite str_app. change (str (String CR "")) with [CR].
  rewrite trim_start_snoc_space by reflexivity.
  destruct (forallb is_space (str l)) eqn:E.
  - now rewrite (trim_start_all_space _ E).
  - rewrite rev_app_distr. reflexivity.
Qed.

Lemma fold_left_trimmed {A} (f : A -> string -> A) lines' lines :
  (forall x l' l, trim l' = trim l -> f x l' = f x l) ->
  Forall2 same_line lines' lines ->
  forall x, fold_left f lines' x = fold_left f lines x.
Proof.
  intros Hf H. induction H as [|l' l ls' ls Hl _ IH]; intros x; [reflexivity|].
  simpl. rewrite (Hf x l' l (trim_same_line _ _ Hl)). apply IH.
Qed.

(** X25: the line endings of a text do not matter to the inference: with
    CR LF for every line feed, the inferred types are the same. *)
Theorem X25_inferFromText_crlf (text : string) (ast : option ASTNode) :
  Inlay.inferFromText (crlf text) ast = Inlay.inferFromText text ast.
Proof.
  unfold Inlay.inferFromText, Inlay.scanInitializers,
    Inlay.scanCollectionUsages, Inlay.scanBinaryOps.
  rewrite !split_regex_lineBreak.
  pose proof (split_lines_crlf _ text [] (le_n _)) as H.
  rewrite (fold_left_trimmed Inlay.scanInitializer _ _
             ltac:(intros x l' l E; unfold Inlay.scanInitializer; now rewrite E) H).
  rewrite (fold_left_trimmed Inlay.scanCollectionUsage _ _
             ltac:(intros x l' l E; unfold Inlay.scanCollectionUsage; now rewrite E) H).
  rewrite (fold_left_trimmed Inlay.scanBinaryOp _ _
             ltac:(intros x l' l E; unfold Inlay.scanBinaryOp; now rewrite E) H).
  reflexivity.
Qed.

Lemma split_chars_split_lines n :
  forall l cur,
    length l <= n ->
    Forall2 same_line (split_chars LF cur l) (split_lines cur l).
Proof.
  induction n as [|n IH]; intros l cur Hn.
  { destruct l; [|simpl in Hn; lia]. constructor; [now left | constructor]. }
  destruct l as [|a rest]; [constructor; [now left | constructor]|].
  simpl in Hn. cbn [split_lines split_chars]. unfold is_char.
  rewrite (Ascii.eqb_sym LF a).
  destruct (Ascii.eqb a LF) eqn:El.
  { constructor; [now left | apply IH; lia]. }
  destruct (Ascii.eqb CR a) eqn:Ec; [|apply IH; lia].
  destruct rest as [|c rest']; [apply IH; simpl; lia|].
  rewrite (Ascii.eqb_sym LF c).
  destruct (Ascii.eqb c LF) eqn:Eb; [|apply IH; simpl in *; lia].
  cbn [split_chars]. rewrite Eb.
  constructor; [|apply IH; simpl in Hn; lia].
  right. apply Ascii.eqb_eq in Ec. subst a. cbn [rev]. apply unstr_snoc.
Qed.

(** X26: the parser ([split] at line feeds) and the inference ([split] at
    [\r?\n]) see the same lines under the same indices: as many lines,
    and at each index the line of the parser is the line of the
    inference, followed by one carriage return where the line break was
    CR LF. *)
Theorem X26_parser_and_inference_see_the_same_lines (text : string) :
  length (split_regex Inlay.lineBreak text) = length (split LF text) /\
  Forall2 same_line (split LF text) (split_regex Inlay.lineBreak text) /\
  forall i,
    trim <$> (split LF text !! i)
    = trim <$> (split_regex Inlay.lineBreak text !! i).
Proof.
  assert (Forall2 same_line (split LF text) (split_regex Inlay.lineBreak text))
    as H.
  { rewrite split_regex_lineBreak. unfold split.
    apply (split_chars_split_lines _ _ _ (le_n _)). }
  split; [symmetry; exact (Forall2_length _ _ _ H)|]. split; [exact H|].
  intros i. destruct (split LF text !! i) as [p|] eqn:Ep.
  - destruct (Forall2_lookup_l _ _ _ _ _ H Ep) as (l & -> & Hl).
    simpl. f_equal. now apply trim_same_line.
  - apply lookup_ge_None in Ep. rewrite (Forall2_length _ _ _ H) in Ep.
    apply lookup_ge_None in Ep. now rewrite Ep.
Qed.

(** ** The provider and the shared service *)

(** *** The inlay hints provider *)

Lemma indexOf_from_found p l :
  forall k,
    (exists pre post, l = pre ++ p ++ post) ->
    exists pre post,
      l = pre ++ p ++ post /\
      indexOf_from l p k = Z.of_nat (k + length pre) /\
      (forall pre' post', l = pre' ++ p ++ post' -> length pre <= length pre').
Proof.
  induction l as [|a l IH]; intros k H.
  - destruct H as (pre & post & H).
    destruct pre; [|discriminate]. destruct p; [|discriminate].
    exists [], []. simpl. split; [reflexivity|]. split; [f_equal; lia|].
    intros; lia.
  - cbn [indexOf_from]. destruct (is_prefix p (a :: l)) eqn:E.
    + apply is_prefix_spec in E as [post E]. exists [], post.
      split; [exact E|]. split; [simpl; f_equal; lia | simpl; intros; lia].
    + destruct H as (pre & post & H).
      destruct pre as [|b pre].
      { assert (is_prefix p (a :: l) = true) as E'
          by (apply is_prefix_spec; exists post; exact H).
        congruence. }
      injection H as <- H.
      destruct (IH (S k) (ex_intro _ pre (ex_intro _ post H)))
        as (pre1 & post1 & H1 & H2 & H3).
      exists (a :: pre1), post1. split; [now rewrite H1|].
      split; [rewrite H2; simpl; f_equal; lia|].
      intros pre' post' H'. destruct pre' as [|b' pre'].
      { assert (is_prefix p (a :: l) = true) as E'
          by (apply is_prefix_spec; exists post'; exact H').
        congruence. }
      injection H' as _ H'. simpl. apply le_n_S. eapply H3. exact H'.
Qed.

(** [indexOf] finds the first occurrence of a text that occurs. *)
Lemma indexOf_first name line :
  substring name (str line) ->
  exists k, indexOf line name = Z.of_nat k /\ first_occurrence name line k.
Proof.
  intros H. destruct (indexOf_from_found (str name) (str line) 0 H)
    as (pre & post & H1 & H2 & H3).
  exists (length pre). split; [exact H2|]. split; [eauto | exact H3].
Qed.

Lemma hintsFrom_In types lines :
  forall i h,
    In h (SynotraInlayProvider.hintsFrom types i lines) ->
    exists j line,
      lines !! j = Some line /\
      SynotraInlayProvider.hintAt types (i + j) line = Some h.
Proof.
  induction lines as [|line rest IH]; intros i h H; [destruct H|].
  cbn [SynotraInlayProvider.hintsFrom] in H.
  assert (In h (SynotraInlayProvider.hintsFrom types (S i) rest) ->
          exists j l,
            (line :: rest) !! j = Some l /\
            SynotraInlayProvider.hintAt types (i + j) l = Some h) as Hrest.
  { intros Hh. destruct (IH _ _ Hh) as (j & l & Hj & Hl).
    exists (S j), l. split; [exact Hj|].
    now replace (i + S j) with (S i + j) by lia. }
  destruct (SynotraInlayProvider.hintAt types i line) as [h0|] eqn:E;
    [|auto].
  destruct H as [<- | H]; [|auto].
  exists 0, line. split; [reflexivity|]. now rewrite Nat.add_0_r.
Qed.

(** X27: a hint of [provideInlayHints] stands on a line that declares a
    variable which the inference has typed; its label is the type, and
    its column is the end of the first occurrence of the name in the
    line, which lies within the line. *)
Theorem X27_provideInlayHints_hint (text : string)
    (h : SynotraInlayProvider.InlayHint) :
  In h (SynotraInlayProvider.provideInlayHints text) ->
  exists line name inferred k,
    split_regex Inlay.lineBreak text !! SynotraInlayProvider.hintLine h
    = Some line /\
    hintedName line = Some name /\
    is_identifier name = true /\
    Inlay.inferFromText text None !! name = Some inferred /\
    SynotraInlayProvider.label h
    = (": " ++ Inlay.typeToString (Some inferred))%string /\
    first_occurrence name line k /\
    SynotraInlayProvider.hintCharacter h
    = Z.of_nat (k + String.length name) /\
    k + String.length name <= String.length line.
Proof.
  unfold SynotraInlayProvider.provideInlayHints. cbv zeta. intros H.
  apply hintsFrom_In in H as (j & line & Hj & H).
  unfold SynotraInlayProvider.hintAt in H. cbn [Nat.add] in H.
  destruct (exec SynotraInlayProvider.initRegex line) as [m|] eqn:Em;
    [|discriminate].
  cbn [mbind option_bind] in H.
  destruct (group 1 m) as [name|] eqn:Eg; [|discriminate].
  cbn [mbind option_bind] in H.
  destruct (Inlay.inferFromText text None !! name) as [inferred|] eqn:Et;
    [|discriminate].
  cbn [mbind option_bind] in H. injection H as <-.
  cbn [SynotraInlayProvider.hintLine SynotraInlayProvider.label
       SynotraInlayProvider.hintCharacter].
  destruct (indexOf_first name line (exec_group_substring _ _ _ _ _ Em Eg))
    as (k & Hk & Hfirst).
  exists line, name, inferred, k.
  split; [exact Hj|]. split; [unfold hintedName; now rewrite Em|].
  split.
  { identifier_group. }
  split; [exact Et|]. split; [reflexivity|]. split; [exact Hfirst|].
  split; [rewrite Hk; lia|].
  destruct Hfirst as [(pre & post & Hl & <-) _].
  rewrite !string_length_str, Hl, !length_app. lia.
Qed.

Lemma X27_provideInlayHints_hint_witness :
  exists line name inferred k,
    split_regex Inlay.lineBreak "var a = 1" !! 0 = Some line /\
    hintedName line = Some name /\
    is_identifier name = true /\
    Inlay.inferFromText "var a = 1" None !! name = Some inferred /\
    ": Int" = (": " ++ Inlay.typeToString (Some inferred))%string /\
    first_occurrence name line k /\
    2%Z = Z.of_nat (k + String.length name) /\
    k + String.length name <= String.length line.
Proof.
  apply (X27_provideInlayHints_hint "var a = 1"
           (SynotraInlayProvider.mkInlayHint 0 2 ": Int"
              SynotraInlayProvider.Type_ true)).
  vm_compute. left. reflexivity.
Defined.

(** *** The shared inference service *)

Section ServiceFacts.

Variable parse : string -> option ASTNode.
Variable parseTypeString : string -> Types.TypeInfo.
Variable parseCommaSeparated : string -> list string.

Local Abbreviation getInferenceResult :=
  (DocumentInferenceService.getInferenceResult parse parseTypeString
     parseCommaSeparated).
Local Abbreviation parseAndInfer :=
  (DocumentInferenceService.parseAndInfer parse parseTypeString
     parseCommaSeparated).

Lemma parseAndInfer_entry doc s r s' :
  parseAndInfer doc s = Some (r, s') ->
  DocumentInferenceService.cache s' !! DocumentInferenceService.uri doc
  = Some (DocumentInferenceService.mkCacheEntry
            (DocumentInferenceService.version doc)
            (DocumentInferenceService.ast r)
            (DocumentInferenceService.types r)
            (DocumentInferenceService.lines r)) /\
  (forall u, u <> DocumentInferenceService.uri doc ->
     DocumentInferenceService.cache s' !! u
     = DocumentInferenceService.cache s !! u) /\
  DocumentInferenceService.typeRegistry s'
  = registryOf parseTypeString parseCommaSeparated
      (DocumentInferenceService.ast r) (DocumentInferenceService.lines r)
      (DocumentInferenceService.typeRegistry s).
Proof.
  unfold DocumentInferenceService.parseAndInfer. cbv zeta.
  destruct (parse _) as [a|]; [|discriminate]. cbn [mbind option_bind].
  intros [= <- <-]. cbn. split; [apply lookup_insert_eq|].
  split; [|reflexivity]. intros u Hu. now apply lookup_insert_ne.
Qed.

Lemma getInferenceResult_entry doc s r s' :
  getInferenceResult doc s = Some (r, s') ->
  DocumentInferenceService.cache s' !! DocumentInferenceService.uri doc
  = Some (DocumentInferenceService.mkCacheEntry
            (DocumentInferenceService.version doc)
            (DocumentInferenceService.ast r)
            (DocumentInferenceService.types r)
            (DocumentInferenceService.lines r)).
Proof.
  unfold DocumentInferenceService.getInferenceResult.
  destruct (DocumentInferenceService.cache s
              !! DocumentInferenceService.uri doc) as [e|] eqn:E.
  - destruct (Nat.eqb_spec (DocumentInferenceService.entryVersion e)
                (DocumentInferenceService.version doc)) as [Hv|Hv].
    + intros [= <- <-]. cbn. rewrite E, <- Hv. now destruct e.
    + intros H. now apply parseAndInfer_entry in H.
  - intros H. now apply parseAndInfer_entry in H.
Qed.

Lemma getInferenceResult_hit doc s e :
  DocumentInferenceService.cache s !! DocumentInferenceService.uri doc
  = Some e ->
  DocumentInferenceService.entryVersion e
  = DocumentInferenceService.version doc ->
  getInferenceResult doc s
  = Some (DocumentInferenceService.mkInferenceResult
            (DocumentInferenceService.entryAst e)
            (DocumentInferenceService.entryTypes e)
            (DocumentInferenceService.entryLines e), s).
Proof.
  intros E Hv. unfold DocumentInferenceService.getInferenceResult.
  now rewrite E, Hv, Nat.eqb_refl.
Qed.

(** X28: results are cached by URI and version: once a document has been
    answered, a document of the same URI and version gets the same
    answer, whatever its text, and the service is left as it is. *)
Theorem X28_getInferenceResult_cached
    (doc doc' : DocumentInferenceService.TextDocument)
    (s s' : DocumentInferenceService.Service)
    (r : DocumentInferenceService.InferenceResult) :
  getInferenceResult doc s = Some (r, s') ->
  DocumentInferenceService.uri doc' = DocumentInferenceService.uri doc ->
  DocumentInferenceService.version doc' = DocumentInferenceService.version doc ->
  getInferenceResult doc' s' = Some (r, s').
Proof.
  intros H Hu Hv. apply getInferenceResult_entry in H.
  rewrite <- Hu in H.
  rewrite (getInferenceResult_hit doc' s' _ H) by (symmetry; exact Hv).
  now destruct r.
Qed.

(** X29: the registry follows the document parsed last, not the document
    asked for last: when [docB] is parsed after [docA], [docA] is still
    answered from the cache, while the user-defined types are the
    classes and actors of [docB]. *)
Theorem X29_registry_follows_the_last_parse
    (docA docB : DocumentInferenceService.TextDocument)
    (s0 s1 s2 : DocumentInferenceService.Service)
    (rA rB : DocumentInferenceService.InferenceResult) :
  getInferenceResult docA s0 = Some (rA, s1) ->
  DocumentInferenceService.uri docB <> DocumentInferenceService.uri docA ->
  DocumentInferenceService.cache s1 !! DocumentInferenceService.uri docB = None ->
  getInferenceResult docB s1 = Some (rB, s2) ->
  getInferenceResult docA s2 = Some (rA, s2) /\
  forall nm,
    fst (Types.isUserDefinedType nm (DocumentInferenceService.typeRegistry s2))
    = true <->
    exists n, In n (nodes (DocumentInferenceService.ast rB)) /\
              top_kind (kind n) = true /\ name n = nm.
Proof.
  intros HA Hne HB0 HB. apply getInferenceResult_entry in HA.
  unfold DocumentInferenceService.getInferenceResult in HB. rewrite HB0 in HB.
  apply parseAndInfer_entry in HB as (_ & Hother & Hreg). split.
  - rewrite (getInferenceResult_hit docA s2 _
               ltac:(rewrite Hother by congruence; exact HA) eq_refl).
    now destruct rA.
  - intros nm. rewrite Hreg. apply isUserDefinedType_spec.
Qed.

End ServiceFacts.

Lemma X28_getInferenceResult_cached_witness :
  exists r s',
    getInferenceResult_Rev2 doc_a DocumentInferenceService.newService
    = Some (r, s') /\
    getInferenceResult_Rev2 doc_a_again s' = Some (r, s').
Proof.
  destruct (getInferenceResult_Rev2 doc_a DocumentInferenceService.newService)
    as [[r s']|] eqn:E; [|vm_compute in E; discriminate E].
  exists r, s'. split; [reflexivity|].
  apply (X28_getInferenceResult_cached Rev2.parse
           (fun _ => Types.make Types.KUnknown None None) (fun _ => [])
           doc_a doc_a_again DocumentInferenceService.newService s' r);
    [exact E | reflexivity | reflexivity].
Defined.

Lemma X29_registry_follows_the_last_parse_witness :
  exists rA rB s1 s2,
    getInferenceResult_Rev2 doc_a DocumentInferenceService.newService
    = Some (rA, s1) /\
    getInferenceResult_Rev2 doc_b s1 = Some (rB, s2) /\
    getInferenceResult_Rev2 doc_a s2 = Some (rA, s2) /\
    forall nm,
      fst (Types.isUserDefinedType nm
             (DocumentInferenceService.typeRegistry s2)) = true <->
      exists n, In n (nodes (DocumentInferenceService.ast rB)) /\
                top_kind (kind n) = true /\ name n = nm.
Proof.
  destruct (getInferenceResult_Rev2 doc_a DocumentInferenceService.newService)
    as [[rA s1]|] eqn:EA; [|vm_compute in EA; discriminate EA].
  destruct (getInferenceResult_Rev2 doc_b s1)
    as [[rB s2]|] eqn:EB.
  - exists rA, rB, s1, s2. split; [reflexivity|]. split; [exact EB|].
    apply (X29_registry_follows_the_last_parse Rev2.parse
             (fun _ => Types.make Types.KUnknown None None) (fun _ => [])
             doc_a doc_b DocumentInferenceService.newService s1 s2 rA rB);
      [exact EA | discriminate | | exact EB].
    vm_compute in EA. injection EA as _ <-. vm_compute. reflexivity.
  - vm_compute in EA. injection EA as _ <-. vm_compute in EB. discriminate EB.
Defined.

(** *** Resolution of generic parameters: nothing is left *)

Lemma buildGenericMap_mono names :
  forall args genericMap nm,
    is_Some (genericMap !! nm) ->
    is_Some (Types.buildGenericMap names args genericMap !! nm).
Proof.
  induction names as [|n names IH]; intros args genericMap nm H; simpl; [exact H|].
  destruct args as [|a args]; [exact H|]. apply IH.
  apply lookup_insert_is_Some. destruct (decide (n = nm)); auto.
Qed.

Lemma buildGenericMap_mapped names :
  forall args genericMap nm,
    length names <= length args -> In nm names ->
    is_Some (Types.buildGenericMap names args genericMap !! nm).
Proof.
  induction names as [|n names IH]; intros args genericMap nm Hlen Hin;
    [destruct Hin|].
  destruct args as [|a args]; [simpl in Hlen; lia|]. simpl in Hlen. simpl.
  destruct (in_dec string_dec nm names) as [Hn|Hn].
  - apply IH; [lia | exact Hn].
  - destruct Hin as [->|Hin]; [|contradiction].
    apply buildGenericMap_mono. rewrite lookup_insert_eq. eauto.
Qed.

Lemma buildGenericMap_values names :
  forall args genericMap nm g,
    Types.buildGenericMap names args genericMap !! nm = Some g ->
    In g args \/ genericMap !! nm = Some g.
Proof.
  induction names as [|n names IH]; intros args genericMap nm g H; simpl in H;
    [auto|].
  destruct args as [|a args]; [auto|].
  apply IH in H as [H|H]; [left; now right|].
  destruct (decide (n = nm)) as [->|Hne].
  - rewrite lookup_insert_eq in H. injection H as ->. left. now left.
  - rewrite lookup_insert_ne in H by exact Hne. auto.
Qed.

(** Once a name is mapped to types that do not mention it, the resolved
    type does not mention it. *)
Lemma resolveGenericType_closed genericMap p ty :
  p <> ""%string ->
  is_Some (genericMap !! p) ->
  (forall q g, genericMap !! q = Some g -> mentions p g = false) ->
  mentions p (Types.resolveGenericType ty genericMap) = false.
Proof.
  intros Hp Hmapped Hclosed.
  induction ty as [k g n a IH] using TypeInfo_ind'.
  cbn [Types.resolveGenericType].
  destruct (n' ← Types.truthy n; genericMap !! n') as [mapped|] eqn:E.
  { destruct (Types.truthy n) as [n'|]; [|discriminate]. simpl in E.
    exact (Hclosed _ _ E). }
  assert (match n with Some x => String.eqb x p | None => false end = false)
    as Hn.
  { destruct n as [x|]; [|reflexivity].
    destruct (String.eqb_spec x p) as [->|]; [|reflexivity].
    destruct p as [|c p]; [congruence|]. simpl in E.
    destruct Hmapped as [g' Hg']. congruence. }
  destruct g as [gs|]; cbn [mentions]; rewrite Hn; [|reflexivity].
  rewrite resolve_each_map. cbn [orb].
  apply not_true_iff_false. intros H. apply existsb_exists in H as (x & Hx & Hm).
  apply in_map_iff in Hx as (y & <- & Hy).
  rewrite List.Forall_forall in IH. specialize (IH y Hy). congruence.
Qed.

(** X30: when a type carries at least as many generic arguments as the
    definition has generic parameters, and the arguments mention none of
    the parameters, no parameter is left in any return or parameter type
    of the resolved methods. *)
Theorem X30_resolveGenericMethods_leaves_no_parameter
    (typeDef : Types.TypeDefinition) (typeInfo : Types.TypeInfo)
    (names : list string) (args : list Types.TypeInfo) :
  Types.genericParams typeDef = Some names ->
  Types.generics typeInfo = Some args ->
  length names <= length args ->
  (forall p, In p names ->
     p <> ""%string /\ forall g, In g args -> mentions p g = false) ->
  forall p m,
    In p names -> In m (Types.resolveGenericMethods typeDef typeInfo) ->
    method_mentions p m = false.
Proof.
  intros Hnames Hargs Hlen Hclosed p m Hp Hm.
  unfold Types.resolveGenericMethods in Hm. rewrite Hnames, Hargs in Hm.
  cbv zeta in Hm. apply in_map_iff in Hm as (m0 & <- & _).
  destruct (Hclosed p Hp) as [Hne Hno].
  assert (forall ty,
            mentions p (Types.resolveGenericType ty
                          (Types.buildGenericMap names args ∅)) = false)
    as Hty.
  { intros ty. apply resolveGenericType_closed; [exact Hne | |].
    - now apply buildGenericMap_mapped.
    - intros q g Hq. apply buildGenericMap_values in Hq as [Hq|Hq];
        [now apply Hno | now rewrite lookup_empty in Hq]. }
  unfold method_mentions, Types.resolveMethod.
  cbn [Types.returnType Types.params]. rewrite Hty. cbn [orb].
  apply not_true_iff_false. intros H. apply existsb_exists in H as (x & Hx & Hmx).
  apply in_map_iff in Hx as (y & <- & _).
  unfold Types.resolveParam in Hmx. cbn [Types.p_type] in Hmx.
  rewrite Hty in Hmx. discriminate.
Qed.

Lemma X30_resolveGenericMethods_leaves_no_parameter_witness :
  Forall (fun m => method_mentions "V" m = false)
    (Types.resolveGenericMethods Types.MutableMapDefinition
       (MapOf (Types.t0 Types.KString) (ListOf (Types.t0 Types.KInt)))).
Proof.
  apply List.Forall_forall. intros m Hm.
  apply (X30_resolveGenericMethods_leaves_no_parameter
           Types.MutableMapDefinition
           (MapOf (Types.t0 Types.KString) (ListOf (Types.t0 Types.KInt)))
           ["K"; "V"]%string
           [Types.t0 Types.KString; ListOf (Types.t0 Types.KInt)]).
  - reflexivity.
  - reflexivity.
  - simpl. lia.
  - intros p [<-|[<-|[]]]; (split; [discriminate|]);
      intros g [<-|[<-|[]]]; reflexivity.
  - simpl. auto.
  - exact Hm.
Defined.

(** ** Sign-prefixed initializers in a whole document *)

Lemma mergeListElementType_frame name elemType types nm :
  name <> nm ->
  Inlay.mergeListElementType name elemType types !! nm = types !! nm.
Proof.
  intros Hne. unfold Inlay.mergeListElementType.
  destruct (types !! name) as [existing|];
    [|now apply lookup_insert_ne].
  destruct (Inlay.TypeKind_eqb (Inlay.kind existing) Inlay.KRandomAny);
    [now apply lookup_insert_ne|].
  destruct (Inlay.TypeKind_eqb (Inlay.kind existing) Inlay.KList);
    [now apply lookup_insert_ne | reflexivity].
Qed.

Lemma mergeMapTypes_frame name keyType valType types nm :
  name <> nm ->
  Inlay.mergeMapTypes name keyType valType types !! nm = types !! nm.
Proof.
  intros Hne. unfold Inlay.mergeMapTypes.
  destruct (types !! name) as [existing|];
    [|now apply lookup_insert_ne].
  destruct (Inlay.TypeKind_eqb (Inlay.kind existing) Inlay.KRandomAny);
    [now apply lookup_insert_ne|].
  destruct (Inlay.TypeKind_eqb (Inlay.kind existing) Inlay.KMap);
    [now apply lookup_insert_ne | reflexivity].
Qed.

(** The scan of the collection usages writes the entries of the names on
    which the line calls [add] or [put], and no other. *)
Lemma scanCollectionUsage_frame types raw nm :
  addTarget raw <> Some nm -> putTarget raw <> Some nm ->
  Inlay.scanCollectionUsage types raw !! nm = types !! nm.
Proof.
  unfold addTarget, putTarget, Inlay.scanCollectionUsage, Inlay.scanPut,
    Inlay.scanAdd. cbv zeta. intros Hadd Hput.
  transitivity
    (match exec Inlay.addRegex (trim raw) with
     | Some m =>
         match group 1 m, group 2 m with
         | Some name, Some arg =>
             Inlay.mergeListElementType name (Inlay.inferExpressionType arg) types
         | _, _ => types
         end
     | None => types
     end !! nm).
  - destruct (exec Inlay.putRegex (trim raw)) as [m|]; [|reflexivity].
    cbn [mbind option_bind] in Hput.
    destruct (group 1 m) as [name|]; [|reflexivity].
    destruct (group 2 m); [|reflexivity]. destruct (group 3 m); [|reflexivity].
    apply mergeMapTypes_frame. congruence.
  - destruct (exec Inlay.addRegex (trim raw)) as [m|]; [|reflexivity].
    cbn [mbind option_bind] in Hadd.
    destruct (group 1 m) as [name|]; [|reflexivity].
    destruct (group 2 m); [|reflexivity].
    apply mergeListElementType_frame. congruence.
Qed.

(** The scan of the binary operations writes the entry of the name the
    line assigns, and no other. *)
Lemma scanBinaryOp_frame types raw nm :
  arithmeticTarget raw <> Some nm ->
  Inlay.scanBinaryOp types raw !! nm = types !! nm.
Proof.
  unfold arithmeticTarget, Inlay.scanBinaryOp. cbv zeta. intros H.
  destruct (exec Inlay.binRegex (trim raw)) as [m|]; [|reflexivity].
  cbn [mbind option_bind] in H.
  destruct (group 1 m); [|reflexivity]. destruct (group 3 m); [|reflexivity].
  destruct (_ && _); [|reflexivity].
  destruct (exec Inlay.assignRegex (trim raw)) as [am|]; [|reflexivity].
  cbn [mbind option_bind] in H.
  destruct (group 1 am) as [name|]; [|reflexivity].
  apply lookup_insert_ne. congruence.
Qed.

Lemma fold_left_frame (f : Inlay.TypeMap -> string -> Inlay.TypeMap)
    (P : string -> Prop) nm :
  (forall types raw, P raw -> f types raw !! nm = types !! nm) ->
  forall lines types,
    Forall P lines -> fold_left f lines types !! nm = types !! nm.
Proof.
  intros Hf. induction lines as [|raw lines IH]; intros types H; [reflexivity|].
  apply Forall_cons_iff in H as [Hraw H]. simpl.
  rewrite (IH _ H). now apply Hf.
Qed.

(** C10, as stated, fails.  The line of [doc_sum_then_signed] declares
    [x] with the initializer [-5], which the pattern library classifies
    as an integer literal; the sum before the declaration makes the scan
    of the binary operations type [x] Int.  In
    [doc_signed_then_redeclared] the second declaration of [x] gives it
    Int. *)
Lemma C10_signed_literal_counterexample :
  (split_regex Inlay.lineBreak doc_sum_then_signed = [doc_sum_then_signed] /\
   readInitializer doc_sum_then_signed = Some ("x", "-5") /\
   isIntLiteral "-5" = true /\ starts_with_sign "-5" = true /\
   Inlay.inferFromText doc_sum_then_signed None !! "x"
   = Some (Inlay.make0 Inlay.KInt) /\
   Inlay.typeToString (Inlay.inferFromText doc_sum_then_signed None !! "x")
   = "Int") /\
  (split_regex Inlay.lineBreak doc_signed_then_redeclared
   = ["var x = -5"; "var x = 7"] /\
   readInitializer "var x = -5" = Some ("x", "-5") /\
   Inlay.inferFromText doc_signed_then_redeclared None !! "x"
   = Some (Inlay.make0 Inlay.KInt)).
Proof. repeat split; vm_compute; reflexivity. Qed.

(** C10, amended: when the last line of the document that declares
    [name] with an initializer has an initializer that the pattern
    library classifies as an integer literal and that begins with a sign,
    and no line calls [add] or [put] on [name] or assigns [name] while it
    holds a binary operation, the output maps [name] to the placeholder
    RandomAny: the engine's own tests give such an initializer the kind
    RandomAny, not Int. *)
Theorem C10_signed_literal_amended
    (text name value : string) (ast : option ASTNode) :
  last (omap (initializerOf name) (split_regex Inlay.lineBreak text))
  = Some value ->
  isIntLiteral value = true ->
  starts_with_sign value = true ->
  Forall (leaves_alone name) (split_regex Inlay.lineBreak text) ->
  Inlay.inferExpressionType value = Inlay.make0 Inlay.KRandomAny /\
  Inlay.inferFromText text ast !! name = Some (Inlay.make0 Inlay.KRandomAny) /\
  Inlay.typeToString (Inlay.inferFromText text ast !! name) = "RandomAny".
Proof.
  intros Hlast _ Hsign Halone.
  pose proof (inferExpressionType_signed _ Hsign) as Hvalue.
  assert (Inlay.inferFromText text ast !! name
          = Some (Inlay.make0 Inlay.KRandomAny)) as E.
  { unfold Inlay.inferFromText. cbv zeta.
    unfold Inlay.scanBinaryOps, Inlay.scanCollectionUsages.
    rewrite (fold_left_frame Inlay.scanBinaryOp (leaves_alone name) name)
      by (try exact Halone; intros types raw (_ & _ & H);
          now apply scanBinaryOp_frame).
    rewrite (fold_left_frame Inlay.scanCollectionUsage (leaves_alone name) name)
      by (try exact Halone; intros types raw (Ha & Hp & _);
          now apply scanCollectionUsage_frame).
    rewrite scanInitializers_lookup, Hlast, Hvalue. reflexivity. }
  split; [exact Hvalue|]. split; [exact E|]. rewrite E. reflexivity.
Qed.

(** C10, amended, at a document of three lines that ends with a line
    break: [x] is declared with [-5], and the other lines concern other
    names. *)
Lemma C10_signed_literal_witness :
  Inlay.inferExpressionType "-5" = Inlay.make0 Inlay.KRandomAny /\
  Inlay.inferFromText "var y = 1 + 2
var x = -5
" None !! "x" = Some (Inlay.make0 Inlay.KRandomAny) /\
  Inlay.typeToString (Inlay.inferFromText "var y = 1 + 2
var x = -5
" None !! "x") = "RandomAny".
Proof.
  apply (C10_signed_literal_amended "var y = 1 + 2
var x = -5
" "x" "-5" None).
  - vm_compute. reflexivity.
  - vm_compute. reflexivity.
  - vm_compute. reflexivity.
  - repeat constructor; vm_compute; discriminate.
Defined.
